(** * sub-translator: the extractor, the work-list store, the collector
    and the filler

    A shallow embedding of [main.go].  Go strings are byte sequences, so a
    string is a [list ascii]; the functions of the Go standard library that
    [main.go] calls ([strings], [unicode/utf8], [encoding/json], [bufio]) are
    embedded next to the functions of the program itself, each under the
    name it has in Go. *)

From Stdlib Require Import NArith ZArith Ascii String Lia ZifyN.
From stdpp Require Import base list gmap strings.

Local Open Scope Z_scope.
Set Warnings "-register-all".

(** ** Go strings *)

Abbreviation gostring := (list ascii).

(** String literal of the source, as the bytes it denotes. *)
Definition str (s : string) : gostring := list_ascii_of_string s.

(** The byte as a number, [0 .. 255]. *)
Definition byte_val (c : ascii) : N := N_of_ascii c.

Definition byte_of (n : N) : ascii := ascii_of_N n.

Definition len (s : gostring) : Z := Z.of_nat (length s).

(** [s[lo:hi]]; the program only slices inside bounds. *)
Definition slice (s : gostring) (lo hi : Z) : gostring :=
  take (Z.to_nat (hi - lo)) (drop (Z.to_nat lo) s).

Definition slice_from (s : gostring) (lo : Z) : gostring :=
  drop (Z.to_nat lo) s.

Definition slice_to (s : gostring) (hi : Z) : gostring :=
  take (Z.to_nat hi) s.

(** [s[i]], with byte 0 outside the string (never read there). *)
Definition byte_at (s : gostring) (i : Z) : ascii :=
  nth (Z.to_nat i) s zero.

Definition bytes_eqb (a b : gostring) : bool := bool_decide (a = b).

(** The newline and the double quote, as strings of one byte. *)
Definition nl : gostring := [ascii_of_nat 10].
Definition dq : gostring := [ascii_of_nat 34].

(** ** unicode/utf8 *)

Module utf8.

Definition RuneError : N := 0xFFFD%N.
Definition RuneSelf : N := 0x80%N.
Definition UTFMax : Z := 4.

(** The table [first] with [acceptRanges] resolved: for a leading byte,
    the length of the sequence and the range accepted for its second
    byte; [None] for the entries [xx] (invalid) and [as] (ASCII). *)
Definition first (p0 : N) : option (nat * N * N) :=
  if (p0 <? 0xC2)%N then None
  else if (p0 <=? 0xDF)%N then Some (2%nat, 0x80, 0xBF)%N
  else if (p0 =? 0xE0)%N then Some (3%nat, 0xA0, 0xBF)%N
  else if (p0 <=? 0xEC)%N then Some (3%nat, 0x80, 0xBF)%N
  else if (p0 =? 0xED)%N then Some (3%nat, 0x80, 0x9F)%N
  else if (p0 <=? 0xEF)%N then Some (3%nat, 0x80, 0xBF)%N
  else if (p0 =? 0xF0)%N then Some (4%nat, 0x90, 0xBF)%N
  else if (p0 <=? 0xF3)%N then Some (4%nat, 0x80, 0xBF)%N
  else if (p0 =? 0xF4)%N then Some (4%nat, 0x80, 0x8F)%N
  else None.

(** A continuation byte, [locb <= b <= hicb]. *)
Definition cont (b : N) : bool := ((0x80 <=? b) && (b <=? 0xBF))%N.

(** [utf8.DecodeRune] / [utf8.DecodeRuneInString]: the first rune of
    [p] and its width in bytes. *)
Definition DecodeRune (p : gostring) : N * nat :=
  match p with
  | [] => (RuneError, 0%nat)
  | c0 :: p1 =>
    let p0 := byte_val c0 in
    if (p0 <? RuneSelf)%N then (p0, 1%nat)
    else match first p0 with
    | None => (RuneError, 1%nat)
    | Some (sz, lo, hi) =>
      if (length p <? sz)%nat then (RuneError, 1%nat)
      else
        let b1 := byte_val (nth 0 p1 zero) in
        let b2 := byte_val (nth 1 p1 zero) in
        let b3 := byte_val (nth 2 p1 zero) in
        if ((b1 <? lo) || (hi <? b1))%N then (RuneError, 1%nat)
        else if (sz <=? 2)%nat then
          (N.lor (N.shiftl (N.land p0 0x1F) 6) (N.land b1 0x3F), 2%nat)
        else if negb (cont b2) then (RuneError, 1%nat)
        else if (sz <=? 3)%nat then
          (N.lor (N.lor (N.shiftl (N.land p0 0x0F) 12)
                        (N.shiftl (N.land b1 0x3F) 6))
                 (N.land b2 0x3F), 3%nat)
        else if negb (cont b3) then (RuneError, 1%nat)
        else
          (N.lor (N.lor (N.lor (N.shiftl (N.land p0 0x07) 18)
                               (N.shiftl (N.land b1 0x3F) 12))
                        (N.shiftl (N.land b2 0x3F) 6))
                 (N.land b3 0x3F), 4%nat)
    end
  end.

(** [utf8.RuneStart]. *)
Definition RuneStart (b : ascii) : bool :=
  negb (N.land (byte_val b) 0xC0 =? 0x80)%N.

(** The backwards search of [DecodeLastRune] for the start of the last
    rune: from [start] down to [lim], at most [UTFMax] steps. *)
Fixpoint back_to_start (k : nat) (s : gostring) (start lim : Z) : Z :=
  match k with
  | O => start
  | S k' =>
    if start <? lim then start
    else if RuneStart (byte_at s start) then start
    else back_to_start k' s (start - 1) lim
  end.

(** [utf8.DecodeLastRune] / [utf8.DecodeLastRuneInString]. *)
Definition DecodeLastRune (s : gostring) : N * nat :=
  let e := len s in
  if e =? 0 then (RuneError, 0%nat)
  else
    let r := byte_val (byte_at s (e - 1)) in
    if (r <? RuneSelf)%N then (r, 1%nat)
    else
      let lim := Z.max (e - UTFMax) 0 in
      let start := Z.max (back_to_start 4 s (e - 2) lim) 0 in
      let '(r', size) := DecodeRune (slice s start e) in
      if start + Z.of_nat size =? e then (r', size) else (RuneError, 1%nat).

(** [utf8.EncodeRune] / [utf8.AppendRune]: surrogates and values above
    [MaxRune] are written as [RuneError]. *)
Definition EncodeRune (r : N) : gostring :=
  if (r <=? 0x7F)%N then [byte_of r]
  else if (r <=? 0x7FF)%N then
    [byte_of (N.lor 0xC0 (N.shiftr r 6));
     byte_of (N.lor 0x80 (N.land r 0x3F))]
  else
    let r := if ((0x10FFFF <? r) || ((0xD800 <=? r) && (r <=? 0xDFFF)))%N
             then RuneError else r in
    if (r <=? 0xFFFF)%N then
      [byte_of (N.lor 0xE0 (N.shiftr r 12));
       byte_of (N.lor 0x80 (N.land (N.shiftr r 6) 0x3F));
       byte_of (N.lor 0x80 (N.land r 0x3F))]
    else
      [byte_of (N.lor 0xF0 (N.shiftr r 18));
       byte_of (N.lor 0x80 (N.land (N.shiftr r 12) 0x3F));
       byte_of (N.lor 0x80 (N.land (N.shiftr r 6) 0x3F));
       byte_of (N.lor 0x80 (N.land r 0x3F))].

End utf8.

(** ** unicode *)

Module unicode.

(** [unicode.IsSpace]: the Latin-1 spaces and the [White_Space] range
    table above Latin-1. *)
Definition IsSpace (r : N) : bool :=
  (if r <=? 0xFF then
     (r =? 0x09) || (r =? 0x0A) || (r =? 0x0B) || (r =? 0x0C) ||
     (r =? 0x0D) || (r =? 0x20) || (r =? 0x85) || (r =? 0xA0)
   else
     (r =? 0x1680) || ((0x2000 <=? r) && (r <=? 0x200A)) ||
     (r =? 0x2028) || (r =? 0x2029) || (r =? 0x202F) ||
     (r =? 0x205F) || (r =? 0x3000))%N.

End unicode.

(** ** strings *)

Module strings.

Definition HasPrefix (s prefix : gostring) : bool :=
  (len prefix <=? len s) && bytes_eqb (slice_to s (len prefix)) prefix.

Definition HasSuffix (s suffix : gostring) : bool :=
  (len suffix <=? len s) &&
  bytes_eqb (slice_from s (len s - len suffix)) suffix.

Definition TrimPrefix (s prefix : gostring) : gostring :=
  if HasPrefix s prefix then slice_from s (len prefix) else s.

Definition TrimSuffix (s suffix : gostring) : gostring :=
  if HasSuffix s suffix then slice_to s (len s - len suffix) else s.

(** [strings.Index]: the first [i] with [s[i:]] starting with [substr],
    [-1] when there is none. *)
Fixpoint Index_from (i : Z) (s substr : gostring) : Z :=
  if HasPrefix s substr then i
  else match s with
       | [] => -1
       | _ :: r => Index_from (i + 1) r substr
       end.

Definition Index (s substr : gostring) : Z := Index_from 0 s substr.

(** [strings.LastIndex]: the last such [i]. *)
Fixpoint LastIndex_from (i : Z) (s substr : gostring) : Z :=
  match s with
  | [] => if HasPrefix s substr then i else -1
  | _ :: r =>
    let j := LastIndex_from (i + 1) r substr in
    if 0 <=? j then j else if HasPrefix s substr then i else -1
  end.

Definition LastIndex (s substr : gostring) : Z := LastIndex_from 0 s substr.

(** The table [asciiSpace]. *)
Definition asciiSpace (c : ascii) : bool :=
  let n := byte_val c in
  ((n =? 0x09) || (n =? 0x0A) || (n =? 0x0B) || (n =? 0x0C) ||
   (n =? 0x0D) || (n =? 0x20))%N.

(** [strings.TrimLeftFunc]: drop the leading runes that satisfy [f].
    [skip] counts the bytes still to drop of a rune already decoded. *)
Fixpoint TrimLeftFunc_go (f : N → bool) (skip : nat) (s : gostring)
  : gostring :=
  match s with
  | [] => []
  | _ :: r =>
    match skip with
    | S k => TrimLeftFunc_go f k r
    | O =>
      let '(rn, size) := utf8.DecodeRune s in
      if f rn then TrimLeftFunc_go f (size - 1) r else s
    end
  end.

Definition TrimLeftFunc (s : gostring) (f : N → bool) : gostring :=
  TrimLeftFunc_go f 0 s.

(** [lastIndexFunc]: the loop [for i := len(s); i > 0; ...], which takes
    at least one byte per turn, so [length s] turns are enough. *)
Fixpoint lastIndexFunc_go (n : nat) (s : gostring) (f : N → bool)
    (truth : bool) (i : Z) : Z :=
  match n with
  | O => -1
  | S n' =>
    if i <=? 0 then -1
    else
      let '(r, size) := utf8.DecodeLastRune (slice_to s i) in
      let i := i - Z.of_nat size in
      if Bool.eqb (f r) truth then i else lastIndexFunc_go n' s f truth i
  end.

Definition lastIndexFunc (s : gostring) (f : N → bool) (truth : bool) : Z :=
  lastIndexFunc_go (length s) s f truth (len s).

(** [strings.TrimRightFunc]. *)
Definition TrimRightFunc (s : gostring) (f : N → bool) : gostring :=
  let i := lastIndexFunc s f false in
  let i :=
    if (0 <=? i) && (utf8.RuneSelf <=? byte_val (byte_at s i))%N
    then i + Z.of_nat (snd (utf8.DecodeRune (slice_from s i)))
    else i + 1 in
  slice_to s i.

Definition TrimFunc (s : gostring) (f : N → bool) : gostring :=
  TrimRightFunc (TrimLeftFunc s f) f.

(** The first loop of [TrimSpace]: the string from the first byte that
    is not an ASCII space, and whether that byte is outside ASCII. *)
Fixpoint TrimSpace_start (s : gostring) : gostring * bool :=
  match s with
  | [] => ([], false)
  | c :: r =>
    if (utf8.RuneSelf <=? byte_val c)%N then (s, true)
    else if asciiSpace c then TrimSpace_start r
    else (s, false)
  end.

(** The second loop, from the end: [stop], and whether the byte before
    it is outside ASCII.  [rs] is [s[start:]] reversed. *)
Fixpoint TrimSpace_stop (rs : gostring) : gostring * bool :=
  match rs with
  | [] => ([], false)
  | c :: r =>
    if (utf8.RuneSelf <=? byte_val c)%N then (rs, true)
    else if asciiSpace c then TrimSpace_stop r
    else (rs, false)
  end.

(** [strings.TrimSpace]. *)
Definition TrimSpace (s : gostring) : gostring :=
  let '(s1, nonascii) := TrimSpace_start s in
  if nonascii then TrimFunc s1 unicode.IsSpace
  else
    let '(rs2, nonascii2) := TrimSpace_stop (rev s1) in
    if nonascii2 then TrimRightFunc (rev rs2) unicode.IsSpace
    else rev rs2.

(** [strings.Split] for a separator that is not empty (the program
    splits on a newline).  [cur] is the piece being read, reversed;
    [skip] counts the bytes still to drop of a separator just found. *)
Fixpoint Split_go (sep : gostring) (skip : nat) (cur : gostring)
    (s : gostring) : list gostring :=
  match s with
  | [] => [rev cur]
  | c :: r =>
    match skip with
    | S k => Split_go sep k cur r
    | O =>
      if HasPrefix s sep
      then rev cur :: Split_go sep (length sep - 1) [] r
      else Split_go sep 0 (c :: cur) r
    end
  end.

Definition Split (s sep : gostring) : list gostring := Split_go sep 0 [] s.

(** [strings.Join]. *)
Fixpoint Join (elems : list gostring) (sep : gostring) : gostring :=
  match elems with
  | [] => []
  | [e] => e
  | e :: rest => e ++ sep ++ Join rest sep
  end.

End strings.

(** ** The extractor: [sanitizeJSON] *)

Definition sanitizeJSON (input : gostring) : gostring :=
  let input := strings.TrimSpace input in
  let input :=
    if strings.HasPrefix input (str "```") then
      let input := strings.TrimPrefix input (str "```json") in
      let input := strings.TrimPrefix input (str "```") in
      let input := strings.TrimSuffix input (str "```") in
      strings.TrimSpace input
    else input in
  let start := strings.Index input (str "{") in
  let end_ := strings.LastIndex input (str "}") in
  if negb (start =? -1) && negb (end_ =? -1) && (start <? end_)
  then slice input start (end_ + 1)
  else input.

(** ** unicode/utf16 *)

Module utf16.

Definition IsSurrogate (r : N) : bool := ((0xD800 <=? r) && (r <? 0xE000))%N.

(** [utf16.DecodeRune]: the code point of a surrogate pair, the
    replacement character when the pair is not one. *)
Definition DecodeRune (r1 r2 : N) : N :=
  if ((0xD800 <=? r1) && (r1 <? 0xDC00) &&
      (0xDC00 <=? r2) && (r2 <? 0xE000))%N
  then (N.lor (N.shiftl (r1 - 0xD800) 10) (r2 - 0xDC00) + 0x10000)%N
  else utf8.RuneError.

End utf16.

(** ** encoding/json: the scanner and [Unmarshal] *)

Module json.

(** A JSON text as the scanner structures it.  A string value is held
    unquoted, a number as its literal, the members of an object in the
    order of the text, duplicates included. *)
Inductive value :=
| Null
| Bool (b : bool)
| Number (lit : gostring)
| String (s : gostring)
| Array (elems : list value)
| Object (members : list (gostring * value)).

Inductive res (A : Type) :=
| Ok (a : A)
| SyntaxError
| OutOfFuel.
Arguments Ok {A} a.
Arguments SyntaxError {A}.
Arguments OutOfFuel {A}.

Definition maxNestingDepth : N := 10000.

Definition ch (s : string) : ascii :=
  match s with
  | String.String c _ => c
  | EmptyString => zero
  end.

Definition isc (c : ascii) (s : string) : bool := Ascii.eqb c (ch s).

Definition quote : ascii := ascii_of_nat 34.
Definition backslash : ascii := ascii_of_nat 92.

(** [isSpace] of the scanner. *)
Definition isSpace (c : ascii) : bool :=
  let n := byte_val c in
  ((n =? 0x20) || (n =? 0x09) || (n =? 0x0D) || (n =? 0x0A))%N.

Fixpoint skip_space (s : gostring) : gostring :=
  match s with
  | c :: r => if isSpace c then skip_space r else s
  | [] => []
  end.

Definition isDigit (c : ascii) : bool :=
  ((0x30 <=? byte_val c) && (byte_val c <=? 0x39))%N.

Definition hexval (c : ascii) : option N :=
  let n := byte_val c in
  if ((0x30 <=? n) && (n <=? 0x39))%N then Some (n - 0x30)%N
  else if ((0x61 <=? n) && (n <=? 0x66))%N then Some (n - 0x61 + 10)%N
  else if ((0x41 <=? n) && (n <=? 0x46))%N then Some (n - 0x41 + 10)%N
  else None.

(** *** String literals *)

(** The states of the scanner inside a string literal:
    [stateInString], [stateInStringEsc], and [stateInStringEscU] with
    the hexadecimal digits still to come. *)
Inductive strstate := InString | InStringEsc | InStringEscU (k : nat).

(** Scan a string literal whose opening quote has been read: the bytes
    up to the closing quote (escapes still in place, [acc] reversed)
    and the text after it. *)
Fixpoint scan_string_go (st : strstate) (acc : gostring) (s : gostring)
  : option (gostring * gostring) :=
  match s with
  | [] => None
  | c :: r =>
    match st with
    | InString =>
      if Ascii.eqb c quote then Some (rev acc, r)
      else if Ascii.eqb c backslash then scan_string_go InStringEsc (c :: acc) r
      else if (byte_val c <? 0x20)%N then None
      else scan_string_go InString (c :: acc) r
    | InStringEsc =>
      if isc c "b" || isc c "f" || isc c "n" || isc c "r" || isc c "t" ||
         Ascii.eqb c backslash || isc c "/" || Ascii.eqb c quote
      then scan_string_go InString (c :: acc) r
      else if isc c "u" then scan_string_go (InStringEscU 4) (c :: acc) r
      else None
    | InStringEscU k =>
      match hexval c with
      | Some _ =>
        match k with
        | S (S k') => scan_string_go (InStringEscU (S k')) (c :: acc) r
        | _ => scan_string_go InString (c :: acc) r
        end
      | None => None
      end
    end
  end.

Definition scan_string (s : gostring) : option (gostring * gostring) :=
  scan_string_go InString [] s.

(** [getu4]: the value of [\uXXXX] at the start of [s]. *)
Definition getu4 (s : gostring) : option N :=
  match s with
  | c0 :: c1 :: h0 :: h1 :: h2 :: h3 :: _ =>
    if Ascii.eqb c0 backslash && isc c1 "u" then
      match hexval h0, hexval h1, hexval h2, hexval h3 with
      | Some a, Some b, Some c, Some d =>
        Some (a * 4096 + b * 256 + c * 16 + d)%N
      | _, _, _, _ => None
      end
    else None
  | _ => None
  end.

(** The byte a one-letter escape stands for ([unquoteBytes] knows one
    more than the scanner lets through, the single quote). *)
Definition unescape (c : ascii) : option ascii :=
  if Ascii.eqb c quote || Ascii.eqb c backslash || isc c "/" || isc c "'"
  then Some c
  else if isc c "b" then Some (ascii_of_nat 8)
  else if isc c "f" then Some (ascii_of_nat 12)
  else if isc c "n" then Some (ascii_of_nat 10)
  else if isc c "r" then Some (ascii_of_nat 13)
  else if isc c "t" then Some (ascii_of_nat 9)
  else None.

(** [unquoteBytes] on the inside of a string literal: escapes are
    replaced, and every rune outside ASCII is decoded and encoded
    again, which turns invalid UTF-8 into U+FFFD.  (Go first looks for
    a byte that needs this and returns the literal as it is when there
    is none; this is the loop that follows.)  [skip] counts the bytes
    still to drop of an escape or rune already handled. *)
Fixpoint unquote_go (skip : nat) (s : gostring) : option gostring :=
  match s with
  | [] => Some []
  | c :: r =>
    match skip with
    | S k => unquote_go k r
    | O =>
      if Ascii.eqb c backslash then
        match r with
        | [] => None
        | e :: _ =>
          if isc e "u" then
            match getu4 s with
            | None => None
            | Some rr =>
              if utf16.IsSurrogate rr then
                let dec :=
                  match getu4 (drop 6 s) with
                  | Some rr1 => utf16.DecodeRune rr rr1
                  | None => utf8.RuneError
                  end in
                if negb (dec =? utf8.RuneError)%N
                then (utf8.EncodeRune dec ++.) <$> unquote_go 11 r
                else (utf8.EncodeRune utf8.RuneError ++.) <$> unquote_go 5 r
              else (utf8.EncodeRune rr ++.) <$> unquote_go 5 r
            end
          else
            match unescape e with
            | Some b => (b ::.) <$> unquote_go 1 r
            | None => None
            end
        end
      else if Ascii.eqb c quote || (byte_val c <? 0x20)%N then None
      else if (byte_val c <? utf8.RuneSelf)%N then (c ::.) <$> unquote_go 0 r
      else
        let '(rr, size) := utf8.DecodeRune s in
        (utf8.EncodeRune rr ++.) <$> unquote_go (size - 1) r
    end
  end.

Definition unquote (s : gostring) : option gostring := unquote_go 0 s.

(** *** Numbers *)

Fixpoint span_digits (s : gostring) : gostring * gostring :=
  match s with
  | c :: r =>
    if isDigit c then let '(ds, r') := span_digits r in (c :: ds, r')
    else ([], s)
  | [] => ([], [])
  end.

(** [state1]/[state0]: the integer part. *)
Definition scan_int (s : gostring) : option (gostring * gostring) :=
  match s with
  | c :: r =>
    if isc c "0" then Some ([c], r)
    else if isDigit c then let '(ds, r') := span_digits r in Some (c :: ds, r')
    else None
  | [] => None
  end.

(** [stateDot]/[stateDot0]: an optional fraction. *)
Definition scan_frac (s : gostring) : option (gostring * gostring) :=
  match s with
  | c :: r =>
    if isc c "." then
      match span_digits r with
      | ([], _) => None
      | (ds, r') => Some (c :: ds, r')
      end
    else Some ([], s)
  | [] => Some ([], [])
  end.

(** [stateE]/[stateESign]/[stateE0]: an optional exponent. *)
Definition scan_exp (s : gostring) : option (gostring * gostring) :=
  match s with
  | c :: r =>
    if isc c "e" || isc c "E" then
      let '(sign, r1) :=
        match r with
        | c1 :: r1 => if isc c1 "+" || isc c1 "-" then ([c1], r1) else ([], r)
        | [] => ([], r)
        end in
      match span_digits r1 with
      | ([], _) => None
      | (ds, r') => Some (c :: sign ++ ds, r')
      end
    else Some ([], s)
  | [] => Some ([], [])
  end.

Definition scan_number (s : gostring) : option (gostring * gostring) :=
  let '(sign, s1) :=
    match s with
    | c :: r => if isc c "-" then ([c], r) else ([], s)
    | [] => ([], s)
    end in
  '(i, s2) ← scan_int s1;
  '(f, s3) ← scan_frac s2;
  '(e, s4) ← scan_exp s3;
  Some (sign ++ i ++ f ++ e, s4).

(** *** Values *)

Definition scan_literal (lit : string) (v : value) (s : gostring)
  : res (value * gostring) :=
  if strings.HasPrefix s (str lit)
  then Ok (v, slice_from s (len (str lit)))
  else SyntaxError.

Definition string_value (r : gostring) : res (gostring * gostring) :=
  match scan_string r with
  | Some (raw, r') =>
    match unquote raw with
    | Some s => Ok (s, r')
    | None => SyntaxError
    end
  | None => SyntaxError
  end.

(** One value at the start of [s], and the text after it.  [depth] is
    the number of arrays and objects open around it; every call uses up
    one unit of [fuel]. *)
Fixpoint parse_value (fuel : nat) (depth : N) (s : gostring)
  : res (value * gostring) :=
  match fuel with
  | O => OutOfFuel
  | S fuel =>
    match skip_space s with
    | [] => SyntaxError
    | c :: r =>
      if isc c "{" then
        if (maxNestingDepth <=? depth)%N then SyntaxError
        else
          match skip_space r with
          | c' :: r' =>
            if isc c' "}" then Ok (Object [], r')
            else parse_members fuel (depth + 1) [] r
          | [] => SyntaxError
          end
      else if isc c "[" then
        if (maxNestingDepth <=? depth)%N then SyntaxError
        else
          match skip_space r with
          | c' :: r' =>
            if isc c' "]" then Ok (Array [], r')
            else parse_elements fuel (depth + 1) [] r
          | [] => SyntaxError
          end
      else if Ascii.eqb c quote then
        match string_value r with
        | Ok (s', r') => Ok (String s', r')
        | SyntaxError => SyntaxError
        | OutOfFuel => OutOfFuel
        end
      else if isc c "-" || isDigit c then
        match scan_number (c :: r) with
        | Some (lit, r') => Ok (Number lit, r')
        | None => SyntaxError
        end
      else if isc c "t" then scan_literal "true" (Bool true) (c :: r)
      else if isc c "f" then scan_literal "false" (Bool false) (c :: r)
      else if isc c "n" then scan_literal "null" Null (c :: r)
      else SyntaxError
    end
  end

(** The elements of an array from the start of one of them; [acc] holds
    the elements read so far, last first. *)
with parse_elements (fuel : nat) (depth : N) (acc : list value)
    (s : gostring) : res (value * gostring) :=
  match fuel with
  | O => OutOfFuel
  | S fuel =>
    match parse_value fuel depth s with
    | Ok (v, r) =>
      match skip_space r with
      | c :: r' =>
        if isc c "," then parse_elements fuel depth (v :: acc) r'
        else if isc c "]" then Ok (Array (rev (v :: acc)), r')
        else SyntaxError
      | [] => SyntaxError
      end
    | SyntaxError => SyntaxError
    | OutOfFuel => OutOfFuel
    end
  end

(** The members of an object from the start of a key. *)
with parse_members (fuel : nat) (depth : N)
    (acc : list (gostring * value)) (s : gostring)
  : res (value * gostring) :=
  match fuel with
  | O => OutOfFuel
  | S fuel =>
    match skip_space s with
    | c :: r =>
      if Ascii.eqb c quote then
        match string_value r with
        | Ok (key, r1) =>
          match skip_space r1 with
          | c1 :: r2 =>
            if isc c1 ":" then
              match parse_value fuel depth r2 with
              | Ok (v, r3) =>
                match skip_space r3 with
                | c3 :: r4 =>
                  if isc c3 "," then parse_members fuel depth ((key, v) :: acc) r4
                  else if isc c3 "}" then Ok (Object (rev ((key, v) :: acc)), r4)
                  else SyntaxError
                | [] => SyntaxError
                end
              | SyntaxError => SyntaxError
              | OutOfFuel => OutOfFuel
              end
            else SyntaxError
          | [] => SyntaxError
          end
        | SyntaxError => SyntaxError
        | OutOfFuel => OutOfFuel
        end
      else SyntaxError
    | [] => SyntaxError
    end
  end.

(** [checkValid] and the structure of the text: one value, with only
    white space around it.  No call chain is longer than twice the
    text, see [parse_never_out_of_fuel]. *)
Definition parse (data : gostring) : res value :=
  match parse_value (2 * length data + 1) 0 data with
  | Ok (v, r) =>
    match skip_space r with
    | [] => Ok v
    | _ :: _ => SyntaxError
    end
  | SyntaxError => SyntaxError
  | OutOfFuel => OutOfFuel
  end.

(** *** Field names *)

(** [foldRune] on the runes outside ASCII whose case orbit reaches
    ASCII: the long s and the Kelvin sign.  Every other rune outside
    ASCII folds to a rune outside ASCII, [None] here. *)
Definition foldRune_ascii (r : N) : option N :=
  if (r =? 0x17F)%N then Some 0x53%N
  else if (r =? 0x212A)%N then Some 0x4B%N
  else None.

Definition upper (c : ascii) : ascii :=
  let n := byte_val c in
  if ((0x61 <=? n) && (n <=? 0x7A))%N then byte_of (n - 0x20) else c.

(** [foldName], as far as a name of ASCII letters can equal it: [None]
    when the name has a rune that folds outside ASCII. *)
Fixpoint foldName_go (skip : nat) (s : gostring) : option gostring :=
  match s with
  | [] => Some []
  | c :: r =>
    match skip with
    | S k => foldName_go k r
    | O =>
      if (byte_val c <? utf8.RuneSelf)%N
      then (upper c ::.) <$> foldName_go 0 r
      else
        let '(rn, n) := utf8.DecodeRune s in
        match foldRune_ascii rn with
        | Some a => (byte_of a ::.) <$> foldName_go (n - 1) r
        | None => None
        end
    end
  end.

Definition foldName (s : gostring) : option gostring := foldName_go 0 s.

Definition equalFold (key name : gostring) : bool :=
  match foldName key, foldName name with
  | Some a, Some b => bytes_eqb a b
  | _, _ => false
  end.

(** The field of a struct for a key of the text: the field of that
    exact name, else the first field whose name folds to the same. *)
Definition field_for {F : Type} (fields : list (gostring * F))
    (key : gostring) : option F :=
  match list_find (λ f, bytes_eqb key f.1 = true) fields with
  | Some (_, (_, f)) => Some f
  | None =>
    match list_find (λ f, equalFold key f.1 = true) fields with
    | Some (_, (_, f)) => Some f
    | None => None
    end
  end.

(** *** Errors *)

Inductive error :=
| SyntaxErr
| UnmarshalTypeError (Value : string) (Type_ : string).

(** [saveError]: the first error is kept. *)
Definition saveError (saved : option error) (e : error) : option error :=
  match saved with
  | Some _ => saved
  | None => Some e
  end.

(** The [Value] of an [UnmarshalTypeError] for a JSON value. *)
Definition kind_name (v : value) : string :=
  match v with
  | Null => "null"
  | Bool _ => "bool"
  | Number _ => "number"
  | String _ => "string"
  | Array _ => "array"
  | Object _ => "object"
  end.

End json.

(** ** The types of the response *)

Record TranslationItem := mkItem {
  ID : gostring;           (* `json:"id"` *)
  Original : gostring;     (* `json:"text"` *)
  Translation : gostring;  (* `json:"translation,omitempty"` *)
}.

Definition zeroItem : TranslationItem := mkItem [] [] [].

(** A value of type [[]TranslationItem]: [elems] is [None] for the nil
    slice; [stale] holds the slots of the backing array between the
    length and the capacity that are not zero. *)
Record ItemSlice := mkSlice {
  elems : option (list TranslationItem);
  stale : list TranslationItem;
}.

Definition nilSlice : ItemSlice := mkSlice None [].

Record GeminiResponse := mkResponse {
  Results : ItemSlice;     (* `json:"results"` *)
}.

Definition zeroResponse : GeminiResponse := mkResponse nilSlice.

Inductive ItemField := F_ID | F_Original | F_Translation.

Definition item_fields : list (gostring * ItemField) :=
  [(str "id", F_ID); (str "text", F_Original); (str "translation", F_Translation)].

Inductive ResponseField := F_Results.

Definition response_fields : list (gostring * ResponseField) :=
  [(str "results", F_Results)].

(** ** [json.Unmarshal] into a [GeminiResponse] *)

Module decode.
Import json.

(** [literalStore] into a string: a string is stored, [null] leaves the
    string as it is, everything else is a type error. *)
Definition into_string (v : value) (cur : gostring) (saved : option error)
  : gostring * option error :=
  match v with
  | String s => (s, saved)
  | Null => (cur, saved)
  | _ => (cur, saveError saved (UnmarshalTypeError (kind_name v) "string"))
  end.

Definition into_item_field (cur : TranslationItem) (f : ItemField)
    (v : value) (saved : option error) : TranslationItem * option error :=
  match f with
  | F_ID =>
    let '(s, e) := into_string v (ID cur) saved in
    (mkItem s (Original cur) (Translation cur), e)
  | F_Original =>
    let '(s, e) := into_string v (Original cur) saved in
    (mkItem (ID cur) s (Translation cur), e)
  | F_Translation =>
    let '(s, e) := into_string v (Translation cur) saved in
    (mkItem (ID cur) (Original cur) s, e)
  end.

(** [object] into a [TranslationItem]: the members in order, each into
    the field of its key; a key with no field is skipped. *)
Definition into_item (v : value) (cur : TranslationItem)
    (saved : option error) : TranslationItem * option error :=
  match v with
  | Object members =>
    fold_left (λ '(cur, saved) '(key, v),
               match field_for item_fields key with
               | Some f => into_item_field cur f v saved
               | None => (cur, saved)
               end) members (cur, saved)
  | Null => (cur, saved)
  | _ => (cur, saveError saved
                 (UnmarshalTypeError (kind_name v) "main.TranslationItem"))
  end.

(** The loop of [array]: element [i] of the text is decoded into slot
    [i] of the backing array, a zero slot where the array ends. *)
Fixpoint into_slots (vs : list value) (backing : list TranslationItem)
    (saved : option error)
  : list TranslationItem * list TranslationItem * option error :=
  match vs with
  | [] => ([], backing, saved)
  | v :: vs =>
    let '(it, saved) := into_item v (hd zeroItem backing) saved in
    let '(its, rest, saved) := into_slots vs (tl backing) saved in
    (it :: its, rest, saved)
  end.

(** [array] and [literalStore] into a [[]TranslationItem]. *)
Definition into_slice (v : value) (cur : ItemSlice) (saved : option error)
  : ItemSlice * option error :=
  match v with
  | Array [] => (mkSlice (Some []) [], saved)
  | Array vs =>
    let '(its, rest, saved) :=
      into_slots vs (default [] (elems cur) ++ stale cur) saved in
    (mkSlice (Some its) rest, saved)
  | Null => (nilSlice, saved)
  | _ => (cur, saveError saved
                 (UnmarshalTypeError (kind_name v) "[]main.TranslationItem"))
  end.

Definition into_response (v : value) (cur : GeminiResponse)
    (saved : option error) : GeminiResponse * option error :=
  match v with
  | Object members =>
    fold_left (λ '(cur, saved) '(key, v),
               match field_for response_fields key with
               | Some F_Results =>
                 let '(sl, e) := into_slice v (Results cur) saved in
                 (mkResponse sl, e)
               | None => (cur, saved)
               end) members (cur, saved)
  | Null => (cur, saved)
  | _ => (cur, saveError saved
                 (UnmarshalTypeError (kind_name v) "main.GeminiResponse"))
  end.

(** [json.Unmarshal(data, &v)]: the text is checked as a whole first,
    then decoded; the error returned is the first one saved. *)
Definition Unmarshal (data : gostring) (v : GeminiResponse)
  : GeminiResponse * option error :=
  match parse data with
  | Ok j => into_response j v None
  | _ => (v, Some SyntaxErr)
  end.

End decode.

(** ** The extractor *)

Inductive outcome (A : Type) :=
| Returned (a : A)
| Failed (msg : string) (detail : gostring)
| Panicked.
Arguments Returned {A} a.
Arguments Failed {A} msg detail.
Arguments Panicked {A}.

(** The messages of the errors that [translateWithGemini] makes. *)
Definition msg_invalid_format : string := "invalid response format".
Definition msg_no_candidates : string := "no candidates in response".
Definition msg_unparseable : string := "Не удалось распарсить ответ от gemini".

(** The end of [translateWithGemini], from the text of the model's answer:
    the text is cleaned, decoded into a [GeminiResponse], and its
    [Results] are returned ([None] is the nil slice). *)
Definition extractResults (actualJSON : gostring)
  : outcome (option (list TranslationItem)) :=
  let cleanJSON := sanitizeJSON actualJSON in
  let '(finalResp, err) := decode.Unmarshal cleanJSON zeroResponse in
  match err with
  | Some _ => Failed msg_unparseable cleanJSON
  | None => Returned (elems (Results finalResp))
  end.

(** ** [json.Marshal] of a [GeminiResponse] *)

Module encode.

Definition hex (n : N) : ascii :=
  nth (N.to_nat n) (str "0123456789abcdef") zero.

(** The table [htmlSafeSet]: the ASCII bytes written as they are. *)
Definition htmlSafe (b : ascii) : bool :=
  let n := byte_val b in
  ((0x20 <=? n) && (n <? 0x80) &&
   negb ((n =? 0x22) || (n =? 0x5C) || (n =? 0x3C) || (n =? 0x3E) ||
         (n =? 0x26)))%N.

(** The escape of an ASCII byte outside [htmlSafeSet]. *)
Definition escape (b : ascii) : gostring :=
  let n := byte_val b in
  if ((n =? 0x5C) || (n =? 0x22))%N then [json.backslash; b]
  else if (n =? 0x08)%N then json.backslash :: str "b"
  else if (n =? 0x0C)%N then json.backslash :: str "f"
  else if (n =? 0x0A)%N then json.backslash :: str "n"
  else if (n =? 0x0D)%N then json.backslash :: str "r"
  else if (n =? 0x09)%N then json.backslash :: str "t"
  else json.backslash :: str "u00" ++ [hex (N.shiftr n 4); hex (N.land n 0xF)].

(** The loop of [appendString] with [escapeHTML] set.  [skip] counts
    the bytes still to drop of a rune already written. *)
Fixpoint appendString_go (skip : nat) (src : gostring) : gostring :=
  match src with
  | [] => []
  | b :: r =>
    match skip with
    | S k => appendString_go k r
    | O =>
      if (byte_val b <? utf8.RuneSelf)%N then
        (if htmlSafe b then [b] else escape b) ++ appendString_go 0 r
      else
        let '(c, size) := utf8.DecodeRune src in
        if (c =? utf8.RuneError)%N && (size =? 1)%nat then
          json.backslash :: str "ufffd" ++ appendString_go 0 r
        else if ((c =? 0x2028) || (c =? 0x2029))%N then
          json.backslash :: str "u202" ++ [hex (N.land c 0xF)] ++
          appendString_go (size - 1) r
        else take size src ++ appendString_go (size - 1) r
    end
  end.

Definition appendString (src : gostring) : gostring :=
  json.quote :: appendString_go 0 src ++ [json.quote].

Definition key (name : string) : gostring := dq ++ str name ++ dq ++ str ":".

(** A [TranslationItem]: [translation] is left out when it is empty. *)
Definition item (it : TranslationItem) : gostring :=
  str "{" ++ key "id" ++ appendString (ID it) ++
  str "," ++ key "text" ++ appendString (Original it) ++
  (if bool_decide (Translation it = [])
   then []
   else str "," ++ key "translation" ++ appendString (Translation it)) ++
  str "}".

(** A [[]TranslationItem]: [null] for the nil slice. *)
Definition items (l : option (list TranslationItem)) : gostring :=
  match l with
  | None => str "null"
  | Some its => str "[" ++ strings.Join (map item its) (str ",") ++ str "]"
  end.

(** [json.Marshal(GeminiResponse{Results: l})]. *)
Definition Marshal (l : option (list TranslationItem)) : gostring :=
  str "{" ++ key "results" ++ items l ++ str "}".

End encode.

(** ** The envelope of the remote response *)

(** A value of type [interface{}] as [json.Unmarshal] makes it.  A
    number is held as its literal: the program asserts maps, slices and a
    string only, and a number is none of them. *)
Inductive any :=
| ANil
| ABool (b : bool)
| AFloat64 (lit : gostring)
| AString (s : gostring)
| ASlice (l : list any)
| AMap (m : gmap gostring any).

(** [valueInterface]: of the members of an object with the same key, the
    last one stays in the map. *)
Fixpoint toAny (v : json.value) : any :=
  match v with
  | json.Null => ANil
  | json.Bool b => ABool b
  | json.Number lit => AFloat64 lit
  | json.String s => AString s
  | json.Array vs => ASlice (map toAny vs)
  | json.Object members =>
    AMap ((fix go (ms : list (gostring * json.value)) (m : gmap gostring any) :=
             match ms with
             | [] => m
             | (k, v) :: ms => go ms (<[k := toAny v]> m)
             end) members ∅)
  end.

(** [json.Unmarshal(body, &rawMap)] with [rawMap] a nil
    [map[string]interface{}]; the program drops the error, and a nil map
    reads as the empty one. *)
Definition Unmarshal_rawMap (body : gostring) : gmap gostring any :=
  match json.parse body with
  | json.Ok (json.Object members) =>
    match toAny (json.Object members) with
    | AMap m => m
    | _ => ∅
    end
  | _ => ∅
  end.

(** [translateWithGemini], lines 534 to 541: the text of the first part
    of the first candidate.  A type assertion without [ok] panics when
    the value has another type, and so does the index into an empty
    slice. *)
Definition unwrapEnvelope (body : gostring) (rawMap : gmap gostring any)
  : outcome gostring :=
  match rawMap !! str "candidates" with
  | Some (ASlice candidates) =>
    match candidates with
    | [] => Failed msg_no_candidates body
    | candidate0 :: _ =>
      match candidate0 with
      | AMap candidate =>
        match candidate !! str "content" with
        | Some (AMap content) =>
          match content !! str "parts" with
          | Some (ASlice parts) =>
            match parts with
            | [] => Panicked
            | AMap part0 :: _ =>
              match part0 !! str "text" with
              | Some (AString actualJSON) => Returned actualJSON
              | _ => Panicked
              end
            | _ :: _ => Panicked
            end
          | _ => Panicked
          end
        | _ => Panicked
        end
      | _ => Panicked
      end
    end
  | _ => Failed msg_no_candidates body
  end.

(** [translateWithGemini] from the body of the HTTP response on. *)
Definition translateWithGemini_body (body : gostring)
  : outcome (option (list TranslationItem)) :=
  let start := strings.Index body (str "{") in
  let end_ := strings.LastIndex body (str "}") in
  if (start =? -1) || (end_ =? -1) then Failed msg_invalid_format []
  else
    match unwrapEnvelope body (Unmarshal_rawMap body) with
    | Returned actualJSON => extractResults actualJSON
    | Failed msg detail => Failed msg detail
    | Panicked => Panicked
    end.

(** ** The work-list store *)

(** The files of the program: the content of every path that can be
    read.  Writing is taken to succeed. *)
Definition ReadFile (fs : gmap gostring gostring) (path : gostring)
  : option gostring := fs !! path.

Definition WriteFile (fs : gmap gostring gostring) (path data : gostring)
  : gmap gostring gostring := <[path := data]> fs.

(** The loop of [removeURLFromFile] over the lines. *)
Definition keep_lines (lines : list gostring) (urlToRemove : gostring)
  : list gostring :=
  fold_left (λ newLines line,
             let line := strings.TrimSpace line in
             if negb (bytes_eqb line []) && negb (bytes_eqb line urlToRemove)
             then newLines ++ [line]
             else newLines) lines [].

(** [removeURLFromFile], run under [fileMutex]: the files afterwards, and
    whether it returned an error. *)
Definition removeURLFromFile (fs : gmap gostring gostring)
    (filePath urlToRemove : gostring) : gmap gostring gostring * bool :=
  match ReadFile fs filePath with
  | None => (fs, true)
  | Some data =>
    let lines := strings.Split data nl in
    let newLines := keep_lines lines urlToRemove in
    (WriteFile fs filePath (strings.Join newLines nl ++ nl), false)
  end.

(** The test of [readProjects] on a trimmed line: blank lines and lines
    that start with [#] are not projects. *)
Definition is_project (line : gostring) : bool :=
  negb (bytes_eqb line []) && negb (strings.HasPrefix line (str "#")).

(** ** The collector *)

(** What [scrollAndCollect] reads of one rendered row. *)
Record Row := mkRow {
  data_id : gostring;          (* GetAttribute("data-id"); empty when missing *)
  empty_count : Z;             (* targetCell.Locator(".empty").Count() *)
  cell_text : gostring;        (* targetCell.InnerText() *)
  highlight : option gostring; (* the highlighted span; None on an error *)
  base_text : gostring;        (* the text of the whole source cell *)
}.

(** The state of the loop.  [totalScrolled] is a [float64] in the
    source; it only ever holds multiples of the scroll step, which are
    exact. *)
Record Collector := mkCollector {
  results : list TranslationItem;
  seen : gmap gostring bool;
  noNewElementsCount : Z;
  totalScrolled : Z;
}.

Definition maxNoNewRetries : Z := 5.
Definition scrollStep : Z := 800.

(** [seen[id]]: false for an id that is not in the map. *)
Definition seen_at (seen : gmap gostring bool) (id : gostring) : bool :=
  default false (seen !! id).

(** The source text of an empty row. *)
Definition original_text (row : Row) : gostring :=
  match highlight row with
  | Some t => if bytes_eqb t [] then base_text row else t
  | None => base_text row
  end.

(** The body of the loop over the rows, on the results, the map [seen]
    and the counter [newAddedThisStep] (the counter
    [foundEmptyInThisStep] is written and never read). *)
Definition visit_row (st : list TranslationItem * gmap gostring bool * Z)
    (row : Row) : list TranslationItem * gmap gostring bool * Z :=
  let '(results, seen, newAddedThisStep) := st in
  let id := data_id row in
  if bytes_eqb id [] || seen_at seen id then st
  else
    let seen := <[id := true]> seen in
    let newAddedThisStep := newAddedThisStep + 1 in
    let cellText := cell_text row in
    if (0 <? empty_count row) ||
       bytes_eqb (strings.TrimSpace cellText) [] ||
       bytes_eqb (strings.TrimSpace cellText) (str "Empty")
    then
      (results ++ [mkItem id (strings.TrimSpace (original_text row)) []],
       seen, newAddedThisStep)
    else (results, seen, newAddedThisStep).

(** One pass of the outer loop over a snapshot of the rows. *)
Definition pass (rows : list Row) (st : Collector) : Collector :=
  let '(results, seen, newAddedThisStep) :=
    fold_left visit_row rows (results st, seen st, 0) in
  mkCollector results seen
    (if 0 <? newAddedThisStep then 0 else noNewElementsCount st + 1)
    (totalScrolled st + scrollStep).

(** The outer loop.  [page n] is what the [n]-th query of the rendered
    rows gives, [None] for an error; the result is the state at the end
    and the number of passes made, [None] when [fuel] passes were not
    enough. *)
Fixpoint collect_loop (fuel : nat) (page : nat → option (list Row))
    (n : nat) (st : Collector) : option (Collector * nat) :=
  if noNewElementsCount st <? maxNoNewRetries then
    match page n with
    | None => Some (st, n)
    | Some rows =>
      match fuel with
      | O => None
      | S fuel => collect_loop fuel page (S n) (pass rows st)
      end
    end
  else Some (st, n).

Definition newCollector : Collector := mkCollector [] ∅ 0 0.

(** [scrollAndCollect]: the Batch; the error returned is always nil. *)
Definition scrollAndCollect (fuel : nat) (page : nat → option (list Row))
  : option (list TranslationItem) :=
  match collect_loop fuel page 0 newCollector with
  | Some (st, _) => Some (results st)
  | None => None
  end.

(** ** Inputs used in the examples *)

(** The inputs of the specification: the object with one result, in a
    fence, in prose, and the text with no closing brace. *)
Definition results_5x : gostring :=
  str "{" ++ dq ++ str "results" ++ dq ++ str ":[{" ++
  dq ++ str "id" ++ dq ++ str ":" ++ dq ++ str "5" ++ dq ++ str "," ++
  dq ++ str "translation" ++ dq ++ str ":" ++ dq ++ str "x" ++ dq ++ str "}]}".

Definition fenced_input : gostring :=
  str "```json" ++ nl ++ results_5x ++ nl ++ str "```".

Definition unfenced_input : gostring :=
  str "prefix text " ++ results_5x ++ str " trailing".

Definition unbalanced_input : gostring :=
  str "{" ++ dq ++ str "results" ++ dq ++ str ": [".


Definition fenced_unbalanced_input : gostring :=
  str "```json" ++ nl ++ unbalanced_input ++ nl ++ str "```".

Definition item_5x : TranslationItem := mkItem (str "5") [] (str "x").

(** An envelope with one candidate that has no content, and the body of
    the response that decodes to it. *)
Definition envelope_without_content : gmap gostring any :=
  {[ str "candidates" := ASlice [AMap ∅] ]}.

Definition body_without_content : gostring :=
  str "{" ++ dq ++ str "candidates" ++ dq ++ str ":[{}]}".

(** A page that shows the same empty row twice in every snapshot. *)
Definition same_row_page (n : nat) : option (list Row) :=
  Some [mkRow (str "7") 1 [] (Some (str "hello")) [];
        mkRow (str "7") 1 [] (Some (str "hello")) []].

(** The Batches collected from these pages. *)
Definition item_7_hello : TranslationItem := mkItem (str "7") (str "hello") [].
Definition item_8_kept : TranslationItem := mkItem (str "8") (str "kept") [].

(** A page whose first row has no id. *)
Definition no_id_page (n : nat) : option (list Row) :=
  Some [mkRow [] 1 [] None (str "lost"); mkRow (str "8") 1 [] None (str " kept ")].

Definition projects_path : gostring := str "projects.txt".

(** A file with a line in spaces, a blank line and the unit twice. *)
Definition two_units_file : gostring :=
  str "  a  " ++ nl ++ nl ++ str "b" ++ nl ++ str " a" ++ nl ++ str "c" ++ nl.

(** A file with a comment, the unit, and another unit twice; what
    [removeURLFromFile] leaves of it, and what the rewrite worded by the
    specification would leave. *)
Definition commented_file : gostring :=
  str "# note" ++ nl ++ str "a" ++ nl ++ str "b" ++ nl ++ str "b" ++ nl.

Definition commented_file_after : gostring :=
  str "# note" ++ nl ++ str "b" ++ nl ++ str "b" ++ nl.

Definition commented_file_per_spec : gostring := str "b" ++ nl.

(** The units of the examples. *)
Definition unit_a : gostring := str "a".
Definition unit_b : gostring := str "b".
Definition unit_c : gostring := str "c".

(** ** The words of the specification, to compare the program with *)

(** The rewrite of the work list as the specification words it: of the
    trimmed lines, the ones that are not blank, not a comment and not the
    unit, each once, one per line. *)
Definition rewrite_per_spec (data unit : gostring) : gostring :=
  strings.Join
    (remove_dups
       (filter (λ l, is_project l = true ∧ l ≠ unit)
               (strings.TrimSpace <$> strings.Split data nl))) nl ++ nl.



(** ** What the decoder accepts *)





(** ** The invariant of the collector *)

(** What holds of the results and of [seen] all along the loop: every
    collected id is marked seen, no id is collected twice, and the empty
    id is never marked. *)
Definition collector_inv (results : list TranslationItem)
    (seen : gmap gostring bool) : Prop :=
  NoDup (ID <$> results) ∧
  (∀ it, it ∈ results → seen !! ID it = Some true) ∧
  seen !! [] = None.

(** The pages that give nothing new from the [n]-th query on: every row
    of every snapshot is without id or has an id that is seen already. *)
Definition nothing_new_from (page : nat → option (list Row)) (n : nat)
    (seen : gmap gostring bool) : Prop :=
  ∀ m rows, (n ≤ m)%nat → page m = Some rows →
    ∀ row, row ∈ rows → data_id row = [] ∨ seen_at seen (data_id row) = true.

(** ** Valid UTF-8 *)

(** A Unicode scalar value: no surrogate, at most [MaxRune]. *)
Definition scalar (r : N) : Prop :=
  (r ≤ 0x10FFFF)%N ∧ ¬ (0xD800 ≤ r ≤ 0xDFFF)%N.

(** A string of ASCII bytes and encoded runes. *)
Inductive utf8_valid : gostring → Prop :=
| valid_nil : utf8_valid []
| valid_ascii c s :
    (byte_val c < 0x80)%N → utf8_valid s → utf8_valid (c :: s)
| valid_rune r s :
    (0x80 ≤ r)%N → scalar r → utf8_valid s →
    utf8_valid (utf8.EncodeRune r ++ s).

(** Every string value of a JSON value is valid. *)
Fixpoint value_valid (v : json.value) : Prop :=
  match v with
  | json.String s => utf8_valid s
  | json.Array vs =>
    (fix all (l : list json.value) : Prop :=
       match l with
       | [] => True
       | x :: l => value_valid x ∧ all l
       end) vs
  | json.Object members =>
    (fix all (l : list (gostring * json.value)) : Prop :=
       match l with
       | [] => True
       | (_, x) :: l => value_valid x ∧ all l
       end) members
  | _ => True
  end.

Definition item_valid (it : TranslationItem) : Prop :=
  utf8_valid (ID it) ∧ utf8_valid (Original it) ∧ utf8_valid (Translation it).

Definition slice_valid (sl : ItemSlice) : Prop :=
  Forall item_valid (default [] (elems sl)) ∧ Forall item_valid (stale sl).

(** ** What [Marshal] writes *)

(** What [appendString] writes for an ASCII byte. *)
Definition ascii_chunk (c : ascii) : gostring :=
  if encode.htmlSafe c then [c] else encode.escape c.

(** What it writes for a rune outside ASCII. *)
Definition rune_chunk (r : N) : gostring :=
  if ((r =? 0x2028) || (r =? 0x2029))%N
  then json.backslash :: str "u202" ++ [encode.hex (N.land r 0xF)]
  else utf8.EncodeRune r.

Definition newline : ascii := ascii_of_nat 10.
Definition lbrace : ascii := json.ch "{".
Definition rbrace : ascii := json.ch "}".
Definition lbracket : ascii := json.ch "[".
Definition rbracket : ascii := json.ch "]".
Definition comma : ascii := json.ch ",".
Definition colon : ascii := json.ch ":".

(** The JSON value of the text that [Marshal] writes. *)
Definition item_value (it : TranslationItem) : json.value :=
  json.Object
    ([(str "id", json.String (ID it)); (str "text", json.String (Original it))] ++
     if bool_decide (Translation it = []) then []
     else [(str "translation", json.String (Translation it))]).

Definition items_value (l : option (list TranslationItem)) : json.value :=
  match l with
  | None => json.Null
  | Some its => json.Array (item_value <$> its)
  end.

Definition response_value (l : option (list TranslationItem)) : json.value :=
  json.Object [(str "results", items_value l)].

(** A name that the scanner reads back as it is written. *)
Definition plain_name (name : string) : Prop :=
  ∀ rest, json.string_value (str name ++ json.quote :: rest)
          = json.Ok (str name, rest).

(** ** Trimmed strings *)

(** A string that [TrimSpace] has nothing to take from: its first rune
    and its last rune, as [utf8] decodes them, are not white space. *)
Definition no_lead_space (t : gostring) : Prop :=
  unicode.IsSpace (utf8.DecodeRune t).1 = false.

Definition no_trail_space (t : gostring) : Prop :=
  unicode.IsSpace (utf8.DecodeLastRune t).1 = false.

Definition no_space_around (t : gostring) : Prop :=
  no_lead_space t ∧ no_trail_space t.

(** ** bufio: a [Scanner] with the split function [ScanLines] *)

Module bufio.

Definition MaxScanTokenSize : Z := 64 * 1024.

Definition cr : ascii := ascii_of_nat 13.

(** [dropCR]: the line without the carriage return at its end. *)
Definition dropCR (data : gostring) : gostring :=
  if (0 <? len data) && Ascii.eqb (byte_at data (len data - 1)) cr
  then slice_to data (len data - 1)
  else data.

(** The tokens that [Scan] gives, call after call, until it returns
    false, and whether it stopped on [ErrTooLong].  [ScanLines] ends a
    line at a newline; what stands after the last newline is a line
    when it is not empty.  The scanner holds a line, and the newline
    after it, in a buffer of at most [MaxScanTokenSize] bytes, and
    learns of the end of the file only by a read into a buffer that is
    not full: a line of [MaxScanTokenSize] bytes or more, its newline
    not counted, ends the scan with [ErrTooLong].  [cur] is the line
    being read, reversed. *)
Fixpoint ScanLines_go (cur s : gostring) : list gostring * bool :=
  match s with
  | [] =>
    if bytes_eqb cur [] then ([], false)
    else if MaxScanTokenSize <=? len cur then ([], true)
    else ([dropCR (rev cur)], false)
  | c :: r =>
    if Ascii.eqb c newline then
      if MaxScanTokenSize <=? len cur then ([], true)
      else
        let '(tokens, tooLong) := ScanLines_go [] r in
        (dropCR (rev cur) :: tokens, tooLong)
    else ScanLines_go (c :: cur) r
  end.

End bufio.

(** ** The work list as [main] reads it *)

(** The errors of [readProjects]: the one of [os.Open], and
    [bufio.ErrTooLong] of the scanner. *)
Inductive read_error := OpenError | ErrTooLong.

(** [readProjects]: the lines collected, and [scanner.Err()].  A file
    that can be read can be opened. *)
Definition readProjects (fs : gmap gostring gostring) (path : gostring)
  : list gostring * option read_error :=
  match fs !! path with
  | None => ([], Some OpenError)
  | Some data =>
    let '(texts, tooLong) := bufio.ScanLines_go [] data in
    (fold_left (λ lines text,
                let line := strings.TrimSpace text in
                if is_project line then lines ++ [line] else lines)
               texts [],
     if tooLong then Some ErrTooLong else None)
  end.

(** The end of a worker of [main] (lines 223 to 233), as far as the
    files go: a project that [processProject] returned an error for is
    left in the work list, any other is removed from it (an error of
    the removal is logged and dropped). *)
Definition finish_worker (fs : gmap gostring gostring)
    (inputFile projectURL : gostring) (failed : bool)
  : gmap gostring gostring :=
  if failed then fs else (removeURLFromFile fs inputFile projectURL).1.

(** The workers run side by side, and [fileMutex] lets one of them at
    a time into [removeURLFromFile]: the files at the end are the files
    after the workers' ends one after the other, in the order in which
    they came to it. *)
Definition workers_done (fs : gmap gostring gostring) (inputFile : gostring)
    (done : list (gostring * bool)) : gmap gostring gostring :=
  fold_left (λ fs '(projectURL, failed),
             finish_worker fs inputFile projectURL failed) done fs.

(** The projects that a run is done with. *)
Definition succeeded (done : list (gostring * bool)) : list gostring :=
  fst <$> filter (λ d, d.2 = false) done.


(** The lines of a work list that [removeURLFromFile] has written: they
    are trimmed, they hold no newline and none is empty. *)
Definition normal_lines (kept : list gostring) : Prop :=
  Forall (λ l, strings.TrimSpace l = l ∧ (newline ∉ l) ∧ l ≠ []) kept.


(** ** What the collector takes from the page *)

(** The test of [scrollAndCollect] for a row without translation. *)
Definition row_is_empty (row : Row) : bool :=
  (0 <? empty_count row) ||
  bytes_eqb (strings.TrimSpace (cell_text row)) [] ||
  bytes_eqb (strings.TrimSpace (cell_text row)) (str "Empty").

(** The entry of the Batch made from a row. *)
Definition item_of (row : Row) : TranslationItem :=
  mkItem (data_id row) (strings.TrimSpace (original_text row)) [].

(** The rows that the first [n] queries of the page have shown. *)
Definition shown (page : nat → option (list Row)) (n : nat) (row : Row)
  : Prop :=
  ∃ m rows, (m < n)%nat ∧ page m = Some rows ∧ row ∈ rows.

(** Every id that is marked in [seen] is marked with [true]. *)
Definition all_true (seen : gmap gostring bool) : Prop :=
  map_Forall (λ _ b, b = true) seen.

(** An entry that was made from a row of [Sh] that passed the test. *)
Definition from_rows (Sh : Row → Prop) (it : TranslationItem) : Prop :=
  ∃ row, Sh row ∧ row_is_empty row = true ∧ it = item_of row.

(** Every id that is marked has an entry, or a row of [Sh] with this id
    did not pass the test. *)
Definition accounted (Sh : Row → Prop) (rs : list TranslationItem)
    (sn : gmap gostring bool) : Prop :=
  ∀ id, sn !! id = Some true →
    id ∈ (ID <$> rs) ∨
    ∃ row, Sh row ∧ data_id row = id ∧ row_is_empty row = false.

(** What holds of the collector after [n] passes over [page]. *)
Definition collected (page : nat → option (list Row)) (n : nat)
    (st : Collector) : Prop :=
  all_true (seen st) ∧
  Forall (from_rows (shown page n)) (results st) ∧
  accounted (shown page n) (results st) (seen st) ∧
  ∀ row, shown page n row → data_id row ≠ [] →
         seen st !! data_id row = Some true.

(** The state of [seen] while the page shows ids of [ids] only. *)
Definition within (ids : gset gostring) (sn : gmap gostring bool) : Prop :=
  all_true sn ∧ dom sn ⊆ ids.

(** What is left to do: five passes for every id not seen yet, and the
    passes until the counter of the stalls is five. *)
Definition left_to_do (ids : gset gostring) (st : Collector) : Z :=
  5 * (Z.of_nat (size ids) - Z.of_nat (size (dom (seen st)))) +
  (maxNoNewRetries - noNewElementsCount st).

(** A page that shows one more row in every snapshot, three rows in
    all, the second of them translated. *)
Definition growing_page (n : nat) : option (list Row) :=
  Some (take (S n)
          [mkRow (str "1") 1 [] None (str "one");
           mkRow (str "2") 0 (str "done") None (str "two");
           mkRow (str "3") 0 (str "Empty") (Some (str " three ")) []]).

Definition growing_ids : gset gostring := {[ str "1"; str "2"; str "3" ]}.

(** ** The request to the remote service, and its answers *)

(** What [Marshal] writes for a struct with one field, and for a slice
    with one element. *)
Definition object1 (name : string) (inner : gostring) : gostring :=
  lbrace :: encode.key name ++ inner ++ [rbrace].

Definition array1 (inner : gostring) : gostring :=
  lbracket :: inner ++ [rbracket].

(** [translateWithGemini], lines 482 to 485: the copy of the Batch, the
    nil slice when the Batch is empty. *)
Definition payloadItems (tmap : list TranslationItem)
  : option (list TranslationItem) :=
  match tmap with
  | [] => None
  | _ :: _ => Some tmap
  end.

(** The text of the format string between its two verbs. *)
Definition prompt_frame : gostring :=
  nl ++ nl ++
  str "IMPORTANT: Respond ONLY with a valid JSON object. " ++ nl ++
  str "Do NOT repeat the translation twice in the output string." ++ nl ++
  str "Structure: {" ++ dq ++ str "results" ++ dq ++ str ": [{" ++
  dq ++ str "id" ++ dq ++ str ": " ++ dq ++ str "ID_HERE" ++ dq ++ str ", " ++
  dq ++ str "translation" ++ dq ++ str ": " ++
  dq ++ str "POLISH_TEXT_HERE" ++ dq ++ str "}, ...]}" ++ nl ++ nl ++
  str "Data to translate: ".

(** Lines 488 to 494: the prompt. *)
Definition make_prompt (Prompt : gostring) (tmap : list TranslationItem)
  : gostring :=
  Prompt ++ prompt_frame ++ encode.items (payloadItems tmap).

(** Lines 496 to 506: [json.Marshal(geminiReq)]. *)
Definition jsonPayload (prompt : gostring) : gostring :=
  object1 "contents"
    (array1 (object1 "parts"
       (array1 (object1 "text" (encode.appendString prompt))))).

(** The JSON value of the request. *)
Definition request_value (prompt : gostring) : json.value :=
  json.Object [(str "contents", json.Array [
    json.Object [(str "parts", json.Array [
      json.Object [(str "text", json.String prompt)]])]])].

(** The body of an answer of the remote service, with nothing in it but
    what [translateWithGemini] reads: one candidate, one part, the
    text. *)
Definition envelope_text (actualJSON : gostring) : gostring :=
  object1 "candidates"
    (array1 (object1 "content" (object1 "parts"
       (array1 (object1 "text" (encode.appendString actualJSON)))))).

(** A text that [parse_value] reads as [v], whatever follows it. *)
Definition parses (fuel : nat) (depth : N) (text : gostring)
    (v : json.value) : Prop :=
  ∀ tail, json.parse_value fuel depth (text ++ tail) = json.Ok (v, tail).

(** The members of an object as [valueInterface] stores them. *)
Definition store_members (members : list (gostring * json.value))
    (m : gmap gostring any) : gmap gostring any :=
  fold_left (λ m '(k, v), <[k := toAny v]> m) members m.

(** The body of an answer that reports an error. *)
Definition error_body : gostring :=
  object1 "error" (encode.appendString (str "quota exceeded")).

(** The value that [envelope_text] is parsed to. *)
Definition envelope_value (actualJSON : gostring) : json.value :=
  json.Object [(str "candidates", json.Array [
    json.Object [(str "content", json.Object [(str "parts", json.Array [
      json.Object [(str "text", json.String actualJSON)]])])]])].

(** ** Parts of a text *)

(** [t] stands in [s], in one piece. *)
Definition part_of (t s : gostring) : Prop := ∃ a b, s = a ++ t ++ b.

(** A text with an opening brace somewhere before a closing brace. *)
Definition brace_before_brace (t : gostring) : Prop :=
  ∃ a b c, t = a ++ lbrace :: b ++ rbrace :: c.

(** An answer in a fence, with words around the object, and what is
    taken from it. *)
Definition chatty_input : gostring :=
  str "```json" ++ nl ++ str "Here you are: " ++ results_5x ++
  str " (1 item)" ++ nl ++ str "```".

(** ** The filler: [fillTranslations] *)

(** The fields of [Config] that [fillTranslations] reads, a
    [time.Duration] as its nanoseconds. *)
Record Config := mkConfig {
  EditorLoadDelay : Z;
  BeforeSaveDelay : Z;
  RowNextDelay : Z;
}.

Definition Millisecond : Z := 1000000.

(** The calls that [fillTranslations] makes, on the page and on the
    clock: [row.ScrollIntoViewIfNeeded()] and
    [row.Locator("text=Empty").Click()] on the row of a selector,
    [page.Keyboard().Type], [saveBtn.Click()],
    [page.IsVisible(editorSelector)] and [time.Sleep]. *)
Inductive call :=
| ScrollIntoViewIfNeeded (selector : gostring)
| ClickEmpty (selector : gostring)
| KeyboardType (text : gostring)
| ClickSave
| IsVisible
| Sleep (d : Z).

(** The page, by what it answers to the last call of a history of
    calls: the error or none, and for [IsVisible] whether the editor is
    visible (false with an error, which the program drops). *)
Record Page := mkPage {
  error_of : list call → option gostring;
  visible : list call → bool;
}.

(** [fmt.Sprintf(".row-key[data-id='%s']", item.ID)]. *)
Definition row_selector (id : gostring) : gostring :=
  str ".row-key[data-id='" ++ id ++ str "']".

(** The loop [for j := 0; j < 10; j++] that waits for the editor to
    close; [turns] is what is left of the ten turns. *)
Fixpoint wait_editor (page : Page) (turns : nat) (trace : list call)
  : list call :=
  match turns with
  | O => trace
  | S turns =>
    let trace := trace ++ [IsVisible] in
    if visible page trace
    then wait_editor page turns (trace ++ [Sleep (200 * Millisecond)])
    else trace
  end.

(** The body of the loop over the items: the calls made so far, and
    the error returned, if one is. *)
Definition fill_item (page : Page) (config : Config) (trace : list call)
    (item : TranslationItem) : list call * option gostring :=
  let selector := row_selector (ID item) in
  let trace := trace ++ [ScrollIntoViewIfNeeded selector] in
  match error_of page trace with
  | Some err => (trace, Some (str "could not scroll to row: " ++ err))
  | None =>
    let trace := trace ++ [ClickEmpty selector] in
    match error_of page trace with
    | Some err => (trace, Some (str "could not click cell: " ++ err))
    | None =>
      let trace := trace ++ [Sleep (EditorLoadDelay config)] in
      let trace := trace ++ [KeyboardType (Translation item)] in
      match error_of page trace with
      | Some err => (trace, Some (str "could not type translation: " ++ err))
      | None =>
        let trace := trace ++ [Sleep (BeforeSaveDelay config)] in
        let trace := trace ++ [ClickSave] in
        match error_of page trace with
        | Some err => (trace, Some (str "could not click save btn: " ++ err))
        | None =>
          let trace := wait_editor page 10 trace in
          (trace ++ [Sleep (RowNextDelay config)], None)
        end
      end
    end
  end.

(** [fillTranslations], from the calls made before it. *)
Fixpoint fillTranslations (page : Page) (config : Config)
    (items : list TranslationItem) (trace : list call)
  : list call * option gostring :=
  match items with
  | [] => (trace, None)
  | item :: items =>
    match fill_item page config trace item with
    | (trace, None) => fillTranslations page config items trace
    | (trace, Some err) => (trace, Some err)
    end
  end.

(** The texts typed, the rows scrolled to, and the number of times the
    editor was looked for, in a history of calls. *)
Definition typed (trace : list call) : list gostring :=
  omap (λ c, match c with KeyboardType t => Some t | _ => None end) trace.

Definition scrolled (trace : list call) : list gostring :=
  omap (λ c, match c with ScrollIntoViewIfNeeded s => Some s | _ => None end)
       trace.

Definition polls (trace : list call) : nat :=
  length (omap (λ c, match c with IsVisible => Some tt | _ => None end) trace).

(** A page on which every call succeeds and the editor never closes. *)
Definition stuck_page : Page := mkPage (λ _, None) (λ _, true).

Definition no_delays : Config := mkConfig 0 0 0.

Definition three_items : list TranslationItem :=
  [mkItem (str "1") [] (str "x"); mkItem (str "2") [] (str "y");
   mkItem (str "3") [] (str "z")].

(** * Properties *)

(** ** The extractor on the inputs of the specification *)

(** C1: the fenced input and the input with prose around the object are
    both cleaned and decoded with success, to the same list of one result
    with id 5 and translation x. *)
Theorem extract_fenced_and_unfenced :
  extractResults fenced_input = Returned (Some [item_5x]) ∧
  extractResults unfenced_input = Returned (Some [item_5x]).
Proof. split; vm_compute; reflexivity. Qed.

(** C3: on the input with an opening brace and no closing one the
    extractor returns the error; and whenever the cleaned text is not a
    JSON text, it returns the error with the cleaned text in it, and no
    result list, empty or not. *)
Theorem parse_failure_is_an_error :
  extractResults unbalanced_input
    = Failed msg_unparseable unbalanced_input ∧
  ∀ raw : gostring,
    (∀ v, json.parse (sanitizeJSON raw) ≠ json.Ok v) →
    extractResults raw
      = Failed msg_unparseable (sanitizeJSON raw) ∧
    ∀ l, extractResults raw ≠ Returned l.
Proof.
  split; [vm_compute; reflexivity |].
  intros raw Hbad. unfold extractResults, decode.Unmarshal.
  destruct (json.parse (sanitizeJSON raw)) as [v| |] eqn:E.
  - destruct (Hbad v); reflexivity.
  - simpl. split; [reflexivity | discriminate].
  - simpl. split; [reflexivity | discriminate].
Qed.

(** The same text in a fence: the fence is taken off, and what is left is
    not a JSON text. *)
Lemma parse_failure_is_an_error_witness :
  sanitizeJSON fenced_unbalanced_input = unbalanced_input ∧
  extractResults fenced_unbalanced_input
    = Failed msg_unparseable unbalanced_input ∧
  ∀ l, extractResults fenced_unbalanced_input ≠ Returned l.
Proof.
  assert (Hs : sanitizeJSON fenced_unbalanced_input = unbalanced_input)
    by (vm_compute; reflexivity).
  split; [exact Hs |].
  rewrite <- Hs.
  apply (proj2 parse_failure_is_an_error fenced_unbalanced_input).
  intros v. rewrite Hs. vm_compute. discriminate.
Defined.

(** ** The envelope *)

(** C5: on a candidate without content the unwrapping does not return an
    error, it panics; so does the whole of [translateWithGemini] on the
    body that decodes to this envelope. *)
Theorem unwrapEnvelope_panics :
  Unmarshal_rawMap body_without_content = envelope_without_content ∧
  unwrapEnvelope body_without_content envelope_without_content = Panicked ∧
  translateWithGemini_body body_without_content = Panicked.
Proof. repeat split; vm_compute; reflexivity. Qed.

(** ** The collector *)

Lemma bytes_eqb_true (a b : gostring) : bytes_eqb a b = true ↔ a = b.
Proof. unfold bytes_eqb. apply bool_decide_eq_true. Qed.

Lemma bytes_eqb_false (a b : gostring) : bytes_eqb a b = false ↔ a ≠ b.
Proof. unfold bytes_eqb. apply bool_decide_eq_false. Qed.

Lemma seen_at_false_lookup (seen : gmap gostring bool) (id : gostring) :
  seen_at seen id = false → seen !! id ≠ Some true.
Proof. unfold seen_at. intros H E. rewrite E in H. discriminate. Qed.

Lemma visit_row_skips_empty_id st row :
  data_id row = [] → visit_row st row = st.
Proof.
  intros E. destruct st as [[rs sn] k]. unfold visit_row. rewrite E.
  reflexivity.
Qed.

Lemma visit_row_skips_seen rs sn k row :
  seen_at sn (data_id row) = true → visit_row (rs, sn, k) row = (rs, sn, k).
Proof.
  intros E. unfold visit_row. rewrite E, orb_true_r. reflexivity.
Qed.

Lemma visit_row_inv rs sn k row :
  collector_inv rs sn →
  collector_inv (visit_row (rs, sn, k) row).1.1 (visit_row (rs, sn, k) row).1.2.
Proof.
  intros (Hnd & Hseen & Hempty). unfold visit_row.
  destruct (bytes_eqb (data_id row) []) eqn:Eid; simpl.
  { repeat split; assumption. }
  destruct (seen_at sn (data_id row)) eqn:Es; simpl.
  { repeat split; assumption. }
  apply bytes_eqb_false in Eid. apply seen_at_false_lookup in Es.
  assert (Hfresh : data_id row ∉ ID <$> rs).
  { intros Hin. apply list_elem_of_fmap in Hin as (it & Hit & Hin).
    apply Hseen in Hin. rewrite <- Hit in Hin. contradiction. }
  match goal with |- context [if ?c then _ else _] => destruct c end; simpl.
  - repeat split.
    + rewrite fmap_app. simpl. apply NoDup_app. repeat split.
      * assumption.
      * intros x Hx Hx'. apply list_elem_of_singleton in Hx'. subst x.
        contradiction.
      * apply NoDup_singleton.
    + intros it Hit. apply elem_of_app in Hit as [Hit | Hit].
      * destruct (decide (data_id row = ID it)) as [-> | Hne].
        -- apply lookup_insert_eq.
        -- rewrite lookup_insert_ne by assumption. apply Hseen, Hit.
      * apply list_elem_of_singleton in Hit. subst it. simpl.
        apply lookup_insert_eq.
    + rewrite lookup_insert_ne by assumption. assumption.
  - repeat split.
    + assumption.
    + intros it Hit.
      destruct (decide (data_id row = ID it)) as [-> | Hne].
      * apply lookup_insert_eq.
      * rewrite lookup_insert_ne by assumption. apply Hseen, Hit.
    + rewrite lookup_insert_ne by assumption. assumption.
Qed.

Lemma visit_rows_inv rows rs sn k :
  collector_inv rs sn →
  collector_inv (fold_left visit_row rows (rs, sn, k)).1.1
                (fold_left visit_row rows (rs, sn, k)).1.2.
Proof.
  revert rs sn k. induction rows as [| row rows IH]; intros rs sn k Hinv.
  - exact Hinv.
  - cbn [fold_left]. pose proof (visit_row_inv rs sn k row Hinv) as H.
    destruct (visit_row (rs, sn, k) row) as [[rs' sn'] k']. cbn [fst snd] in H.
    apply IH, H.
Qed.

Lemma pass_inv rows st :
  collector_inv (results st) (seen st) →
  collector_inv (results (pass rows st)) (seen (pass rows st)).
Proof.
  intros Hinv. unfold pass.
  pose proof (visit_rows_inv rows (results st) (seen st) 0 Hinv) as H.
  destruct (fold_left visit_row rows (results st, seen st, 0))
    as [[rs' sn'] k']. exact H.
Qed.

Lemma collect_loop_inv fuel page n st st' n' :
  collector_inv (results st) (seen st) →
  collect_loop fuel page n st = Some (st', n') →
  collector_inv (results st') (seen st').
Proof.
  revert n st. induction fuel as [| fuel IH]; intros n st Hinv; simpl.
  - destruct (noNewElementsCount st <? maxNoNewRetries);
      [destruct (page n) |]; intros [= <- <-] || intros [=]; assumption.
  - destruct (noNewElementsCount st <? maxNoNewRetries).
    + destruct (page n) as [rows |].
      * apply IH, pass_inv, Hinv.
      * intros [= <- <-]. assumption.
    + intros [= <- <-]. assumption.
Qed.

Lemma newCollector_inv : collector_inv (results newCollector) (seen newCollector).
Proof.
  repeat split; simpl.
  - apply NoDup_nil_2.
  - intros it Hit. apply elem_of_nil in Hit. contradiction.
Qed.

(** A pass over rows that are all without id or already seen changes
    neither the results nor [seen], and counts as a stall. *)
Lemma visit_rows_stall rows rs sn k :
  (∀ row, row ∈ rows → data_id row = [] ∨ seen_at sn (data_id row) = true) →
  fold_left visit_row rows (rs, sn, k) = (rs, sn, k).
Proof.
  induction rows as [| row rows IH]; intros H; cbn [fold_left].
  - reflexivity.
  - destruct (H row) as [E | E]; [left |..].
    + rewrite (visit_row_skips_empty_id _ _ E). apply IH.
      intros r Hr. apply H. right. exact Hr.
    + rewrite (visit_row_skips_seen _ _ _ _ E). apply IH.
      intros r Hr. apply H. right. exact Hr.
Qed.

Lemma pass_stall rows st :
  (∀ row, row ∈ rows →
          data_id row = [] ∨ seen_at (seen st) (data_id row) = true) →
  pass rows st =
  mkCollector (results st) (seen st) (noNewElementsCount st + 1)
              (totalScrolled st + scrollStep).
Proof.
  intros H. unfold pass. rewrite (visit_rows_stall _ _ _ _ H). reflexivity.
Qed.

(** C6: when the pages give no id that is not seen yet, the loop stops
    with the results it had, after the passes that bring the stall
    counter to 5, exactly 5 of them from a counter of 0: [fuel] passes
    are enough as soon as [fuel] is that number.  A query of the rows
    that fails ends the loop before that, with the same results.  From
    the start that is 5 passes and the empty Batch. *)
Theorem stalled_collector_stops (page : nat → option (list Row)) (n : nat)
    (st : Collector) (fuel : nat) :
  0 ≤ noNewElementsCount st ≤ maxNoNewRetries →
  nothing_new_from page n (seen st) →
  (Z.to_nat (maxNoNewRetries - noNewElementsCount st) ≤ fuel)%nat →
  let k := Z.to_nat (maxNoNewRetries - noNewElementsCount st) in
  ((∀ m, (n ≤ m < n + k)%nat → is_Some (page m)) →
   collect_loop fuel page n st =
   Some (mkCollector (results st) (seen st) maxNoNewRetries
                     (totalScrolled st + scrollStep * Z.of_nat k),
         (n + k)%nat)) ∧
  ∃ st' n', collect_loop fuel page n st = Some (st', n') ∧
            results st' = results st ∧ seen st' = seen st ∧
            (n ≤ n' ≤ n + k)%nat.
Proof.
  revert n st. unfold maxNoNewRetries.
  induction fuel as [| fuel IH]; intros n st Hc Hpage Hfuel.
  - assert (noNewElementsCount st = 5) as E by lia.
    simpl. rewrite E. simpl. split.
    + intros _. destruct st; simpl in *. subst.
      f_equal. f_equal; [f_equal; unfold scrollStep; lia | lia].
    + exists st, n. repeat split; lia.
  - simpl. destruct (noNewElementsCount st <? maxNoNewRetries) eqn:Elt;
      unfold maxNoNewRetries in Elt.
    + apply Z.ltb_lt in Elt.
      destruct (page n) as [rows |] eqn:Epage.
      * rewrite (pass_stall rows st (Hpage n rows (Nat.le_refl n) Epage)).
        destruct (IH (S n)
                    (mkCollector (results st) (seen st)
                                 (noNewElementsCount st + 1)
                                 (totalScrolled st + scrollStep)))
          as [IH1 (st' & n' & IH2 & Hr & Hs & Hn)]; simpl.
        -- lia.
        -- intros m rs Hm. apply Hpage. lia.
        -- lia.
        -- simpl in *. split.
           ++ intros Hok. rewrite IH1.
              ** f_equal. f_equal; [f_equal; unfold scrollStep; lia | lia].
              ** intros m Hm. apply Hok. lia.
           ++ exists st', n'. repeat split; try assumption; lia.
      * split.
        -- intros Hok. destruct (Hok n) as [rows Hrows]; [lia | congruence].
        -- exists st, n. repeat split; lia.
    + apply Z.ltb_ge in Elt. assert (noNewElementsCount st = 5) as E by lia.
      split.
      * intros _. destruct st; simpl in *. subst.
        f_equal. f_equal; [f_equal; unfold scrollStep; lia | lia].
      * exists st, n. repeat split; lia.
Qed.

(** The page without rows, from the start. *)
Lemma stalled_collector_stops_witness :
  collect_loop 5 (λ _, Some []) 0 newCollector =
  Some (mkCollector [] ∅ 5 4000, 5%nat) ∧
  scrollAndCollect 5 (λ _, Some []) = Some [].
Proof.
  assert (H : collect_loop 5 (λ _, Some []) 0 newCollector =
              Some (mkCollector [] ∅ 5 4000, 5%nat)).
  { apply (stalled_collector_stops (λ _, Some []) 0 newCollector 5).
    - unfold newCollector, maxNoNewRetries. simpl. lia.
    - intros m rows _ [= <-] row Hrow. apply elem_of_nil in Hrow. contradiction.
    - unfold newCollector, maxNoNewRetries. simpl. lia.
    - intros m _. eexists. reflexivity. }
  split; [exact H |].
  unfold scrollAndCollect. rewrite H. reflexivity.
Defined.

(** C7: whatever the snapshots are, and however often they show the same
    row again, no two entries of the Batch that [scrollAndCollect]
    returns have the same id; a row whose id is marked seen changes
    nothing, neither the results nor [seen] nor the counter of the
    pass. *)
Theorem batch_ids_are_unique (fuel : nat) (page : nat → option (list Row))
    (batch : list TranslationItem) :
  scrollAndCollect fuel page = Some batch →
  NoDup (ID <$> batch) ∧
  ∀ rs sn k row, seen_at sn (data_id row) = true →
                 visit_row (rs, sn, k) row = (rs, sn, k).
Proof.
  unfold scrollAndCollect.
  destruct (collect_loop fuel page 0 newCollector) as [[st n] |] eqn:E;
    intros [= <-].
  split.
  - apply (collect_loop_inv _ _ _ _ _ _ newCollector_inv E).
  - apply visit_row_skips_seen.
Qed.

Lemma batch_ids_are_unique_witness :
  scrollAndCollect 6 same_row_page = Some [item_7_hello] ∧
  NoDup (ID <$> [item_7_hello]).
Proof.
  assert (H : scrollAndCollect 6 same_row_page = Some [item_7_hello])
    by (vm_compute; reflexivity).
  split; [exact H |].
  exact (proj1 (batch_ids_are_unique 6 same_row_page _ H)).
Defined.

(** C9: a row without id changes nothing, neither the results nor [seen]
    nor the counter of the pass; so at the end of the loop the empty id
    is not marked seen and every entry of the Batch has an id. *)
Theorem batch_ids_are_not_empty (fuel : nat) (page : nat → option (list Row))
    (st : Collector) (n : nat) :
  collect_loop fuel page 0 newCollector = Some (st, n) →
  Forall (λ it, ID it ≠ []) (results st) ∧
  seen st !! [] = None ∧
  ∀ acc row, data_id row = [] → visit_row acc row = acc.
Proof.
  intros E.
  destruct (collect_loop_inv _ _ _ _ _ _ newCollector_inv E)
    as (_ & Hseen & Hempty).
  repeat split.
  - apply Forall_forall. intros it Hit Hid. apply Hseen in Hit.
    rewrite Hid, Hempty in Hit. discriminate.
  - exact Hempty.
  - intros acc row. apply visit_row_skips_empty_id.
Qed.

Lemma batch_ids_are_not_empty_witness :
  scrollAndCollect 6 no_id_page = Some [item_8_kept] ∧
  ∃ st n, collect_loop 6 no_id_page 0 newCollector = Some (st, n) ∧
          Forall (λ it, ID it ≠ []) (results st) ∧ seen st !! [] = None.
Proof.
  split; [vm_compute; reflexivity |].
  destruct (collect_loop 6 no_id_page 0 newCollector) as [[st n] |] eqn:E.
  - exists st, n. split; [reflexivity |].
    destruct (batch_ids_are_not_empty 6 no_id_page st n E) as (H1 & H2 & _).
    split; assumption.
  - exfalso. vm_compute in E. discriminate.
Defined.

(** ** Facts about [strings] *)

Lemma TrimSpace_start_subseteq s : (strings.TrimSpace_start s).1 ⊆ s.
Proof.
  induction s as [| c r IH]; simpl; [done |].
  destruct (utf8.RuneSelf <=? byte_val c)%N; [done |].
  destruct (strings.asciiSpace c); [| done].
  intros x Hx. right. apply IH, Hx.
Qed.

Lemma TrimSpace_stop_subseteq s : (strings.TrimSpace_stop s).1 ⊆ s.
Proof.
  induction s as [| c r IH]; simpl; [done |].
  destruct (utf8.RuneSelf <=? byte_val c)%N; [done |].
  destruct (strings.asciiSpace c); [| done].
  intros x Hx. right. apply IH, Hx.
Qed.

Lemma TrimLeftFunc_go_subseteq f skip s : strings.TrimLeftFunc_go f skip s ⊆ s.
Proof.
  revert skip. induction s as [| c r IH]; intros skip; [done |].
  cbn [strings.TrimLeftFunc_go]. destruct skip as [| k].
  - destruct (utf8.DecodeRune (c :: r)) as [rn size].
    destruct (f rn); [| done].
    intros x Hx. right. exact (IH _ x Hx).
  - intros x Hx. right. exact (IH _ x Hx).
Qed.

Lemma TrimRightFunc_subseteq s f : strings.TrimRightFunc s f ⊆ s.
Proof. unfold strings.TrimRightFunc, slice_to. apply subseteq_take. Qed.

Lemma elem_of_rev (x : ascii) (l : gostring) : x ∈ rev l ↔ x ∈ l.
Proof. rewrite !list_elem_of_In. symmetry. apply in_rev. Qed.

Lemma rev_subseteq (l : gostring) : rev l ⊆ l.
Proof. intros x. apply elem_of_rev. Qed.

(** A trimmed string has only bytes of the string it comes from. *)
Lemma TrimSpace_subseteq s : strings.TrimSpace s ⊆ s.
Proof.
  unfold strings.TrimSpace.
  pose proof (TrimSpace_start_subseteq s) as H1.
  destruct (strings.TrimSpace_start s) as [s1 na]. simpl in H1.
  destruct na.
  - unfold strings.TrimFunc, strings.TrimLeftFunc.
    etrans; [apply TrimRightFunc_subseteq |].
    etrans; [apply TrimLeftFunc_go_subseteq | exact H1].
  - pose proof (TrimSpace_stop_subseteq (rev s1)) as H2.
    destruct (strings.TrimSpace_stop (rev s1)) as [rs2 na2]. simpl in H2.
    assert (H3 : rev rs2 ⊆ s).
    { etrans; [apply rev_subseteq |]. etrans; [exact H2 |].
      etrans; [apply rev_subseteq | exact H1]. }
    destruct na2; [| exact H3].
    etrans; [apply TrimRightFunc_subseteq | exact H3].
Qed.

Lemma HasPrefix_nil_single c : strings.HasPrefix [] [c] = false.
Proof. reflexivity. Qed.

Lemma HasPrefix_cons_single x r c :
  strings.HasPrefix (x :: r) [c] = bool_decide (x = c).
Proof.
  unfold strings.HasPrefix, len, slice_to, bytes_eqb. simpl length.
  replace (Z.of_nat 1 <=? Z.of_nat (S (length r))) with true
    by (symmetry; apply Z.leb_le; lia).
  simpl. apply bool_decide_ext. split; [intros [= ->] | intros ->]; done.
Qed.

(** Splitting on one byte: a piece ends where the byte stands. *)
Lemma Split_go_no_sep c cur l :
  c ∉ l → strings.Split_go [c] 0 cur l = [rev cur ++ l].
Proof.
  revert cur. induction l as [| x l IH]; intros cur Hc; simpl.
  - rewrite app_nil_r. reflexivity.
  - rewrite HasPrefix_cons_single.
    apply not_elem_of_cons in Hc as [Hx Hl].
    rewrite bool_decide_eq_false_2 by congruence.
    rewrite IH by assumption. simpl. rewrite <- app_assoc. reflexivity.
Qed.

Lemma Split_go_app_sep c cur l rest :
  c ∉ l →
  strings.Split_go [c] 0 cur (l ++ c :: rest)
  = (rev cur ++ l) :: strings.Split_go [c] 0 [] rest.
Proof.
  revert cur. induction l as [| x l IH]; intros cur Hc; simpl.
  - rewrite HasPrefix_cons_single, bool_decide_eq_true_2 by reflexivity.
    rewrite app_nil_r. reflexivity.
  - rewrite HasPrefix_cons_single.
    apply not_elem_of_cons in Hc as [Hx Hl].
    rewrite bool_decide_eq_false_2 by congruence.
    rewrite IH by assumption. simpl. rewrite <- app_assoc. reflexivity.
Qed.

Lemma Split_go_pieces c cur s :
  c ∉ cur → Forall (λ piece, c ∉ piece) (strings.Split_go [c] 0 cur s).
Proof.
  revert cur. induction s as [| x s IH]; intros cur Hc; simpl.
  - constructor; [| constructor].
    intros H. apply Hc. rewrite elem_of_rev in H. exact H.
  - rewrite HasPrefix_cons_single. case_bool_decide as Hx.
    + constructor.
      * intros H. apply Hc. rewrite elem_of_rev in H. exact H.
      * apply IH. apply not_elem_of_nil.
    + apply IH. apply not_elem_of_cons. split; [congruence | assumption].
Qed.

Lemma Split_pieces c s : Forall (λ piece, c ∉ piece) (strings.Split s [c]).
Proof. apply Split_go_pieces, not_elem_of_nil. Qed.

(** Lines joined with a newline after each are split into the same
    lines, and an empty piece after the last newline. *)
Lemma Split_Join c (l : gostring) (ls : list gostring) :
  Forall (λ l, c ∉ l) (l :: ls) →
  strings.Split (strings.Join (l :: ls) [c] ++ [c]) [c] = (l :: ls) ++ [[]].
Proof.
  unfold strings.Split. revert l. induction ls as [| l' ls IH]; intros l Hls.
  - apply Forall_cons in Hls as [Hl _].
    cbn [strings.Join]. rewrite (Split_go_app_sep c [] l []) by assumption.
    reflexivity.
  - apply Forall_cons in Hls as [Hl Hls]. specialize (IH l' Hls).
    replace (strings.Join (l :: l' :: ls) [c] ++ [c])
      with (l ++ c :: (strings.Join (l' :: ls) [c] ++ [c])).
    + rewrite (Split_go_app_sep c [] l) by assumption.
      rewrite IH. reflexivity.
    + cbn [strings.Join]. rewrite <- !app_assoc. reflexivity.
Qed.

Lemma filter_all (P : gostring → Prop) `{∀ x, Decision (P x)}
    (ls : list gostring) :
  Forall P ls → filter P ls = ls.
Proof.
  induction 1 as [| x l Hx Hl IH]; [reflexivity |].
  rewrite filter_cons_True by assumption. rewrite IH. reflexivity.
Qed.

(** The lines of such a text that are not empty. *)
Lemma Split_Join_nonblank c (ls : list gostring) :
  Forall (λ l, c ∉ l) ls → Forall (λ l, l ≠ []) ls →
  filter (λ l, l ≠ []) (strings.Split (strings.Join ls [c] ++ [c]) [c]) = ls.
Proof.
  intros Hc Hne. destruct ls as [| l ls].
  - unfold strings.Split. simpl.
    rewrite HasPrefix_cons_single, bool_decide_eq_true_2 by reflexivity.
    reflexivity.
  - rewrite Split_Join by assumption. rewrite filter_app.
    rewrite (filter_all _ _ Hne). simpl. rewrite app_nil_r. reflexivity.
Qed.

(** ** The work-list store *)

(** The loop of [removeURLFromFile] is a filter of the trimmed lines. *)
Lemma keep_lines_filter lines unit :
  keep_lines lines unit
  = filter (λ l, l ≠ [] ∧ l ≠ unit) (strings.TrimSpace <$> lines).
Proof.
  unfold keep_lines.
  enough (H : ∀ acc,
    fold_left (λ newLines line,
               let line := strings.TrimSpace line in
               if negb (bytes_eqb line []) && negb (bytes_eqb line unit)
               then newLines ++ [line] else newLines) lines acc
    = acc ++ filter (λ l, l ≠ [] ∧ l ≠ unit) (strings.TrimSpace <$> lines))
    by apply (H []).
  induction lines as [| line lines IH]; intros acc; simpl.
  - rewrite app_nil_r. reflexivity.
  - rewrite IH, filter_cons.
    destruct (bytes_eqb (strings.TrimSpace line) []) eqn:E1; simpl.
    { apply bytes_eqb_true in E1. rewrite decide_False by tauto. reflexivity. }
    destruct (bytes_eqb (strings.TrimSpace line) unit) eqn:E2; simpl.
    { apply bytes_eqb_true in E2. rewrite decide_False by tauto. reflexivity. }
    apply bytes_eqb_false in E1, E2. rewrite decide_True by tauto.
    rewrite <- app_assoc. reflexivity.
Qed.

Lemma keep_lines_one_line data unit :
  Forall (λ l, newline ∉ l) (keep_lines (strings.Split data nl) unit).
Proof.
  rewrite keep_lines_filter. apply Forall_forall. intros l Hl.
  apply list_elem_of_filter in Hl as [_ Hl].
  apply list_elem_of_fmap in Hl as (line & -> & Hline).
  pose proof (Split_pieces newline data) as Hp.
  rewrite Forall_forall in Hp. intros H.
  apply (Hp line Hline). apply (TrimSpace_subseteq line), H.
Qed.

(** C10: the lines of the file after [removeURLFromFile] that are not
    blank are the lines before it, trimmed, without the blank ones and
    without those equal to the unit, every occurrence of it, all others
    once each time they stood there and in the order they stood in. *)
Theorem removeURLFromFile_removes_unit (fs : gmap gostring gostring)
    (filePath data unit : gostring) :
  fs !! filePath = Some data →
  ∃ data',
    removeURLFromFile fs filePath unit = (<[filePath := data']> fs, false) ∧
    filter (λ l, l ≠ []) (strings.Split data' nl)
    = filter (λ l, l ≠ [] ∧ l ≠ unit)
             (strings.TrimSpace <$> strings.Split data nl).
Proof.
  intros Hread. unfold removeURLFromFile, ReadFile, WriteFile. rewrite Hread.
  eexists. split; [reflexivity |].
  rewrite <- keep_lines_filter.
  apply (Split_Join_nonblank newline); [apply keep_lines_one_line |].
  rewrite keep_lines_filter. apply Forall_forall. intros l Hl.
  apply list_elem_of_filter in Hl. tauto.
Qed.

Lemma removeURLFromFile_removes_unit_witness :
  ∃ data',
    removeURLFromFile {[ projects_path := two_units_file ]} projects_path unit_a
    = (<[projects_path := data']> {[ projects_path := two_units_file ]}, false) ∧
    filter (λ l, l ≠ []) (strings.Split data' nl) = [unit_b; unit_c].
Proof.
  destruct (removeURLFromFile_removes_unit
              {[ projects_path := two_units_file ]} projects_path
              two_units_file unit_a) as (data' & H1 & H2).
  - apply lookup_singleton_eq.
  - exists data'. split; [exact H1 |]. rewrite H2. vm_compute. reflexivity.
Defined.

(** C4, as stated, fails: the comment line and the second [b] are still
    in the file after the removal of [a]. *)
Lemma removeURLFromFile_keeps_comments_and_duplicates :
  removeURLFromFile {[ projects_path := commented_file ]} projects_path unit_a
  = ({[ projects_path := commented_file_after ]}, false) ∧
  rewrite_per_spec commented_file unit_a = commented_file_per_spec ∧
  commented_file_after ≠ commented_file_per_spec.
Proof.
  split; [| split].
  - unfold removeURLFromFile, ReadFile, WriteFile.
    rewrite lookup_singleton_eq, insert_singleton_eq.
    vm_compute. reflexivity.
  - vm_compute. reflexivity.
  - vm_compute. discriminate.
Qed.

(** C4, amended: after a removal that succeeds the file holds the
    trimmed lines of the file before that are neither blank nor the
    unit, in the order they stood in and each as often as it stood
    there, comments and duplicates among them, joined by newlines and
    followed by one newline (a single newline when no line is left).
    Read back line by line, the file gives these lines again; and every
    line that is not blank and not the unit stands in it as often as
    among the trimmed lines of the file before. *)
Theorem removeURLFromFile_rewrites_file (fs : gmap gostring gostring)
    (filePath data unit : gostring) :
  fs !! filePath = Some data →
  let trimmed := strings.TrimSpace <$> strings.Split data nl in
  let kept := filter (λ l, l ≠ [] ∧ l ≠ unit) trimmed in
  removeURLFromFile fs filePath unit
  = (<[filePath := strings.Join kept nl ++ nl]> fs, false) ∧
  filter (λ l, l ≠ []) (strings.Split (strings.Join kept nl ++ nl) nl)
  = kept ∧
  ∀ l, l ≠ [] → l ≠ unit →
       length (filter (λ x, x = l) kept)
       = length (filter (λ x, x = l) trimmed).
Proof.
  intros Hread trimmed kept. split; [| split].
  - unfold removeURLFromFile, ReadFile, WriteFile. rewrite Hread.
    rewrite keep_lines_filter. reflexivity.
  - apply (Split_Join_nonblank newline).
    + pose proof (keep_lines_one_line data unit) as H.
      rewrite keep_lines_filter in H. exact H.
    + apply Forall_forall. intros l Hl.
      apply list_elem_of_filter in Hl. tauto.
  - intros l Hne Hunit. unfold kept. rewrite list_filter_filter.
    f_equal. apply list_filter_iff. intros x. split; [tauto |].
    intros ->. tauto.
Qed.

Lemma removeURLFromFile_rewrites_file_witness :
  removeURLFromFile {[ projects_path := commented_file ]} projects_path unit_a
  = (<[projects_path := commented_file_after]>
       {[ projects_path := commented_file ]}, false).
Proof.
  destruct (removeURLFromFile_rewrites_file
              {[ projects_path := commented_file ]} projects_path
              commented_file unit_a) as (H & _).
  - apply lookup_singleton_eq.
  - rewrite H. f_equal.
Defined.

(** ** When the extractor fails *)










(** ** The parser always has fuel enough *)

Lemma skip_space_length s : (length (json.skip_space s) ≤ length s)%nat.
Proof.
  induction s as [| c r IH]; simpl; [lia |].
  destruct (json.isSpace c); simpl; lia.
Qed.

Lemma scan_string_go_length st acc s raw r :
  json.scan_string_go st acc s = Some (raw, r) → (length r < length s)%nat.
Proof.
  revert st acc. induction s as [| c s IH]; intros st acc; simpl; [discriminate |].
  destruct st as [| | k].
  - destruct (Ascii.eqb c json.quote); [intros [= <- <-]; lia |].
    destruct (Ascii.eqb c json.backslash); [intros H; apply IH in H; lia |].
    destruct (byte_val c <? 32)%N; [discriminate |].
    intros H; apply IH in H; lia.
  - match goal with |- context [if ?b then _ else _] => destruct b end;
      [intros H; apply IH in H; lia |].
    destruct (json.isc c "u"); [| discriminate].
    intros H; apply IH in H; lia.
  - destruct (json.hexval c); [| discriminate].
    destruct k as [| [| k]]; intros H; apply IH in H; lia.
Qed.

Lemma string_value_length s key r :
  json.string_value s = json.Ok (key, r) → (length r < length s)%nat.
Proof.
  unfold json.string_value, json.scan_string.
  destruct (json.scan_string_go json.InString [] s) as [[raw r'] |] eqn:E;
    [| discriminate].
  destruct (json.unquote raw); [| discriminate].
  intros [= <- <-]. eapply scan_string_go_length, E.
Qed.

Lemma string_value_fuel s : json.string_value s ≠ json.OutOfFuel.
Proof.
  unfold json.string_value.
  destruct (json.scan_string s) as [[raw r'] |]; [| discriminate].
  destruct (json.unquote raw); discriminate.
Qed.

Lemma span_digits_length s : (length (json.span_digits s).2 ≤ length s)%nat.
Proof.
  induction s as [| c s IH]; simpl; [lia |].
  destruct (json.isDigit c); simpl; [| lia].
  destruct (json.span_digits s) as [ds r]. simpl in *. lia.
Qed.

Lemma scan_int_length s i r :
  json.scan_int s = Some (i, r) → (length r < length s)%nat.
Proof.
  destruct s as [| c s]; simpl; [discriminate |].
  destruct (json.isc c "0"); [intros [= <- <-]; lia |].
  destruct (json.isDigit c); [| discriminate].
  pose proof (span_digits_length s) as H.
  destruct (json.span_digits s) as [ds r']. intros [= <- <-]. simpl in H. lia.
Qed.

Lemma scan_frac_length s f r :
  json.scan_frac s = Some (f, r) → (length r ≤ length s)%nat.
Proof.
  destruct s as [| c s]; simpl; [intros [= <- <-]; simpl; lia |].
  destruct (json.isc c "."); [| intros [= <- <-]; simpl; lia].
  pose proof (span_digits_length s) as H.
  destruct (json.span_digits s) as [[| d ds] r']; [discriminate |].
  intros [= <- <-]. simpl in H. lia.
Qed.

Lemma scan_exp_length s e r :
  json.scan_exp s = Some (e, r) → (length r ≤ length s)%nat.
Proof.
  destruct s as [| c s]; simpl; [intros [= <- <-]; simpl; lia |].
  destruct (json.isc c "e" || json.isc c "E"); [| intros [= <- <-]; simpl; lia].
  destruct s as [| c1 r1].
  - simpl. discriminate.
  - destruct (json.isc c1 "+" || json.isc c1 "-").
    + pose proof (span_digits_length r1) as H.
      destruct (json.span_digits r1) as [[| d ds] r']; [discriminate |].
      intros [= <- <-]. simpl in *. lia.
    + pose proof (span_digits_length (c1 :: r1)) as H.
      destruct (json.span_digits (c1 :: r1)) as [[| d ds] r']; [discriminate |].
      intros [= <- <-]. simpl in *. lia.
Qed.

Lemma scan_number_length s lit r :
  json.scan_number s = Some (lit, r) → (length r < length s)%nat.
Proof.
  unfold json.scan_number.
  assert (H : ∀ sign s1, (length s1 ≤ length s)%nat →
    ('(i, s2) ← json.scan_int s1;
     '(f, s3) ← json.scan_frac s2;
     '(e, s4) ← json.scan_exp s3;
     Some (sign ++ i ++ f ++ e, s4)) = Some (lit, r) →
    (length r < length s)%nat).
  { intros sign s1 Hs1.
    destruct (json.scan_int s1) as [[i s2] |] eqn:E1; [| discriminate].
    simpl. destruct (json.scan_frac s2) as [[f s3] |] eqn:E2; [| discriminate].
    simpl. destruct (json.scan_exp s3) as [[e s4] |] eqn:E3; [| discriminate].
    simpl. intros [= <- <-].
    apply scan_int_length in E1. apply scan_frac_length in E2.
    apply scan_exp_length in E3. lia. }
  destruct s as [| c s']; [apply H; simpl; lia |].
  destruct (json.isc c "-"); apply H; simpl; lia.
Qed.

Lemma scan_literal_length lit v s v' r :
  lit ≠ EmptyString →
  json.scan_literal lit v s = json.Ok (v', r) → (length r < length s)%nat.
Proof.
  intros Hlit. unfold json.scan_literal, strings.HasPrefix.
  destruct (len (str lit) <=? len s) eqn:E; [| discriminate].
  destruct (bytes_eqb _ _); [| discriminate]. simpl.
  intros [= <- <-]. unfold slice_from. rewrite length_drop.
  apply Z.leb_le in E. unfold len in *.
  destruct lit; [congruence |]. simpl in *. lia.
Qed.

Lemma scan_literal_fuel lit v s : json.scan_literal lit v s ≠ json.OutOfFuel.
Proof. unfold json.scan_literal. destruct (strings.HasPrefix _ _); discriminate. Qed.

(** With fuel for twice the text, no parser runs out of it, and each
    leaves less text than it was given. *)
Lemma parsers_fuel fuel :
  (∀ depth s, (2 * length s + 1 ≤ fuel)%nat →
     json.parse_value fuel depth s ≠ json.OutOfFuel ∧
     ∀ v r, json.parse_value fuel depth s = json.Ok (v, r) →
            (length r < length s)%nat) ∧
  (∀ depth acc s, (2 * length s + 2 ≤ fuel)%nat →
     json.parse_elements fuel depth acc s ≠ json.OutOfFuel ∧
     ∀ v r, json.parse_elements fuel depth acc s = json.Ok (v, r) →
            (length r < length s)%nat) ∧
  (∀ depth acc s, (2 * length s + 2 ≤ fuel)%nat →
     json.parse_members fuel depth acc s ≠ json.OutOfFuel ∧
     ∀ v r, json.parse_members fuel depth acc s = json.Ok (v, r) →
            (length r < length s)%nat).
Proof.
  induction fuel as [| fuel (IHv & IHe & IHm)].
  { repeat split; intros; lia. }
  split; [| split].
  - (* parse_value *)
    intros depth s Hfuel. cbn [json.parse_value].
    pose proof (skip_space_length s) as Hsk.
    destruct (json.skip_space s) as [| c r] eqn:Es;
      [split; [discriminate | intros v r [=]] |].
    simpl in Hsk.
    destruct (json.isc c "{").
    { destruct (json.maxNestingDepth <=? depth)%N;
        [split; [discriminate | intros v r' [=]] |].
      pose proof (skip_space_length r) as Hsk'.
      destruct (json.skip_space r) as [| c' r'] eqn:Er;
        [split; [discriminate | intros v r' [=]] |].
      simpl in Hsk'.
      destruct (json.isc c' "}").
      - split; [discriminate | intros v r0 [= <- <-]; lia].
      - destruct (IHm (depth + 1)%N [] r) as [H1 H2]; [lia |].
        split; [exact H1 | intros v r0 H; apply H2 in H; lia]. }
    destruct (json.isc c "[").
    { destruct (json.maxNestingDepth <=? depth)%N;
        [split; [discriminate | intros v r' [=]] |].
      pose proof (skip_space_length r) as Hsk'.
      destruct (json.skip_space r) as [| c' r'] eqn:Er;
        [split; [discriminate | intros v r' [=]] |].
      simpl in Hsk'.
      destruct (json.isc c' "]").
      - split; [discriminate | intros v r0 [= <- <-]; lia].
      - destruct (IHe (depth + 1)%N [] r) as [H1 H2]; [lia |].
        split; [exact H1 | intros v r0 H; apply H2 in H; lia]. }
    destruct (Ascii.eqb c json.quote).
    { pose proof (string_value_fuel r) as Hf.
      destruct (json.string_value r) as [[s' r'] | |] eqn:E;
        [| split; [discriminate | intros v r' [=]] | congruence].
      apply string_value_length in E.
      split; [discriminate | intros v r0 [= <- <-]; lia]. }
    destruct (json.isc c "-" || json.isDigit c).
    { destruct (json.scan_number (c :: r)) as [[lit r'] |] eqn:E;
        [| split; [discriminate | intros v r' [=]]].
      apply scan_number_length in E. simpl in E.
      split; [discriminate | intros v r0 [= <- <-]; lia]. }
    assert (Hlit : ∀ lit v0, lit ≠ EmptyString →
      json.scan_literal lit v0 (c :: r) ≠ json.OutOfFuel ∧
      ∀ v r0, json.scan_literal lit v0 (c :: r) = json.Ok (v, r0) →
              (length r0 < length s)%nat).
    { intros lit v0 Hne. split; [apply scan_literal_fuel |].
      intros v r0 H. apply scan_literal_length in H; [| exact Hne].
      simpl in H. lia. }
    destruct (json.isc c "t"); [apply Hlit; discriminate |].
    destruct (json.isc c "f"); [apply Hlit; discriminate |].
    destruct (json.isc c "n"); [apply Hlit; discriminate |].
    split; [discriminate | intros v r' [=]].
  - (* parse_elements *)
    intros depth acc s Hfuel. cbn [json.parse_elements].
    destruct (IHv depth s) as [H1 H2]; [lia |].
    destruct (json.parse_value fuel depth s) as [[v r] | |] eqn:E;
      [| split; [discriminate | intros v r [=]] | congruence].
    specialize (H2 v r eq_refl).
    pose proof (skip_space_length r) as Hsk.
    destruct (json.skip_space r) as [| c r'] eqn:Er;
      [split; [discriminate | intros v0 r0 [=]] |].
    simpl in Hsk.
    destruct (json.isc c ",").
    { destruct (IHe depth (v :: acc) r') as [H3 H4]; [lia |].
      split; [exact H3 | intros v0 r0 H; apply H4 in H; lia]. }
    destruct (json.isc c "]").
    { split; [discriminate | intros v0 r0 [= <- <-]; lia]. }
    split; [discriminate | intros v0 r0 [=]].
  - (* parse_members *)
    intros depth acc s Hfuel. cbn [json.parse_members].
    pose proof (skip_space_length s) as Hsk.
    destruct (json.skip_space s) as [| c r] eqn:Es;
      [split; [discriminate | intros v r [=]] |].
    simpl in Hsk.
    destruct (Ascii.eqb c json.quote);
      [| split; [discriminate | intros v r' [=]]].
    pose proof (string_value_fuel r) as Hf.
    destruct (json.string_value r) as [[key r1] | |] eqn:E;
      [| split; [discriminate | intros v r' [=]] | congruence].
    apply string_value_length in E.
    pose proof (skip_space_length r1) as Hsk1.
    destruct (json.skip_space r1) as [| c1 r2] eqn:Er1;
      [split; [discriminate | intros v r' [=]] |].
    simpl in Hsk1.
    destruct (json.isc c1 ":"); [| split; [discriminate | intros v r' [=]]].
    destruct (IHv depth r2) as [H1 H2]; [lia |].
    destruct (json.parse_value fuel depth r2) as [[v r3] | |] eqn:Ev;
      [| split; [discriminate | intros v r' [=]] | congruence].
    specialize (H2 v r3 eq_refl).
    pose proof (skip_space_length r3) as Hsk3.
    destruct (json.skip_space r3) as [| c3 r4] eqn:Er3;
      [split; [discriminate | intros v0 r0 [=]] |].
    simpl in Hsk3.
    destruct (json.isc c3 ",").
    { destruct (IHm depth ((key, v) :: acc) r4) as [H3 H4]; [lia |].
      split; [exact H3 | intros v0 r0 H; apply H4 in H; lia]. }
    destruct (json.isc c3 "}").
    { split; [discriminate | intros v0 r0 [= <- <-]; lia]. }
    split; [discriminate | intros v0 r0 [=]].
Qed.

(** [json.parse] decides: it gives a value or a syntax error. *)
Lemma parse_never_out_of_fuel data : json.parse data ≠ json.OutOfFuel.
Proof.
  unfold json.parse.
  destruct (parsers_fuel (2 * length data + 1)) as (Hv & _ & _).
  destruct (Hv 0%N data) as [H _]; [lia |].
  destruct (json.parse_value (2 * length data + 1) 0 data) as [[v r] | |];
    [| discriminate | congruence].
  destruct (json.skip_space r); discriminate.
Qed.

(** ** Facts about bytes and UTF-8 *)

Lemma byte_val_of n : (n < 256)%N → byte_val (byte_of n) = n.
Proof. apply N_ascii_embedding. Qed.

Lemma byte_of_val c : byte_of (byte_val c) = c.
Proof. apply ascii_N_embedding. Qed.

Lemma byte_val_bound c : (byte_val c < 256)%N.
Proof. apply N_ascii_bounded. Qed.

(** Bits that do not overlap add up. *)
Lemma lor_add a b k : (b < 2 ^ k)%N → N.lor (a * 2 ^ k) b = (a * 2 ^ k + b)%N.
Proof.
  intros Hb.
  assert (H : N.land (a * 2 ^ k) b = 0%N).
  { apply N.bits_inj. intros n. rewrite N.land_spec, N.bits_0.
    destruct (N.lt_ge_cases n k) as [Hn | Hn].
    - rewrite N.mul_pow2_bits_low by assumption. reflexivity.
    - rewrite <- (N.mod_small b (2 ^ k)) by assumption.
      rewrite N.mod_pow2_bits_high by assumption. apply andb_false_r. }
  rewrite N.add_nocarry_lxor by assumption. symmetry.
  apply N.lxor_lor. assumption.
Qed.

Lemma lor_add' c a b k :
  c = (a * 2 ^ k)%N → (b < 2 ^ k)%N → N.lor c b = (c + b)%N.
Proof. intros ->. apply lor_add. Qed.

Lemma land_mod a m k : m = N.ones k → N.land a m = (a mod 2 ^ k)%N.
Proof. intros ->. apply N.land_ones. Qed.

(** The bit operations of [EncodeRune] and [DecodeRune] as arithmetic. *)
Ltac bits_to_arith :=
  repeat first
    [ rewrite N.shiftr_div_pow2
    | rewrite N.shiftl_mul_pow2
    | rewrite (land_mod _ 0x3F 6) by reflexivity
    | rewrite (land_mod _ 0x1F 5) by reflexivity
    | rewrite (land_mod _ 0x0F 4) by reflexivity
    | rewrite (land_mod _ 0x07 3) by reflexivity ];
  change (2 ^ 3)%N with 8%N in *; change (2 ^ 4)%N with 16%N in *;
  change (2 ^ 5)%N with 32%N in *; change (2 ^ 6)%N with 64%N in *;
  change (2 ^ 12)%N with 4096%N in *; change (2 ^ 18)%N with 262144%N in *.

Lemma EncodeRune_2 r :
  (0x80 ≤ r ≤ 0x7FF)%N →
  utf8.EncodeRune r = [byte_of (192 + r / 64); byte_of (128 + r mod 64)].
Proof.
  intros Hr. unfold utf8.EncodeRune.
  destruct (N.leb_spec r 0x7F); [lia |].
  destruct (N.leb_spec r 0x7FF); [| lia].
  bits_to_arith.
  rewrite (lor_add' 0xC0 3 (r / 64) 6), (lor_add' 0x80 2 (r mod 64) 6);
    try reflexivity; change (2 ^ 6)%N with 64%N; lia.
Qed.

Lemma EncodeRune_3 r :
  (0x800 ≤ r ≤ 0xFFFF)%N → ¬ (0xD800 ≤ r ≤ 0xDFFF)%N →
  utf8.EncodeRune r
  = [byte_of (224 + r / 4096); byte_of (128 + (r / 64) mod 64);
     byte_of (128 + r mod 64)].
Proof.
  intros Hr Hs. unfold utf8.EncodeRune.
  destruct (N.leb_spec r 0x7F); [lia |].
  destruct (N.leb_spec r 0x7FF); [lia |].
  destruct (N.ltb_spec 0x10FFFF r); [lia |].
  replace ((0xD800 <=? r) && (r <=? 0xDFFF))%N with false
    by (symmetry; apply andb_false_iff;
        destruct (N.leb_spec 0xD800 r); destruct (N.leb_spec r 0xDFFF);
        auto; lia).
  simpl orb. cbv iota.
  destruct (N.leb_spec r 0xFFFF); [| lia].
  bits_to_arith.
  rewrite (lor_add' 0xE0 14 (r / 4096) 4),
    (lor_add' 0x80 2 ((r / 64) mod 64) 6), (lor_add' 0x80 2 (r mod 64) 6);
    try reflexivity;
    change (2 ^ 6)%N with 64%N; change (2 ^ 4)%N with 16%N; lia.
Qed.

Lemma EncodeRune_4 r :
  (0x10000 ≤ r ≤ 0x10FFFF)%N →
  utf8.EncodeRune r
  = [byte_of (240 + r / 262144); byte_of (128 + (r / 4096) mod 64);
     byte_of (128 + (r / 64) mod 64); byte_of (128 + r mod 64)].
Proof.
  intros Hr. unfold utf8.EncodeRune.
  destruct (N.leb_spec r 0x7F); [lia |].
  destruct (N.leb_spec r 0x7FF); [lia |].
  destruct (N.ltb_spec 0x10FFFF r); [lia |].
  replace ((0xD800 <=? r) && (r <=? 0xDFFF))%N with false
    by (symmetry; apply andb_false_iff;
        destruct (N.leb_spec 0xD800 r); destruct (N.leb_spec r 0xDFFF);
        auto; lia).
  simpl orb. cbv iota.
  destruct (N.leb_spec r 0xFFFF); [lia |].
  bits_to_arith.
  rewrite (lor_add' 0xF0 30 (r / 262144) 3),
    (lor_add' 0x80 2 ((r / 4096) mod 64) 6),
    (lor_add' 0x80 2 ((r / 64) mod 64) 6), (lor_add' 0x80 2 (r mod 64) 6);
    try reflexivity;
    change (2 ^ 6)%N with 64%N; change (2 ^ 3)%N with 8%N; lia.
Qed.

(** Surrogates and values above the last rune are written as U+FFFD. *)
Lemma EncodeRune_invalid r :
  (0x10FFFF < r ∨ 0xD800 ≤ r ≤ 0xDFFF)%N →
  utf8.EncodeRune r = utf8.EncodeRune utf8.RuneError.
Proof.
  intros Hr. unfold utf8.EncodeRune at 1.
  destruct (N.leb_spec r 0x7F); [lia |].
  destruct (N.leb_spec r 0x7FF); [lia |].
  replace ((0x10FFFF <? r) || (0xD800 <=? r) && (r <=? 0xDFFF))%N with true.
  - reflexivity.
  - symmetry. apply orb_true_iff. destruct Hr as [Hr | Hr].
    + left. apply N.ltb_lt. exact Hr.
    + right. apply andb_true_iff. split; apply N.leb_le; lia.
Qed.

Ltac ncmp :=
  repeat match goal with
  | |- context [(?a <? ?b)%N] => destruct (N.ltb_spec a b); try lia
  | |- context [(?a <=? ?b)%N] => destruct (N.leb_spec a b); try lia
  | |- context [(?a =? ?b)%N] => destruct (N.eqb_spec a b); try lia
  end.

Lemma DecodeRune_2 p0 b1 rest :
  (0xC2 ≤ p0 ≤ 0xDF)%N → (0x80 ≤ b1 ≤ 0xBF)%N →
  utf8.DecodeRune (byte_of p0 :: byte_of b1 :: rest)
  = ((p0 mod 32) * 64 + b1 mod 64, 2%nat)%N.
Proof.
  intros H0 H1. unfold utf8.DecodeRune, utf8.first, utf8.RuneSelf.
  cbn [nth length]. rewrite !byte_val_of by lia.
  ncmp; cbn -[N.mul N.add N.modulo N.land N.lor N.shiftl].
  bits_to_arith.
  rewrite (lor_add' (p0 mod 32 * 64) (p0 mod 32) (b1 mod 64) 6);
    [| change (2 ^ 6)%N with 64%N; lia | change (2 ^ 6)%N with 64%N; lia].
  reflexivity.
Qed.

Lemma DecodeRune_3 p0 b1 b2 rest :
  (0xE0 ≤ p0 ≤ 0xEF)%N → (0x80 ≤ b1 ≤ 0xBF)%N →
  (p0 = 0xE0 → 0xA0 ≤ b1)%N → (p0 = 0xED → b1 ≤ 0x9F)%N →
  (0x80 ≤ b2 ≤ 0xBF)%N →
  utf8.DecodeRune (byte_of p0 :: byte_of b1 :: byte_of b2 :: rest)
  = ((p0 mod 16) * 4096 + (b1 mod 64) * 64 + b2 mod 64, 3%nat)%N.
Proof.
  intros H0 H1 Hlo Hhi H2.
  unfold utf8.DecodeRune, utf8.first, utf8.cont, utf8.RuneSelf.
  cbn [nth length]. rewrite !byte_val_of by lia.
  ncmp; cbn -[N.mul N.add N.modulo N.land N.lor N.shiftl];
    ncmp; cbn -[N.mul N.add N.modulo N.land N.lor N.shiftl];
    bits_to_arith;
    (rewrite (lor_add' (p0 mod 16 * 4096) (p0 mod 16) (b1 mod 64 * 64) 12);
     [| change (2 ^ 12)%N with 4096%N; lia | change (2 ^ 12)%N with 4096%N; lia]);
    (rewrite (lor_add' _ (p0 mod 16 * 64 + b1 mod 64) (b2 mod 64) 6);
     [| change (2 ^ 6)%N with 64%N; lia | change (2 ^ 6)%N with 64%N; lia]);
    reflexivity.
Qed.

Lemma DecodeRune_4 p0 b1 b2 b3 rest :
  (0xF0 ≤ p0 ≤ 0xF4)%N → (0x80 ≤ b1 ≤ 0xBF)%N →
  (p0 = 0xF0 → 0x90 ≤ b1)%N → (p0 = 0xF4 → b1 ≤ 0x8F)%N →
  (0x80 ≤ b2 ≤ 0xBF)%N → (0x80 ≤ b3 ≤ 0xBF)%N →
  utf8.DecodeRune (byte_of p0 :: byte_of b1 :: byte_of b2 :: byte_of b3 :: rest)
  = ((p0 mod 8) * 262144 + (b1 mod 64) * 4096 + (b2 mod 64) * 64 + b3 mod 64,
     4%nat)%N.
Proof.
  intros H0 H1 Hlo Hhi H2 H3.
  unfold utf8.DecodeRune, utf8.first, utf8.cont, utf8.RuneSelf.
  cbn [nth length]. rewrite !byte_val_of by lia.
  ncmp; cbn -[N.mul N.add N.modulo N.land N.lor N.shiftl];
    ncmp; cbn -[N.mul N.add N.modulo N.land N.lor N.shiftl];
    bits_to_arith;
    (rewrite (lor_add' (p0 mod 8 * 262144) (p0 mod 8) (b1 mod 64 * 4096) 18);
     [| change (2 ^ 18)%N with 262144%N; lia
      | change (2 ^ 18)%N with 262144%N; lia]);
    (rewrite (lor_add' _ (p0 mod 8 * 64 + b1 mod 64) (b2 mod 64 * 64) 12);
     [| change (2 ^ 12)%N with 4096%N; lia | change (2 ^ 12)%N with 4096%N; lia]);
    (rewrite (lor_add' _ (p0 mod 8 * 4096 + b1 mod 64 * 64 + b2 mod 64)
                (b3 mod 64) 6);
     [| change (2 ^ 6)%N with 64%N; lia | change (2 ^ 6)%N with 64%N; lia]);
    reflexivity.
Qed.

(** A rune outside ASCII that is encoded is decoded to itself, over the
    bytes it was written to, whatever follows. *)
Lemma DecodeRune_EncodeRune r rest :
  (0x80 ≤ r)%N → scalar r →
  utf8.DecodeRune (utf8.EncodeRune r ++ rest)
  = (r, length (utf8.EncodeRune r)).
Proof.
  intros Hr [Hmax Hsur].
  destruct (N.le_gt_cases r 0x7FF) as [H2 | H2].
  { rewrite EncodeRune_2 by lia. cbn [app length].
    rewrite DecodeRune_2 by lia. f_equal. lia. }
  destruct (N.le_gt_cases r 0xFFFF) as [H3 | H3].
  { rewrite EncodeRune_3 by lia. cbn [app length].
    rewrite DecodeRune_3 by lia. f_equal. lia. }
  rewrite EncodeRune_4 by lia. cbn [app length].
  rewrite DecodeRune_4 by lia. f_equal. lia.
Qed.

Lemma EncodeRune_length r : (1 ≤ length (utf8.EncodeRune r))%nat.
Proof.
  unfold utf8.EncodeRune.
  repeat match goal with
         | |- context [if ?b then _ else _] => destruct b
         end; simpl; lia.
Qed.

(** The bytes of a rune outside ASCII are outside ASCII. *)
Lemma EncodeRune_bytes r :
  (0x80 ≤ r)%N → scalar r →
  (2 ≤ length (utf8.EncodeRune r))%nat ∧
  Forall (λ c, (0x80 ≤ byte_val c)%N) (utf8.EncodeRune r).
Proof.
  intros Hr [Hmax Hsur].
  destruct (N.le_gt_cases r 0x7FF) as [H2 | H2].
  { rewrite EncodeRune_2 by lia. split; [simpl; lia |].
    repeat constructor; rewrite byte_val_of; lia. }
  destruct (N.le_gt_cases r 0xFFFF) as [H3 | H3].
  { rewrite EncodeRune_3 by lia. split; [simpl; lia |].
    repeat constructor; rewrite byte_val_of; lia. }
  rewrite EncodeRune_4 by lia. split; [simpl; lia |].
  repeat constructor; rewrite byte_val_of; lia.
Qed.

(** ** The strings the decoder makes are valid UTF-8 *)

Lemma scalar_RuneError : scalar utf8.RuneError.
Proof. unfold scalar, utf8.RuneError. lia. Qed.

(** Whatever rune is encoded, the bytes written are valid. *)
Lemma valid_EncodeRune_app r s :
  utf8_valid s → utf8_valid (utf8.EncodeRune r ++ s).
Proof.
  intros Hs.
  destruct (N.le_gt_cases r 0x7F) as [H1 | H1].
  { unfold utf8.EncodeRune. destruct (N.leb_spec r 0x7F); [| lia].
    simpl. apply valid_ascii; [rewrite byte_val_of; lia | exact Hs]. }
  destruct (N.lt_ge_cases 0x10FFFF r) as [H2 | H2].
  { rewrite EncodeRune_invalid by lia.
    apply valid_rune; [unfold utf8.RuneError; lia | apply scalar_RuneError | exact Hs]. }
  destruct (N.le_gt_cases 0xD800 r) as [H3 | H3];
    [destruct (N.le_gt_cases r 0xDFFF) as [H4 | H4] |].
  - rewrite EncodeRune_invalid by lia.
    apply valid_rune; [unfold utf8.RuneError; lia | apply scalar_RuneError | exact Hs].
  - apply valid_rune; [lia | unfold scalar; lia | exact Hs].
  - apply valid_rune; [lia | unfold scalar; lia | exact Hs].
Qed.

Lemma unescape_ascii e b : json.unescape e = Some b → (byte_val b < 0x80)%N.
Proof.
  unfold json.unescape.
  destruct (Ascii.eqb e json.quote) eqn:E1.
  { apply Ascii.eqb_eq in E1. subst e. intros [= <-]. reflexivity. }
  destruct (Ascii.eqb e json.backslash) eqn:E2.
  { apply Ascii.eqb_eq in E2. subst e. intros [= <-]. reflexivity. }
  destruct (json.isc e "/") eqn:E3.
  { apply Ascii.eqb_eq in E3. subst e. intros [= <-]. reflexivity. }
  destruct (json.isc e "'") eqn:E4.
  { apply Ascii.eqb_eq in E4. subst e. intros [= <-]. reflexivity. }
  simpl.
  repeat match goal with
         | |- context [if ?c then _ else _] =>
           destruct c; [intros [= <-]; reflexivity |]
         end.
  discriminate.
Qed.

Lemma unquote_go_valid s : ∀ skip out,
  json.unquote_go skip s = Some out → utf8_valid out.
Proof.
  induction s as [| c r IH]; intros skip out; cbn [json.unquote_go].
  { intros [= <-]. constructor. }
  destruct skip as [| k]; [| apply IH].
  destruct (Ascii.eqb c json.backslash).
  { destruct r as [| e r']; [discriminate |].
    destruct (json.isc e "u").
    - destruct (json.getu4 (c :: e :: r')) as [rr |]; [| discriminate].
      destruct (utf16.IsSurrogate rr).
      + match goal with
        | |- context [if ?b then _ else _] => destruct b
        end; intros H; apply fmap_Some in H as (out' & H & ->);
          apply valid_EncodeRune_app, (IH _ _ H).
      + intros H; apply fmap_Some in H as (out' & H & ->).
        apply valid_EncodeRune_app, (IH _ _ H).
    - destruct (json.unescape e) as [b |] eqn:Eb; [| discriminate].
      intros H; apply fmap_Some in H as (out' & H & ->).
      apply valid_ascii; [eapply unescape_ascii, Eb | apply (IH _ _ H)]. }
  destruct (Ascii.eqb c json.quote || (byte_val c <? 32)%N); [discriminate |].
  destruct (N.ltb_spec (byte_val c) utf8.RuneSelf) as [Hc | Hc].
  - intros H; apply fmap_Some in H as (out' & H & ->).
    apply valid_ascii; [exact Hc | apply (IH _ _ H)].
  - destruct (utf8.DecodeRune (c :: r)) as [rr size].
    intros H; apply fmap_Some in H as (out' & H & ->).
    apply valid_EncodeRune_app, (IH _ _ H).
Qed.

Lemma value_valid_Array vs :
  value_valid (json.Array vs) ↔ Forall value_valid vs.
Proof.
  induction vs as [| v vs IH]; [simpl; split; [constructor | trivial] |].
  rewrite Forall_cons. rewrite <- IH. simpl. tauto.
Qed.

Lemma value_valid_Object ms :
  value_valid (json.Object ms) ↔ Forall (λ m, value_valid m.2) ms.
Proof.
  induction ms as [| [k v] ms IH]; [simpl; split; [constructor | trivial] |].
  rewrite Forall_cons. rewrite <- IH. simpl. tauto.
Qed.

Lemma Forall_rev_cons {A} (P : A → Prop) x (acc : list A) :
  P x → Forall P acc → Forall P (rev (x :: acc)).
Proof.
  intros Hx Hacc. apply Forall_forall. intros y Hy.
  apply list_elem_of_In, in_rev, list_elem_of_In in Hy.
  apply elem_of_cons in Hy as [-> | Hy]; [exact Hx |].
  rewrite Forall_forall in Hacc. apply Hacc, Hy.
Qed.

Lemma string_value_valid s out r :
  json.string_value s = json.Ok (out, r) → utf8_valid out.
Proof.
  unfold json.string_value.
  destruct (json.scan_string s) as [[raw r'] |]; [| discriminate].
  destruct (json.unquote raw) as [s' |] eqn:E; [| discriminate].
  intros [= <- <-]. eapply unquote_go_valid, E.
Qed.

Lemma scan_literal_valid lit v s v' r :
  value_valid v → json.scan_literal lit v s = json.Ok (v', r) → value_valid v'.
Proof.
  intros Hv. unfold json.scan_literal.
  destruct (strings.HasPrefix s (str lit)); [| discriminate].
  intros [= <- <-]. exact Hv.
Qed.

Lemma parsers_valid fuel :
  (∀ depth s v r,
     json.parse_value fuel depth s = json.Ok (v, r) → value_valid v) ∧
  (∀ depth acc s v r, Forall value_valid acc →
     json.parse_elements fuel depth acc s = json.Ok (v, r) → value_valid v) ∧
  (∀ depth acc s v r, Forall (λ m, value_valid m.2) acc →
     json.parse_members fuel depth acc s = json.Ok (v, r) → value_valid v).
Proof.
  induction fuel as [| fuel (IHv & IHe & IHm)].
  { repeat split; intros; discriminate. }
  split; [| split].
  - intros depth s v r. cbn [json.parse_value].
    destruct (json.skip_space s) as [| c r0]; [discriminate |].
    destruct (json.isc c "{").
    { destruct (json.maxNestingDepth <=? depth)%N; [discriminate |].
      destruct (json.skip_space r0) as [| c' r']; [discriminate |].
      destruct (json.isc c' "}"); [intros [= <- <-]; exact I |].
      apply IHm. constructor. }
    destruct (json.isc c "[").
    { destruct (json.maxNestingDepth <=? depth)%N; [discriminate |].
      destruct (json.skip_space r0) as [| c' r']; [discriminate |].
      destruct (json.isc c' "]"); [intros [= <- <-]; exact I |].
      apply IHe. constructor. }
    destruct (Ascii.eqb c json.quote).
    { destruct (json.string_value r0) as [[s' r'] | |] eqn:E; try discriminate.
      intros [= <- <-]. simpl. eapply string_value_valid, E. }
    destruct (json.isc c "-" || json.isDigit c).
    { destruct (json.scan_number (c :: r0)) as [[lit r'] |]; [| discriminate].
      intros [= <- <-]. exact I. }
    destruct (json.isc c "t"); [apply scan_literal_valid; exact I |].
    destruct (json.isc c "f"); [apply scan_literal_valid; exact I |].
    destruct (json.isc c "n"); [apply scan_literal_valid; exact I |].
    discriminate.
  - intros depth acc s v r Hacc. cbn [json.parse_elements].
    destruct (json.parse_value fuel depth s) as [[v0 r0] | |] eqn:E;
      try discriminate.
    apply IHv in E.
    destruct (json.skip_space r0) as [| c r']; [discriminate |].
    destruct (json.isc c ",").
    { apply IHe. constructor; assumption. }
    destruct (json.isc c "]"); [| discriminate].
    intros [= <- <-]. apply value_valid_Array, Forall_rev_cons; assumption.
  - intros depth acc s v r Hacc. cbn [json.parse_members].
    destruct (json.skip_space s) as [| c r0]; [discriminate |].
    destruct (Ascii.eqb c json.quote); [| discriminate].
    destruct (json.string_value r0) as [[key r1] | |]; try discriminate.
    destruct (json.skip_space r1) as [| c1 r2]; [discriminate |].
    destruct (json.isc c1 ":"); [| discriminate].
    destruct (json.parse_value fuel depth r2) as [[v0 r3] | |] eqn:E;
      try discriminate.
    apply IHv in E.
    destruct (json.skip_space r3) as [| c3 r4]; [discriminate |].
    destruct (json.isc c3 ",").
    { apply IHm. constructor; assumption. }
    destruct (json.isc c3 "}"); [| discriminate].
    intros [= <- <-].
    apply value_valid_Object, (Forall_rev_cons (λ m, value_valid m.2));
      assumption.
Qed.

Lemma parse_valid data v : json.parse data = json.Ok v → value_valid v.
Proof.
  unfold json.parse.
  destruct (json.parse_value (2 * length data + 1) 0 data) as [[v0 r] | |] eqn:E;
    try discriminate.
  destruct (json.skip_space r); [| discriminate].
  intros [= <-].
  destruct (parsers_valid (2 * length data + 1)) as (H & _ & _).
  eapply H, E.
Qed.

Lemma zeroItem_valid : item_valid zeroItem.
Proof. repeat split; constructor. Qed.

Lemma into_string_valid v cur saved :
  value_valid v → utf8_valid cur → utf8_valid (decode.into_string v cur saved).1.
Proof. destruct v; simpl; auto. Qed.

Lemma into_item_field_valid cur f v saved :
  value_valid v → item_valid cur →
  item_valid (decode.into_item_field cur f v saved).1.
Proof.
  intros Hv (H1 & H2 & H3). unfold decode.into_item_field.
  destruct f.
  - pose proof (into_string_valid v (ID cur) saved Hv H1) as H.
    destruct (decode.into_string v (ID cur) saved). repeat split; assumption.
  - pose proof (into_string_valid v (Original cur) saved Hv H2) as H.
    destruct (decode.into_string v (Original cur) saved).
    repeat split; assumption.
  - pose proof (into_string_valid v (Translation cur) saved Hv H3) as H.
    destruct (decode.into_string v (Translation cur) saved).
    repeat split; assumption.
Qed.

Lemma into_item_valid v cur saved :
  value_valid v → item_valid cur → item_valid (decode.into_item v cur saved).1.
Proof.
  destruct v as [| b | lit | s | vs | members]; simpl; auto.
  intros Hv. apply value_valid_Object in Hv.
  revert cur saved. induction Hv as [| [k x] ms Hx Hms IH]; intros cur saved Hcur.
  - exact Hcur.
  - cbn [fold_left].
    destruct (json.field_for item_fields k) as [f |]; [| apply IH, Hcur].
    pose proof (into_item_field_valid cur f x saved Hx Hcur) as H.
    destruct (decode.into_item_field cur f x saved) as [cur' saved'].
    apply IH, H.
Qed.

Lemma into_slots_valid vs : ∀ backing saved,
  Forall value_valid vs → Forall item_valid backing →
  Forall item_valid (decode.into_slots vs backing saved).1.1 ∧
  Forall item_valid (decode.into_slots vs backing saved).1.2.
Proof.
  induction vs as [| v vs IH]; intros backing saved Hvs Hb.
  - simpl. split; [constructor | exact Hb].
  - apply Forall_cons in Hvs as [Hv Hvs]. cbn [decode.into_slots].
    assert (Hhd : item_valid (hd zeroItem backing))
      by (destruct Hb; [apply zeroItem_valid | assumption]).
    assert (Htl : Forall item_valid (tl backing))
      by (destruct Hb; [constructor | assumption]).
    pose proof (into_item_valid v (hd zeroItem backing) saved Hv Hhd) as H.
    destruct (decode.into_item v (hd zeroItem backing) saved) as [it saved'].
    specialize (IH (tl backing) saved' Hvs Htl).
    destruct (decode.into_slots vs (tl backing) saved') as [[its rest] saved''].
    simpl in *. destruct IH. split; [constructor |]; assumption.
Qed.

Lemma into_slice_valid v cur saved :
  value_valid v → slice_valid cur →
  slice_valid (decode.into_slice v cur saved).1.
Proof.
  intros Hv [Hc1 Hc2].
  destruct v as [| b | lit | s | vs | members]; simpl;
    try (split; simpl; (assumption || constructor)).
  apply value_valid_Array in Hv.
  destruct vs as [| v vs]; [split; constructor |].
  pose proof (into_slots_valid (v :: vs) (default [] (elems cur) ++ stale cur)
                saved Hv) as H.
  destruct (decode.into_slots (v :: vs) (default [] (elems cur) ++ stale cur) saved)
    as [[its rest] saved'].
  apply H. apply Forall_app. split; assumption.
Qed.

Lemma into_response_valid v cur saved :
  value_valid v → slice_valid (Results cur) →
  slice_valid (Results (decode.into_response v cur saved).1).
Proof.
  destruct v as [| b | lit | s | vs | members]; simpl; auto.
  intros Hv. apply value_valid_Object in Hv.
  revert cur saved. induction Hv as [| [k x] ms Hx Hms IH]; intros cur saved Hcur.
  - exact Hcur.
  - cbn [fold_left].
    destruct (json.field_for response_fields k) as [[] |]; [| apply IH, Hcur].
    pose proof (into_slice_valid x (Results cur) saved Hx Hcur) as H.
    destruct (decode.into_slice x (Results cur) saved) as [sl saved'].
    apply IH, H.
Qed.

(** The results of the extractor hold valid strings only. *)
Lemma extractResults_valid raw l :
  extractResults raw = Returned l → Forall item_valid (default [] l).
Proof.
  unfold extractResults, decode.Unmarshal.
  destruct (json.parse (sanitizeJSON raw)) as [v | |] eqn:E;
    [| discriminate | discriminate].
  apply parse_valid in E.
  pose proof (into_response_valid v zeroResponse None E) as H.
  destruct (decode.into_response v zeroResponse None) as [resp err].
  destruct err; [discriminate |]. intros [= <-].
  apply H. split; constructor.
Qed.

(** ** A string written by [appendString] is read back *)

Lemma appendString_go_skip p r :
  encode.appendString_go (length p) (p ++ r) = encode.appendString_go 0 r.
Proof. induction p as [| c p IH]; [reflexivity | exact IH]. Qed.

Lemma unquote_go_skip p r :
  json.unquote_go (length p) (p ++ r) = json.unquote_go 0 r.
Proof. induction p as [| c p IH]; [reflexivity | exact IH]. Qed.

Ltac each_byte c :=
  destruct c as [[] [] [] [] [] [] [] []].

Lemma scan_ascii_chunk c acc tail :
  (byte_val c < 0x80)%N →
  json.scan_string_go json.InString acc (ascii_chunk c ++ tail)
  = json.scan_string_go json.InString (rev (ascii_chunk c) ++ acc) tail.
Proof.
  intros Hc. each_byte c; try (exfalso; vm_compute in Hc; discriminate Hc);
    reflexivity.
Qed.

Lemma unquote_ascii_chunk c tail :
  (byte_val c < 0x80)%N →
  json.unquote_go 0 (ascii_chunk c ++ tail) = (c ::.) <$> json.unquote_go 0 tail.
Proof.
  intros Hc. each_byte c; try (exfalso; vm_compute in Hc; discriminate Hc);
    reflexivity.
Qed.

Lemma eqb_byte_val c d : byte_val c ≠ byte_val d → Ascii.eqb c d = false.
Proof. intros H. apply Ascii.eqb_neq. intros ->. apply H. reflexivity. Qed.

Lemma scan_high_bytes p acc tail :
  Forall (λ c, (0x80 ≤ byte_val c)%N) p →
  json.scan_string_go json.InString acc (p ++ tail)
  = json.scan_string_go json.InString (rev p ++ acc) tail.
Proof.
  intros Hp. revert acc. induction Hp as [| c p Hc Hp IH]; intros acc.
  - reflexivity.
  - cbn [app json.scan_string_go].
    rewrite (eqb_byte_val c json.quote)
      by (change (byte_val json.quote) with 34%N; lia).
    rewrite (eqb_byte_val c json.backslash)
      by (change (byte_val json.backslash) with 92%N; lia).
    destruct (N.ltb_spec (byte_val c) 32); [lia |].
    rewrite IH. simpl rev. rewrite <- app_assoc. reflexivity.
Qed.

Lemma scan_rune_chunk r acc tail :
  (0x80 ≤ r)%N → scalar r →
  json.scan_string_go json.InString acc (rune_chunk r ++ tail)
  = json.scan_string_go json.InString (rev (rune_chunk r) ++ acc) tail.
Proof.
  intros Hr Hs. unfold rune_chunk.
  destruct (N.eqb_spec r 0x2028) as [-> | H1]; [reflexivity |].
  destruct (N.eqb_spec r 0x2029) as [-> | H2]; [reflexivity |].
  apply scan_high_bytes, EncodeRune_bytes; assumption.
Qed.

Lemma appendString_go_ascii c s :
  (byte_val c < 0x80)%N →
  encode.appendString_go 0 (c :: s) = ascii_chunk c ++ encode.appendString_go 0 s.
Proof.
  intros Hc. cbn [encode.appendString_go]. unfold utf8.RuneSelf.
  destruct (N.ltb_spec (byte_val c) 128); [reflexivity | lia].
Qed.

Lemma appendString_go_rune r s :
  (0x80 ≤ r)%N → scalar r →
  encode.appendString_go 0 (utf8.EncodeRune r ++ s)
  = rune_chunk r ++ encode.appendString_go 0 s.
Proof.
  intros Hr Hs.
  pose proof (DecodeRune_EncodeRune r s Hr Hs) as Hdec.
  destruct (EncodeRune_bytes r Hr Hs) as [Hlen Hhigh].
  unfold rune_chunk.
  destruct (utf8.EncodeRune r) as [| c0 p] eqn:E; [simpl in Hlen; lia |].
  apply Forall_cons in Hhigh as [Hc0 _].
  cbn [app encode.appendString_go]. unfold utf8.RuneSelf.
  destruct (N.ltb_spec (byte_val c0) 128); [lia |].
  change (c0 :: p ++ s) with ((c0 :: p) ++ s). rewrite Hdec.
  replace (length (c0 :: p) =? 1)%nat with false
    by (symmetry; apply Nat.eqb_neq; lia).
  rewrite andb_false_r.
  replace (length (c0 :: p) - 1)%nat with (length p) by (simpl; lia).
  rewrite appendString_go_skip.
  destruct ((r =? 0x2028) || (r =? 0x2029))%N.
  - reflexivity.
  - rewrite take_app_length. reflexivity.
Qed.

Lemma unquote_rune_chunk r tail :
  (0x80 ≤ r)%N → scalar r →
  json.unquote_go 0 (rune_chunk r ++ tail)
  = (utf8.EncodeRune r ++.) <$> json.unquote_go 0 tail.
Proof.
  intros Hr Hs. unfold rune_chunk.
  destruct (N.eqb_spec r 0x2028) as [-> | H1]; [reflexivity |].
  destruct (N.eqb_spec r 0x2029) as [-> | H2]; [reflexivity |].
  cbn [orb].
  pose proof (DecodeRune_EncodeRune r tail Hr Hs) as Hdec.
  destruct (EncodeRune_bytes r Hr Hs) as [Hlen Hhigh].
  destruct (utf8.EncodeRune r) as [| c0 p] eqn:E; [simpl in Hlen; lia |].
  apply Forall_cons in Hhigh as [Hc0 _].
  cbn [app json.unquote_go].
  rewrite (eqb_byte_val c0 json.backslash)
    by (change (byte_val json.backslash) with 92%N; lia).
  rewrite (eqb_byte_val c0 json.quote)
    by (change (byte_val json.quote) with 34%N; lia).
  destruct (N.ltb_spec (byte_val c0) 32); [lia |].
  unfold utf8.RuneSelf. destruct (N.ltb_spec (byte_val c0) 128); [lia |].
  cbn [orb]. change (c0 :: p ++ tail) with ((c0 :: p) ++ tail). rewrite Hdec.
  replace (length (c0 :: p) - 1)%nat with (length p) by (simpl; lia).
  rewrite unquote_go_skip, E. reflexivity.
Qed.

Lemma quote_scan s : utf8_valid s → ∀ acc rest,
  json.scan_string_go json.InString acc
    (encode.appendString_go 0 s ++ json.quote :: rest)
  = Some (rev acc ++ encode.appendString_go 0 s, rest).
Proof.
  induction 1 as [| c s Hc Hs IH | r s Hr Hsc Hs IH]; intros acc rest.
  - simpl. rewrite app_nil_r. reflexivity.
  - rewrite appendString_go_ascii by assumption. rewrite <- app_assoc.
    rewrite scan_ascii_chunk by assumption. rewrite IH.
    rewrite rev_app_distr, rev_involutive, <- app_assoc. reflexivity.
  - rewrite appendString_go_rune by assumption. rewrite <- app_assoc.
    rewrite scan_rune_chunk by assumption. rewrite IH.
    rewrite rev_app_distr, rev_involutive, <- app_assoc. reflexivity.
Qed.

Lemma quote_unquote s :
  utf8_valid s → json.unquote_go 0 (encode.appendString_go 0 s) = Some s.
Proof.
  induction 1 as [| c s Hc Hs IH | r s Hr Hsc Hs IH].
  - reflexivity.
  - rewrite appendString_go_ascii by assumption.
    rewrite unquote_ascii_chunk by assumption. rewrite IH. reflexivity.
  - rewrite appendString_go_rune by assumption.
    rewrite unquote_rune_chunk by assumption. rewrite IH. reflexivity.
Qed.

(** After the opening quote, the scanner reads the string back and stops
    behind the closing quote. *)
Lemma string_value_appendString s rest :
  utf8_valid s →
  json.string_value (encode.appendString_go 0 s ++ json.quote :: rest)
  = json.Ok (s, rest).
Proof.
  intros Hs. unfold json.string_value, json.scan_string.
  rewrite (quote_scan s Hs [] rest). simpl.
  unfold json.unquote. rewrite (quote_unquote s Hs). reflexivity.
Qed.

(** ** A JSON object is left as it is by [sanitizeJSON] *)

Lemma LastIndex_from_last m : ∀ i, 0 ≤ i →
  strings.LastIndex_from i (m ++ [rbrace]) [rbrace] = i + len m.
Proof.
  induction m as [| c m IH]; intros i Hi.
  - simpl. destruct (0 <=? -1) eqn:E; [apply Z.leb_le in E; lia |].
    unfold len. simpl. lia.
  - cbn [app strings.LastIndex_from]. rewrite IH by lia.
    destruct (0 <=? i + 1 + len m) eqn:E.
    + unfold len. simpl length. lia.
    + apply Z.leb_gt in E. unfold len in E. lia.
Qed.

Lemma TrimSpace_object m :
  strings.TrimSpace (lbrace :: m ++ [rbrace]) = lbrace :: m ++ [rbrace].
Proof.
  unfold strings.TrimSpace. cbn [strings.TrimSpace_start].
  change (utf8.RuneSelf <=? byte_val lbrace)%N with false.
  change (strings.asciiSpace lbrace) with false. cbv iota.
  change (lbrace :: m ++ [rbrace]) with ((lbrace :: m) ++ [rbrace]).
  rewrite rev_app_distr. cbn [rev app strings.TrimSpace_stop].
  change (utf8.RuneSelf <=? byte_val rbrace)%N with false.
  change (strings.asciiSpace rbrace) with false. cbv iota.
  change (rbrace :: rev m ++ [lbrace]) with ([rbrace] ++ rev (lbrace :: m)).
  rewrite rev_app_distr, rev_involutive. reflexivity.
Qed.

Lemma sanitizeJSON_object m :
  sanitizeJSON (lbrace :: m ++ [rbrace]) = lbrace :: m ++ [rbrace].
Proof.
  unfold sanitizeJSON. rewrite TrimSpace_object.
  assert (Hfence : strings.HasPrefix (lbrace :: m ++ [rbrace]) (str "```") = false).
  { unfold strings.HasPrefix. apply andb_false_iff. right.
    apply bytes_eqb_false. unfold slice_to. simpl. discriminate. }
  rewrite Hfence.
  assert (Hstart : strings.Index (lbrace :: m ++ [rbrace]) (str "{") = 0).
  { unfold strings.Index. cbn [strings.Index_from].
    change (str "{") with [lbrace].
    rewrite HasPrefix_cons_single, bool_decide_eq_true_2; reflexivity. }
  assert (Hend : strings.LastIndex (lbrace :: m ++ [rbrace]) (str "}")
                 = len (lbrace :: m)).
  { unfold strings.LastIndex. change (str "}") with [rbrace].
    change (lbrace :: m ++ [rbrace]) with ((lbrace :: m) ++ [rbrace]).
    rewrite LastIndex_from_last by lia. lia. }
  rewrite Hstart, Hend.
  assert (Hpos : 0 < len (lbrace :: m)) by (unfold len; simpl; lia).
  destruct (0 =? -1) eqn:E0; [apply Z.eqb_eq in E0; lia |].
  destruct (len (lbrace :: m) =? -1) eqn:E1; [apply Z.eqb_eq in E1; lia |].
  destruct (0 <? len (lbrace :: m)) eqn:E2; [| apply Z.ltb_ge in E2; lia].
  simpl negb. cbv iota. simpl andb. cbv iota.
  unfold slice. simpl drop.
  replace (Z.to_nat (len (lbrace :: m) + 1 - 0))
    with (length (lbrace :: m ++ [rbrace])).
  - apply firstn_all.
  - unfold len. simpl. rewrite length_app. simpl. lia.
Qed.

Lemma Marshal_object l :
  ∃ m, encode.Marshal l = lbrace :: m ++ [rbrace].
Proof.
  unfold encode.Marshal.
  exists (encode.key "results" ++ encode.items l).
  rewrite <- app_assoc. reflexivity.
Qed.

Lemma sanitizeJSON_Marshal l : sanitizeJSON (encode.Marshal l) = encode.Marshal l.
Proof. destruct (Marshal_object l) as [m ->]. apply sanitizeJSON_object. Qed.

(** ** The text written by [Marshal] is parsed back *)

Lemma plain_id : plain_name "id".
Proof. intros rest. reflexivity. Qed.

Lemma plain_text : plain_name "text".
Proof. intros rest. reflexivity. Qed.

Lemma plain_translation : plain_name "translation".
Proof. intros rest. reflexivity. Qed.

Lemma plain_results : plain_name "results".
Proof. intros rest. reflexivity. Qed.

Lemma key_app name X :
  encode.key name ++ X = json.quote :: (str name ++ json.quote :: colon :: X).
Proof. unfold encode.key, dq. rewrite <- !app_assoc. reflexivity. Qed.

Lemma parse_value_string fuel depth s rest :
  utf8_valid s →
  json.parse_value (S fuel) depth (encode.appendString s ++ rest)
  = json.Ok (json.String s, rest).
Proof.
  intros Hs. unfold encode.appendString.
  cbn [app json.parse_value json.skip_space].
  change (json.isSpace json.quote) with false. cbv iota.
  change (json.isc json.quote "{") with false.
  change (json.isc json.quote "[") with false.
  change (Ascii.eqb json.quote json.quote) with true. cbv iota.
  rewrite <- app_assoc. cbn [app].
  rewrite string_value_appendString by assumption. reflexivity.
Qed.

Lemma parse_value_lbrace fuel depth name Y :
  (depth < json.maxNestingDepth)%N →
  json.parse_value (S fuel) depth (lbrace :: encode.key name ++ Y)
  = json.parse_members fuel (depth + 1) [] (encode.key name ++ Y).
Proof.
  intros Hd. rewrite key_app. cbn [json.parse_value json.skip_space].
  change (json.isSpace lbrace) with false. cbv iota.
  change (json.isc lbrace "{") with true. cbv iota.
  destruct (N.leb_spec json.maxNestingDepth depth); [lia |].
  change (json.isSpace json.quote) with false. cbv iota.
  change (json.isc json.quote "}") with false. cbv iota. reflexivity.
Qed.

(** One member of an object: the key, the value, and the byte behind. *)
Lemma parse_members_step fuel depth acc name v text c tail :
  plain_name name →
  json.parse_value fuel depth (text ++ c :: tail) = json.Ok (v, c :: tail) →
  json.isSpace c = false →
  json.parse_members (S fuel) depth acc (encode.key name ++ text ++ c :: tail)
  = if json.isc c ","
    then json.parse_members fuel depth ((str name, v) :: acc) tail
    else if json.isc c "}"
         then json.Ok (json.Object (rev ((str name, v) :: acc)), tail)
         else json.SyntaxError.
Proof.
  intros Hname Hv Hc. rewrite key_app.
  cbn [json.parse_members json.skip_space].
  change (json.isSpace json.quote) with false. cbv iota.
  change (Ascii.eqb json.quote json.quote) with true. cbv iota.
  rewrite Hname. cbn [json.skip_space].
  change (json.isSpace colon) with false. cbv iota.
  change (json.isc colon ":") with true. cbv iota.
  rewrite Hv. cbn [json.skip_space]. rewrite Hc. reflexivity.
Qed.

(** One element of an array. *)
Lemma parse_elements_step fuel depth acc v text c tail :
  json.parse_value fuel depth (text ++ c :: tail) = json.Ok (v, c :: tail) →
  json.isSpace c = false →
  json.parse_elements (S fuel) depth acc (text ++ c :: tail)
  = if json.isc c ","
    then json.parse_elements fuel depth (v :: acc) tail
    else if json.isc c "]"
         then json.Ok (json.Array (rev (v :: acc)), tail)
         else json.SyntaxError.
Proof.
  intros Hv Hc. cbn [json.parse_elements]. rewrite Hv.
  cbn [json.skip_space]. rewrite Hc. reflexivity.
Qed.

Lemma item_text it rest :
  encode.item it ++ rest
  = lbrace :: encode.key "id" ++ encode.appendString (ID it) ++
    comma :: encode.key "text" ++ encode.appendString (Original it) ++
    if bool_decide (Translation it = []) then rbrace :: rest
    else comma :: encode.key "translation" ++
         encode.appendString (Translation it) ++ rbrace :: rest.
Proof.
  unfold encode.item. destruct (bool_decide (Translation it = []));
    rewrite <- !app_assoc; reflexivity.
Qed.

Lemma parse_value_item fuel depth it rest :
  item_valid it → (depth < json.maxNestingDepth)%N →
  json.parse_value (5 + fuel) depth (encode.item it ++ rest)
  = json.Ok (item_value it, rest).
Proof.
  intros (H1 & H2 & H3) Hd. rewrite item_text. unfold item_value.
  cbn [plus]. rewrite parse_value_lbrace by assumption.
  rewrite (parse_members_step _ _ _ "id" (json.String (ID it)));
    [| apply plain_id | apply parse_value_string, H1 | reflexivity].
  change (json.isc comma ",") with true. cbv iota.
  destruct (bool_decide (Translation it = [])).
  - rewrite (parse_members_step _ _ _ "text" (json.String (Original it)));
      [| apply plain_text | apply parse_value_string, H2 | reflexivity].
    reflexivity.
  - rewrite (parse_members_step _ _ _ "text" (json.String (Original it)));
      [| apply plain_text | apply parse_value_string, H2 | reflexivity].
    change (json.isc comma ",") with true. cbv iota.
    rewrite (parse_members_step _ _ _ "translation"
               (json.String (Translation it)));
      [| apply plain_translation | apply parse_value_string, H3 | reflexivity].
    reflexivity.
Qed.

Lemma item_head it : ∃ t, encode.item it = lbrace :: t.
Proof. unfold encode.item. eexists. reflexivity. Qed.

(** The elements of an array of items, up to the closing bracket. *)
Lemma parse_elements_items its : ∀ fuel depth acc it rest,
  Forall item_valid (it :: its) → (depth < json.maxNestingDepth)%N →
  json.parse_elements (length its + 6 + fuel) depth acc
    (strings.Join (encode.item <$> it :: its) (str ",") ++ rbracket :: rest)
  = json.Ok (json.Array (rev acc ++ (item_value <$> it :: its)), rest).
Proof.
  induction its as [| it' its IH]; intros fuel depth acc it rest Hv Hd.
  - apply Forall_cons in Hv as [Hit _]. cbn [fmap list_fmap strings.Join length plus].
    rewrite (parse_elements_step _ _ _ (item_value it));
      [| apply (parse_value_item fuel), Hd; exact Hit | reflexivity].
    reflexivity.
  - apply Forall_cons in Hv as [Hit Hv].
    change (strings.Join (encode.item <$> it :: it' :: its) (str ","))
      with (encode.item it ++ str "," ++
            strings.Join (encode.item <$> it' :: its) (str ",")).
    rewrite <- !app_assoc. cbn [str list_ascii_of_string app].
    change (length (it' :: its) + 6 + fuel)%nat
      with (S (length its + 6 + fuel)).
    rewrite (parse_elements_step _ _ _ (item_value it));
      [| replace (length its + 6 + fuel)%nat with (5 + (length its + 1 + fuel))%nat
           by lia;
         apply parse_value_item; assumption
       | reflexivity].
    change (json.isc "," ",") with true. cbv iota.
    rewrite IH by assumption.
    cbn [rev fmap list_fmap]. rewrite <- app_assoc. reflexivity.
Qed.

Lemma scan_literal_app lit v rest :
  json.scan_literal lit v (str lit ++ rest) = json.Ok (v, rest).
Proof.
  unfold json.scan_literal, strings.HasPrefix, slice_to, slice_from, len.
  rewrite !Nat2Z.id, take_app_length, drop_app_length.
  rewrite length_app.
  replace (Z.of_nat (length (str lit))
           <=? Z.of_nat (length (str lit) + length rest)) with true
    by (symmetry; apply Z.leb_le; lia).
  rewrite (proj2 (bytes_eqb_true _ _) eq_refl). reflexivity.
Qed.

Lemma parse_value_items fuel depth l rest :
  Forall item_valid (default [] l) → (depth < json.maxNestingDepth - 1)%N →
  json.parse_value (length (default [] l) + 7 + fuel) depth
    (encode.items l ++ rest)
  = json.Ok (items_value l, rest).
Proof.
  intros Hv Hd. destruct l as [[| it its] |].
  - change (json.parse_value (S (6 + fuel)) depth (lbracket :: rbracket :: rest)
            = json.Ok (json.Array [], rest)).
    cbn [json.parse_value json.skip_space].
    change (json.isSpace lbracket) with false. cbv iota.
    change (json.isc lbracket "{") with false.
    change (json.isc lbracket "[") with true. cbv iota.
    destruct (N.leb_spec json.maxNestingDepth depth); [lia |].
    reflexivity.
  - change (json.parse_value (S (length its + 7 + fuel)) depth
              (([lbracket] ++
                strings.Join (encode.item <$> it :: its) (str ",") ++
                [rbracket]) ++ rest)
            = json.Ok (json.Array (item_value <$> it :: its), rest)).
    replace (length its + 7 + fuel)%nat
      with (S (length its + 6 + fuel)) by lia.
    destruct (item_head it) as [t Ht].
    rewrite <- !app_assoc. cbn [app json.parse_value json.skip_space].
    change (json.isSpace lbracket) with false. cbv iota.
    change (json.isc lbracket "{") with false.
    change (json.isc lbracket "[") with true. cbv iota.
    destruct (N.leb_spec json.maxNestingDepth depth); [lia |].
    assert (Hsk : ∃ t', strings.Join (encode.item <$> it :: its) (str ",")
                        = lbrace :: t').
    { destruct its; cbn [fmap list_fmap strings.Join]; rewrite Ht;
        eexists; reflexivity. }
    destruct Hsk as [t' Ht']. cbn [fmap list_fmap] in Ht'.
    rewrite Ht' at 1. cbn [app json.skip_space].
    change (json.isSpace lbrace) with false. cbv iota.
    change (json.isc lbrace "]") with false. cbv iota.
    replace (S (length its + 6 + fuel)) with (length its + 6 + S fuel)%nat by lia.
    rewrite (parse_elements_items its (S fuel) (depth + 1) [] it rest);
      [reflexivity | exact Hv | lia].
  - change (json.parse_value (S (6 + fuel)) depth
              (json.ch "n" :: (str "ull" ++ rest))
            = json.Ok (json.Null, rest)).
    cbn [json.parse_value json.skip_space].
    change (json.isSpace (json.ch "n")) with false.
    cbv iota.
    change (json.isc (json.ch "n") "{") with false.
    change (json.isc (json.ch "n") "[") with false.
    change (Ascii.eqb (json.ch "n") json.quote) with false.
    change (json.isc (json.ch "n") "-" || json.isDigit (json.ch "n")) with false.
    change (json.isc (json.ch "n") "t") with false.
    change (json.isc (json.ch "n") "f") with false.
    change (json.isc (json.ch "n") "n") with true. cbv iota.
    apply (scan_literal_app "null").
Qed.

Lemma Join_length (es : list gostring) sep :
  Forall (λ e, (1 ≤ length e)%nat) es →
  (length es ≤ length (strings.Join es sep))%nat.
Proof.
  induction 1 as [| e es He Hes IH]; [simpl; lia |].
  destruct es as [| e' es'].
  - simpl. lia.
  - change (strings.Join (e :: e' :: es') sep)
      with (e ++ sep ++ strings.Join (e' :: es') sep).
    rewrite !length_app. simpl in *. lia.
Qed.

Lemma items_length l :
  (length (default [] l) ≤ length (encode.items l))%nat.
Proof.
  destruct l as [its |]; [| simpl; lia].
  unfold encode.items. cbn [default]. rewrite !length_app.
  pose proof (Join_length (encode.item <$> its) (str ",")) as H.
  rewrite length_fmap in H.
  assert (Hx : (length its
                ≤ length (strings.Join (encode.item <$> its) (str ",")))%nat).
  { apply H. apply Forall_fmap, Forall_forall. intros it _.
    change (1 ≤ length (encode.item it))%nat.
    destruct (item_head it) as [t ->]. simpl. lia. }
  change (map encode.item its) with (encode.item <$> its).
  unfold id. lia.
Qed.

(** [Marshal] writes a JSON text, and [parse] gives its value. *)
Lemma parse_Marshal l :
  Forall item_valid (default [] l) →
  json.parse (encode.Marshal l) = json.Ok (response_value l).
Proof.
  intros Hv. unfold json.parse.
  pose proof (items_length l) as Hlen.
  assert (Hdata : encode.Marshal l
                  = lbrace :: encode.key "results" ++ encode.items l ++ [rbrace]).
  { unfold encode.Marshal. reflexivity. }
  assert (Hfuel : ∃ fuel, (2 * length (encode.Marshal l) + 1
                           = S (S (length (default [] l) + 7 + fuel)))%nat).
  { exists (2 * length (encode.Marshal l) + 1 - (length (default [] l) + 9))%nat.
    rewrite Hdata. simpl length. rewrite !length_app. simpl length. lia. }
  destruct Hfuel as [fuel ->]. rewrite Hdata.
  rewrite parse_value_lbrace by (unfold json.maxNestingDepth; lia).
  rewrite (parse_members_step _ _ _ "results" (items_value l));
    [| apply plain_results
     | apply parse_value_items;
       [exact Hv | unfold json.maxNestingDepth; lia]
     | reflexivity].
  reflexivity.
Qed.

(** ** The values written by [Marshal] are decoded to the results *)

Lemma into_item_item_value it :
  decode.into_item (item_value it) zeroItem None = (it, None).
Proof.
  destruct it as [id orig tr]. unfold item_value. cbn [ID Original Translation].
  case_bool_decide as Htr.
  - subst tr. reflexivity.
  - reflexivity.
Qed.

Lemma into_slots_item_values its :
  decode.into_slots (item_value <$> its) [] None = (its, [], None).
Proof.
  induction its as [| it its IH]; [reflexivity |].
  cbn [fmap list_fmap decode.into_slots hd tl].
  rewrite into_item_item_value.
  change (list_fmap _ _ item_value its) with (item_value <$> its).
  rewrite IH. reflexivity.
Qed.

Lemma into_response_response_value l :
  decode.into_response (response_value l) zeroResponse None
  = (mkResponse (mkSlice l []), None).
Proof.
  unfold response_value. cbn [decode.into_response fold_left].
  change (json.field_for response_fields (str "results")) with (Some F_Results).
  cbv iota. cbn [Results zeroResponse].
  destruct l as [[| it its] |]; [reflexivity | | reflexivity].
  cbn [items_value decode.into_slice fmap list_fmap].
  change (default [] (elems nilSlice) ++ stale nilSlice)
    with (@nil TranslationItem).
  change (item_value it :: (item_value <$> its))
    with (item_value <$> it :: its).
  rewrite (into_slots_item_values (it :: its)). reflexivity.
Qed.

(** The extractor on what [Marshal] writes of results with valid
    strings. *)
Lemma extractResults_Marshal l :
  Forall item_valid (default [] l) →
  extractResults (encode.Marshal l) = Returned l.
Proof.
  intros Hv. unfold extractResults, decode.Unmarshal.
  rewrite sanitizeJSON_Marshal, (parse_Marshal l Hv).
  rewrite into_response_response_value. reflexivity.
Qed.

(** C8: when the extractor returns results, the results written again by
    [json.Marshal] as an object with the field [results] are extracted
    with success, to the same results. *)
Theorem extract_is_idempotent (raw : gostring)
    (l : option (list TranslationItem)) :
  extractResults raw = Returned l →
  extractResults (encode.Marshal l) = Returned l.
Proof.
  intros H. apply extractResults_Marshal, (extractResults_valid raw), H.
Qed.

Lemma extract_is_idempotent_witness :
  extractResults unfenced_input = Returned (Some [item_5x]) ∧
  extractResults (encode.Marshal (Some [item_5x])) = Returned (Some [item_5x]).
Proof.
  assert (H : extractResults unfenced_input = Returned (Some [item_5x]))
    by (vm_compute; reflexivity).
  split; [exact H |].
  exact (extract_is_idempotent unfenced_input _ H).
Defined.

(** ** [sanitizeJSON] slices inside the string *)

Lemma HasPrefix_length s sub :
  strings.HasPrefix s sub = true → len sub ≤ len s.
Proof.
  unfold strings.HasPrefix. intros H. apply andb_true_iff in H as [H _].
  apply Z.leb_le, H.
Qed.

Lemma Index_from_range s sub : ∀ i,
  strings.Index_from i s sub = -1 ∨
  i ≤ strings.Index_from i s sub ≤ i + len s.
Proof.
  induction s as [| c s IH]; intros i; cbn [strings.Index_from].
  - destruct (strings.HasPrefix [] sub); [right; unfold len; simpl; lia | left; reflexivity].
  - destruct (strings.HasPrefix (c :: s) sub).
    + right. unfold len. simpl length. lia.
    + destruct (IH (i + 1)) as [H | H]; [left; exact H | right].
      unfold len in *. simpl length. lia.
Qed.

Lemma LastIndex_from_range s sub : sub ≠ [] → ∀ i,
  strings.LastIndex_from i s sub = -1 ∨
  i ≤ strings.LastIndex_from i s sub < i + len s.
Proof.
  intros Hsub. induction s as [| c s IH]; intros i; cbn [strings.LastIndex_from].
  - destruct (strings.HasPrefix [] sub) eqn:E; [| left; reflexivity].
    apply HasPrefix_length in E. destruct sub; [congruence |].
    unfold len in E. simpl in E. lia.
  - destruct (IH (i + 1)) as [H | H].
    + rewrite H. simpl.
      destruct (strings.HasPrefix (c :: s) sub); [right | left; reflexivity].
      unfold len. simpl length. lia.
    + destruct (0 <=? strings.LastIndex_from (i + 1) s sub).
      * right. unfold len in *. simpl length. lia.
      * destruct (strings.HasPrefix (c :: s) sub); [right | left; reflexivity].
        unfold len. simpl length. lia.
Qed.

(** Where [sanitizeJSON] takes [input[start : end+1]], the bounds are
    inside [input]: the slice expression of the source does not panic. *)
Lemma sanitizeJSON_slice_in_bounds (input : gostring) :
  let start := strings.Index input (str "{") in
  let end_ := strings.LastIndex input (str "}") in
  negb (start =? -1) && negb (end_ =? -1) && (start <? end_) = true →
  0 ≤ start ≤ end_ + 1 ∧ end_ + 1 ≤ len input.
Proof.
  intros start end_ H.
  apply andb_true_iff in H as [H H3]. apply andb_true_iff in H as [H1 H2].
  apply negb_true_iff, Z.eqb_neq in H1, H2. apply Z.ltb_lt in H3.
  destruct (Index_from_range input (str "{") 0) as [E | E];
    [contradiction |].
  destruct (LastIndex_from_range input (str "}") ltac:(discriminate) 0)
    as [E' | E']; [contradiction |].
  change (strings.Index_from 0 input (str "{")) with start in E.
  change (strings.LastIndex_from 0 input (str "}")) with end_ in E'. lia.
Qed.

(** ** Runes at the ends of a string *)

Lemma first_spec p0 sz lo hi :
  utf8.first p0 = Some (sz, lo, hi) →
  (sz = 2 ∨ sz = 3 ∨ sz = 4)%nat ∧ (0x80 ≤ lo)%N ∧ (hi ≤ 0xBF)%N ∧
  (0xC2 ≤ p0)%N.
Proof.
  unfold utf8.first.
  repeat match goal with
  | |- context [if ?c then _ else _] => destruct c eqn:?
  end; intros [= <- <- <-] || intros [=];
  (split; [tauto | split; [lia | split; [lia |]]]);
  match goal with H : (p0 <? 0xC2)%N = false |- _ => apply N.ltb_ge in H; exact H end.
Qed.

Lemma DecodeRune_ascii c r :
  (byte_val c < 0x80)%N → utf8.DecodeRune (c :: r) = (byte_val c, 1%nat).
Proof.
  intros H. unfold utf8.DecodeRune, utf8.RuneSelf.
  destruct (N.ltb_spec (byte_val c) 0x80); [reflexivity | lia].
Qed.

Ltac decode_cases :=
  unfold utf8.DecodeRune, utf8.RuneSelf;
  repeat match goal with
  | |- context [utf8.first ?p] =>
    let Hf := fresh "Hf" in
    destruct (utf8.first p) as [[[? ?] ?] |] eqn:Hf;
    [apply first_spec in Hf; destruct Hf as ([-> | [-> | ->]] & ? & ? & ?) |]
  end.

Lemma DecodeRune_size p :
  ((utf8.DecodeRune p).2 ≤ length p)%nat ∧
  (p ≠ [] → 1 ≤ (utf8.DecodeRune p).2)%nat.
Proof.
  destruct p as [| c0 p1]; [simpl; split; [lia | congruence] |].
  unfold utf8.DecodeRune.
  destruct (byte_val c0 <? utf8.RuneSelf)%N; [simpl; split; lia |].
  destruct (utf8.first (byte_val c0)) as [[[sz lo] hi] |] eqn:Hf;
    [| simpl; split; lia].
  apply first_spec in Hf. destruct Hf as (Hsz & _).
  destruct (length (c0 :: p1) <? sz)%nat eqn:El; [simpl; split; lia |].
  apply Nat.ltb_ge in El.
  repeat match goal with
  | |- context [if ?c then _ else _] => destruct c eqn:?
  end; cbn [snd]; simpl length in *;
  repeat match goal with
  | H : (_ <=? _)%nat = true |- _ => apply Nat.leb_le in H
  | H : (_ <=? _)%nat = false |- _ => apply Nat.leb_gt in H
  end; split; lia.
Qed.

Ltac split_ifs :=
  repeat match goal with
  | |- context [if ?c then _ else _] => destruct c eqn:?
  end.

Ltac bool_facts :=
  repeat match goal with
  | H : (_ <? _)%N = true |- _ => apply N.ltb_lt in H
  | H : (_ <? _)%N = false |- _ => apply N.ltb_ge in H
  | H : (_ <=? _)%N = true |- _ => apply N.leb_le in H
  | H : (_ <=? _)%N = false |- _ => apply N.leb_gt in H
  | H : (_ =? _)%N = true |- _ => apply N.eqb_eq in H
  | H : (_ =? _)%N = false |- _ => apply N.eqb_neq in H
  | H : (_ <? _)%nat = true |- _ => apply Nat.ltb_lt in H
  | H : (_ <? _)%nat = false |- _ => apply Nat.ltb_ge in H
  | H : (_ <=? _)%nat = true |- _ => apply Nat.leb_le in H
  | H : (_ <=? _)%nat = false |- _ => apply Nat.leb_gt in H
  | H : (_ || _) = true |- _ => apply orb_true_iff in H
  | H : (_ || _) = false |- _ => apply orb_false_iff in H; destruct H
  | H : (_ && _) = true |- _ => apply andb_true_iff in H; destruct H
  | H : (_ && _) = false |- _ => apply andb_false_iff in H
  | H : negb _ = true |- _ => apply negb_true_iff in H
  | H : negb _ = false |- _ => apply negb_false_iff in H
  end.

(** A rune of two bytes or more starts with a leading byte. *)
Lemma DecodeRune_lead p r n :
  utf8.DecodeRune p = (r, n) → (2 ≤ n)%nat →
  ∃ c0 p1, p = c0 :: p1 ∧ (0xC2 ≤ byte_val c0)%N.
Proof.
  destruct p as [| c0 p1]; [intros [= <- <-]; lia |].
  intros H Hn. exists c0, p1. split; [reflexivity |]. revert H.
  unfold utf8.DecodeRune.
  destruct (byte_val c0 <? utf8.RuneSelf)%N; [intros [= <- <-]; lia |].
  destruct (utf8.first (byte_val c0)) as [[[sz lo] hi] |] eqn:Hf;
    [| intros [= <- <-]; lia].
  apply first_spec in Hf. tauto.
Qed.

(** A byte outside ASCII that does not start a rune of two bytes or
    more is an error of width one. *)
Lemma DecodeRune_width_1 p r :
  utf8.DecodeRune p = (r, 1%nat) →
  ∃ c0 p1, p = c0 :: p1 ∧
    ((byte_val c0 < 0x80)%N ∧ r = byte_val c0 ∨
     (0x80 ≤ byte_val c0)%N ∧ r = utf8.RuneError).
Proof.
  destruct p as [| c0 p1]; [intros [=] |].
  intros H. exists c0, p1. split; [reflexivity |]. revert H.
  unfold utf8.DecodeRune, utf8.RuneSelf.
  destruct (N.ltb_spec (byte_val c0) 0x80);
    [intros [= <-]; left; split; [assumption | reflexivity] |].
  right. split; [assumption |]. revert H0.
  destruct (utf8.first (byte_val c0)) as [[[sz lo] hi] |] eqn:Hf;
    [| intros [= <-]; reflexivity].
  split_ifs; intros [= <-] || intros [=]; reflexivity.
Qed.

(** What a rune of two bytes or more is read from is not changed by the
    bytes after it. *)
Lemma DecodeRune_app_valid p q r n :
  utf8.DecodeRune p = (r, n) → (2 ≤ n)%nat →
  utf8.DecodeRune (p ++ q) = (r, n).
Proof.
  destruct p as [| c0 p1]; [intros [= <- <-]; lia |].
  intros H Hn. revert H. cbn [app]. unfold utf8.DecodeRune.
  destruct (byte_val c0 <? utf8.RuneSelf)%N; [intros [= <- <-]; lia |].
  destruct (utf8.first (byte_val c0)) as [[[sz lo] hi] |] eqn:Hf;
    [| intros [= <- <-]; lia].
  apply first_spec in Hf. destruct Hf as (Hsz & _).
  destruct (length (c0 :: p1) <? sz)%nat eqn:El; [intros [= <- <-]; lia |].
  apply Nat.ltb_ge in El. cbn [length] in El.
  replace (length (c0 :: p1 ++ q) <? sz)%nat with false
    by (symmetry; apply Nat.ltb_ge; cbn [length]; rewrite length_app; lia).
  destruct Hsz as [-> | [-> | ->]];
    rewrite ?(app_nth1 p1 q zero (n := 0)), ?(app_nth1 p1 q zero (n := 1)),
            ?(app_nth1 p1 q zero (n := 2)) by lia;
    first [ exact (λ H, H)
          | cbn [Nat.leb]; rewrite ?(app_nth1 p1 q zero (n := 0)) by lia;
            split_ifs; intros [= <- <-]; try lia; reflexivity ].
Qed.

(** Nor is any rune changed by bytes after it that do not continue
    it. *)
Lemma DecodeRune_app_noncont p b q :
  p ≠ [] → utf8.cont (byte_val b) = false →
  utf8.DecodeRune (p ++ b :: q) = utf8.DecodeRune p.
Proof.
  destruct p as [| c0 p1]; [congruence |]. intros _ Hb.
  cbn [app]. unfold utf8.DecodeRune.
  destruct (byte_val c0 <? utf8.RuneSelf)%N; [reflexivity |].
  destruct (utf8.first (byte_val c0)) as [[[sz lo] hi] |] eqn:Hf;
    [| reflexivity].
  apply first_spec in Hf. destruct Hf as (Hsz & Hlo & Hhi & _).
  unfold utf8.cont in *.
  destruct p1 as [| c1 [| c2 [| c3 p1]]]; destruct Hsz as [-> | [-> | ->]];
    cbn [app length nth Nat.ltb Nat.leb]; try reflexivity;
    split_ifs; bool_facts; try reflexivity; exfalso;
    repeat (match goal with H : _ ∨ _ |- _ => destruct H end; bool_facts);
    lia.
Qed.

(** A rune that is not white space at the start of a string is not
    white space at the start of a prefix of the string: the prefix
    starts with the same rune or cuts it, and a cut rune is an error. *)
Lemma DecodeRune_take k t :
  utf8.DecodeRune (take k t) = utf8.DecodeRune t ∨
  (utf8.DecodeRune (take k t)).1 = utf8.RuneError.
Proof.
  destruct k as [| k]; [right; reflexivity |].
  destruct t as [| c0 t1]; [left; reflexivity |].
  cbn [take]. unfold utf8.DecodeRune.
  destruct (byte_val c0 <? utf8.RuneSelf)%N; [left; reflexivity |].
  destruct (utf8.first (byte_val c0)) as [[[sz lo] hi] |] eqn:Hf;
    [| left; reflexivity].
  apply first_spec in Hf. destruct Hf as (Hsz & Hlo & Hhi & _).
  destruct t1 as [| c1 [| c2 [| c3 t1]]];
    destruct k as [| [| [| k]]]; destruct Hsz as [-> | [-> | ->]];
    cbn [take length nth Nat.ltb Nat.leb fst];
    try (left; reflexivity); try (right; reflexivity);
    split_ifs; try (left; reflexivity); try (right; reflexivity).
Qed.

Lemma IsSpace_RuneError : unicode.IsSpace utf8.RuneError = false.
Proof. reflexivity. Qed.

Lemma no_lead_space_take k t : no_lead_space t → no_lead_space (take k t).
Proof.
  unfold no_lead_space. intros H.
  destruct (DecodeRune_take k t) as [E | E]; rewrite E; [exact H | reflexivity].
Qed.

Lemma back_to_start_le k s st lim : utf8.back_to_start k s st lim ≤ st.
Proof.
  revert st. induction k as [| k IH]; intros st; simpl; [lia |].
  destruct (st <? lim); [lia |].
  destruct (utf8.RuneStart (byte_at s st)); [lia |].
  specialize (IH (st - 1)). lia.
Qed.

(** The three ways in which [DecodeLastRune] reads the end of a string:
    an ASCII byte, a byte that ends no rune, and a rune of two bytes or
    more that [DecodeRune] reads from where it starts. *)
Lemma DecodeLastRune_cases s r size :
  s ≠ [] → utf8.DecodeLastRune s = (r, size) →
  (1 ≤ size ≤ length s)%nat ∧
  ∃ d, s !! (length s - 1)%nat = Some d ∧
    ((byte_val d < 0x80)%N ∧ size = 1%nat ∧ r = byte_val d ∨
     (0x80 ≤ byte_val d)%N ∧ size = 1%nat ∧ r = utf8.RuneError ∨
     (2 ≤ size)%nat ∧ utf8.DecodeRune (drop (length s - size) s) = (r, size)).
Proof.
  intros Hne. assert (Hlen : (1 ≤ length s)%nat).
  { destruct s; [congruence | simpl; lia]. }
  destruct (lookup_lt_is_Some_2 s (length s - 1)) as [d Hd]; [lia |].
  assert (Hnth : nth (length s - 1) s zero = d)
    by (rewrite nth_lookup, Hd; reflexivity).
  unfold utf8.DecodeLastRune, len, byte_at, utf8.RuneSelf, utf8.UTFMax.
  destruct (Z.eqb_spec (Z.of_nat (length s)) 0) as [E | _]; [lia |].
  replace (Z.to_nat (Z.of_nat (length s) - 1)) with (length s - 1)%nat by lia.
  rewrite Hnth.
  destruct (N.ltb_spec (byte_val d) 0x80) as [Ha | Ha]; cbv beta iota zeta.
  { intros [= <- <-]. split; [lia |]. exists d. split; [exact Hd |].
    left. repeat split; assumption. }
  set (lim := Z.max (Z.of_nat (length s) - 4) 0).
  pose proof (back_to_start_le 4 s (Z.of_nat (length s) - 2) lim) as Hb.
  set (start := Z.max (utf8.back_to_start 4 s (Z.of_nat (length s) - 2) lim) 0)
    in *.
  assert (Hs : 0 ≤ start ≤ Z.of_nat (length s) - 1) by lia.
  unfold slice.
  rewrite (take_ge (drop (Z.to_nat start) s))
    by (rewrite length_drop; lia).
  destruct (utf8.DecodeRune (drop (Z.to_nat start) s)) as [r' sz'] eqn:Ed.
  destruct (Z.eqb_spec (start + Z.of_nat sz') (Z.of_nat (length s)))
    as [E | E]; intros [= <- <-].
  - assert (Est : Z.to_nat start = (length s - sz')%nat) by lia.
    split; [lia |]. exists d. split; [exact Hd |].
    destruct sz' as [| [| n]]; [lia | |].
    + right. left. split; [assumption |]. split; [reflexivity |].
      apply DecodeRune_width_1 in Ed as (c0 & p1 & Ep & Hc).
      assert (c0 = d) as ->.
      { assert (H0 : drop (Z.to_nat start) s !! 0%nat = Some c0)
          by (rewrite Ep; reflexivity).
        rewrite lookup_drop, Est in H0.
        replace (length s - 1 + 0)%nat with (length s - 1)%nat in H0 by lia.
        congruence. }
      destruct Hc as [[Hc _] | [_ Hc]]; [lia | exact Hc].
    + right. right. split; [lia |]. rewrite <- Est. exact Ed.
  - split; [lia |]. exists d. split; [exact Hd |].
    right. left. repeat split; assumption.
Qed.

Lemma DecodeLastRune_ascii x d :
  (byte_val d < 0x80)%N → utf8.DecodeLastRune (x ++ [d]) = (byte_val d, 1%nat).
Proof.
  intros H. unfold utf8.DecodeLastRune, len, byte_at, utf8.RuneSelf.
  rewrite length_app. cbn [length].
  destruct (Z.eqb_spec (Z.of_nat (length x + 1)) 0) as [E | _]; [lia |].
  replace (Z.to_nat (Z.of_nat (length x + 1) - 1)) with (length x) by lia.
  rewrite nth_lookup, list_lookup_middle by reflexivity. cbn [default].
  unfold id. destruct (N.ltb_spec (byte_val d) 0x80); [reflexivity | lia].
Qed.

(** The block of bytes that [DecodeLastRune] reads as a white space
    starts with a byte that does not continue a rune. *)
Lemma space_block_start u r size :
  u ≠ [] → utf8.DecodeLastRune u = (r, size) → unicode.IsSpace r = true →
  ∃ c, u !! (length u - size)%nat = Some c ∧ utf8.cont (byte_val c) = false.
Proof.
  intros Hne Hd Hsp.
  destruct (DecodeLastRune_cases u r size Hne Hd)
    as (Hsz & d & Hl & [(Ha & -> & _) | [(_ & _ & ->) | (H2 & Hdec)]]).
  - exists d. split; [exact Hl |]. unfold utf8.cont.
    apply andb_false_iff. left. apply N.leb_gt. exact Ha.
  - discriminate Hsp.
  - destruct (DecodeRune_lead _ _ _ Hdec H2) as (c0 & p1 & Ep & Hc).
    exists c0. split.
    + assert (H0 : drop (length u - size) u !! 0%nat = Some c0)
        by (rewrite Ep; reflexivity).
      rewrite lookup_drop in H0.
      replace (length u - size + 0)%nat with (length u - size)%nat in H0 by lia.
      exact H0.
    + unfold utf8.cont. apply andb_false_iff. right. apply N.leb_gt. lia.
Qed.

(** ** [TrimRightFunc] and [TrimLeftFunc] for white space *)

Lemma byte_at_lookup s j c : s !! Z.to_nat j = Some c → byte_at s j = c.
Proof. intros H. unfold byte_at. rewrite nth_lookup, H. reflexivity. Qed.

(** The loop of [lastIndexFunc]: when it is entered at the end of the
    string or before a byte that does not continue a rune, it stops
    after a rune that is not white space, read by [DecodeLastRune], and
    what follows that rune does not continue it either. *)
Lemma lastIndexFunc_go_space n s : ∀ i,
  0 ≤ i ≤ len s → (Z.to_nat i ≤ n)%nat →
  (i = len s ∨
   ∃ c, s !! Z.to_nat i = Some c ∧ utf8.cont (byte_val c) = false) →
  strings.lastIndexFunc_go n s unicode.IsSpace false i = -1 ∨
  ∃ r size,
    let j := strings.lastIndexFunc_go n s unicode.IsSpace false i in
    0 ≤ j ∧ (1 ≤ size)%nat ∧ j + Z.of_nat size ≤ i ∧
    utf8.DecodeLastRune (slice_to s (j + Z.of_nat size)) = (r, size) ∧
    unicode.IsSpace r = false ∧
    (j + Z.of_nat size = len s ∨
     ∃ c, s !! Z.to_nat (j + Z.of_nat size) = Some c ∧
          utf8.cont (byte_val c) = false).
Proof.
  induction n as [| n IH]; intros i Hi Hn Hb; [left; reflexivity |].
  cbn [strings.lastIndexFunc_go].
  destruct (Z.leb_spec i 0) as [| Hpos]; [left; reflexivity |].
  assert (Hlen : length (slice_to s i) = Z.to_nat i).
  { unfold slice_to. rewrite length_take. unfold len in Hi. lia. }
  assert (Hne : slice_to s i ≠ []).
  { intros E. rewrite E in Hlen. simpl in Hlen. lia. }
  destruct (utf8.DecodeLastRune (slice_to s i)) as [r size] eqn:Ed.
  destruct (DecodeLastRune_cases _ _ _ Hne Ed) as (Hsz & _).
  rewrite Hlen in Hsz.
  destruct (unicode.IsSpace r) eqn:Esp; cbn [Bool.eqb].
  - destruct (space_block_start _ _ _ Hne Ed Esp) as (c & Hc & Hcont).
    rewrite Hlen in Hc. unfold slice_to in Hc.
    rewrite lookup_take_lt in Hc by lia.
    destruct (IH (i - Z.of_nat size)) as [E | (r' & size' & H)].
    + lia.
    + lia.
    + right. exists c. split; [| exact Hcont].
      replace (Z.to_nat (i - Z.of_nat size)) with (Z.to_nat i - size)%nat
        by lia. exact Hc.
    + left. exact E.
    + right. exists r', size'. cbv zeta in *.
      destruct H as (H1 & H2 & H3 & H4 & H5 & H6).
      repeat split; try assumption. lia.
  - right. exists r, size. cbv zeta.
    replace (i - Z.of_nat size + Z.of_nat size) with i by lia.
    repeat split; try assumption; lia.
Qed.

(** Where [TrimRightFunc] cuts after such a rune: the width it reads
    forwards is the width that was read backwards. *)
Lemma TrimRightFunc_at s j r size :
  0 ≤ j → (1 ≤ size)%nat → j + Z.of_nat size ≤ len s →
  utf8.DecodeLastRune (slice_to s (j + Z.of_nat size)) = (r, size) →
  (j + Z.of_nat size = len s ∨
   ∃ c, s !! Z.to_nat (j + Z.of_nat size) = Some c ∧
        utf8.cont (byte_val c) = false) →
  (if (0 <=? j) && (utf8.RuneSelf <=? byte_val (byte_at s j))%N
   then j + Z.of_nat (snd (utf8.DecodeRune (slice_from s j)))
   else j + 1) = j + Z.of_nat size.
Proof.
  intros Hj Hsize Hle Hd Hb. unfold len in *.
  set (u := slice_to s (j + Z.of_nat size)) in *.
  assert (Hlen : length u = (Z.to_nat j + size)%nat).
  { unfold u, slice_to. rewrite length_take. lia. }
  assert (Hne : u ≠ []).
  { intros E. rewrite E in Hlen. simpl in Hlen. lia. }
  destruct (Z.leb_spec 0 j) as [_ |]; [| lia]. cbn [andb].
  assert (Hsplit : slice_from s j = drop (Z.to_nat j) u ++
                                    drop (Z.to_nat j + size) s).
  { unfold slice_from, u, slice_to.
    replace (Z.to_nat (j + Z.of_nat size)) with (Z.to_nat j + size)%nat by lia.
    rewrite <- (take_drop (Z.to_nat j + size) s) at 1.
    rewrite drop_app_le by (rewrite length_take; lia). reflexivity. }
  destruct (DecodeLastRune_cases _ _ _ Hne Hd)
    as (_ & d & Hl & [(Ha & -> & _) | [(Ha & -> & _) | (H2 & Hdec)]]).
  - (* an ASCII byte *)
    rewrite Hlen in Hl. unfold u, slice_to in Hl.
    rewrite lookup_take_lt in Hl by lia.
    replace (Z.to_nat j + 1 - 1)%nat with (Z.to_nat j) in Hl by lia.
    rewrite (byte_at_lookup _ _ _ Hl). unfold utf8.RuneSelf.
    destruct (N.leb_spec 0x80 (byte_val d)); lia.
  - (* a byte that ends no rune *)
    rewrite Hlen in Hl.
    replace (Z.to_nat j + 1 - 1)%nat with (Z.to_nat j) in Hl by lia.
    assert (Hu : drop (Z.to_nat j) u = [d]).
    { apply list_eq. intros [| k].
      - rewrite lookup_drop, Nat.add_0_r. exact Hl.
      - rewrite lookup_drop. simpl. apply lookup_ge_None_2. lia. }
    unfold u, slice_to in Hl. rewrite lookup_take_lt in Hl by lia.
    rewrite (byte_at_lookup _ _ _ Hl). unfold utf8.RuneSelf.
    destruct (N.leb_spec 0x80 (byte_val d)); [| lia].
    rewrite Hsplit, Hu.
    assert (Hw : (utf8.DecodeRune [d]).2 = 1%nat).
    { pose proof (DecodeRune_size [d]) as [H1 H2]. cbn [length] in H1.
      specialize (H2 ltac:(discriminate)). lia. }
    destruct Hb as [Hb | (c & Hc & Hcont)].
    + rewrite drop_ge by lia. rewrite app_nil_r, Hw. lia.
    + replace (Z.to_nat (j + Z.of_nat 1)) with (Z.to_nat j + 1)%nat in Hc
        by lia.
      destruct (drop (Z.to_nat j + 1) s) as [| c' q] eqn:Eq.
      * apply (f_equal length) in Eq. rewrite length_drop in Eq. simpl in Eq.
        apply lookup_lt_Some in Hc. lia.
      * assert (c' = c) as ->.
        { assert (H0 : drop (Z.to_nat j + 1) s !! 0%nat = Some c')
            by (rewrite Eq; reflexivity).
          rewrite lookup_drop, Nat.add_0_r in H0. congruence. }
        rewrite DecodeRune_app_noncont by (done || assumption).
        rewrite Hw. lia.
  - (* a rune of two bytes or more *)
    rewrite Hlen in Hdec.
    replace (Z.to_nat j + size - size)%nat with (Z.to_nat j) in Hdec by lia.
    destruct (DecodeRune_lead _ _ _ Hdec H2) as (c0 & p1 & Ep & Hc0).
    assert (Hj0 : s !! Z.to_nat j = Some c0).
    { assert (H0 : drop (Z.to_nat j) u !! 0%nat = Some c0)
        by (rewrite Ep; reflexivity).
      rewrite lookup_drop, Nat.add_0_r in H0. unfold u, slice_to in H0.
      rewrite lookup_take_lt in H0 by lia. exact H0. }
    rewrite (byte_at_lookup _ _ _ Hj0). unfold utf8.RuneSelf.
    destruct (N.leb_spec 0x80 (byte_val c0)); [| lia].
    rewrite Hsplit, (DecodeRune_app_valid _ _ _ _ Hdec H2). reflexivity.
Qed.

Lemma no_trail_space_nil : no_trail_space [].
Proof. reflexivity. Qed.

Lemma no_lead_space_nil : no_lead_space [].
Proof. reflexivity. Qed.

(** What [TrimRightFunc] leaves does not end with white space. *)
Lemma TrimRightFunc_no_trail_space s :
  no_trail_space (strings.TrimRightFunc s unicode.IsSpace).
Proof.
  unfold strings.TrimRightFunc, strings.lastIndexFunc.
  destruct (lastIndexFunc_go_space (length s) s (len s))
    as [E | (r & size & H)].
  - unfold len. lia.
  - unfold len. lia.
  - left. reflexivity.
  - rewrite E. cbn. apply no_trail_space_nil.
  - cbv zeta in H. destruct H as (H1 & H2 & H3 & H4 & H5 & H6).
    rewrite (TrimRightFunc_at _ _ r size) by assumption.
    unfold no_trail_space. rewrite H4. exact H5.
Qed.

(** A string that does not end with white space is left as it is. *)
Lemma TrimRightFunc_fix s :
  no_trail_space s → strings.TrimRightFunc s unicode.IsSpace = s.
Proof.
  intros H. destruct s as [| c s']; [reflexivity |].
  set (s := c :: s') in *.
  assert (Hne : s ≠ []) by discriminate.
  assert (Hall : slice_to s (len s) = s).
  { unfold slice_to, len. rewrite Nat2Z.id. apply firstn_all. }
  destruct (utf8.DecodeLastRune s) as [r size] eqn:Ed.
  destruct (DecodeLastRune_cases _ _ _ Hne Ed) as (Hsz & _).
  assert (Hi : strings.lastIndexFunc s unicode.IsSpace false
               = len s - Z.of_nat size).
  { unfold strings.lastIndexFunc.
    change (length s) with (S (length s')) at 1.
    cbn [strings.lastIndexFunc_go].
    destruct (Z.leb_spec (len s) 0) as [Hl |]; [unfold len in Hl; simpl in Hl; lia |].
    rewrite Hall, Ed. unfold no_trail_space in H. rewrite Ed in H.
    cbn [fst] in H. rewrite H. reflexivity. }
  unfold strings.TrimRightFunc. rewrite Hi.
  rewrite (TrimRightFunc_at _ _ r size).
  - replace (len s - Z.of_nat size + Z.of_nat size) with (len s) by lia.
    exact Hall.
  - unfold len. lia.
  - lia.
  - lia.
  - replace (len s - Z.of_nat size + Z.of_nat size) with (len s) by lia.
    rewrite Hall. exact Ed.
  - left. lia.
Qed.

(** What [TrimLeftFunc] leaves does not start with a rune that
    satisfies [f]. *)
Lemma TrimLeftFunc_go_no_lead f skip s :
  f (utf8.DecodeRune (strings.TrimLeftFunc_go f skip s)).1 = false ∨
  strings.TrimLeftFunc_go f skip s = [].
Proof.
  revert skip. induction s as [| c r IH]; intros skip; [right; reflexivity |].
  cbn [strings.TrimLeftFunc_go]. destruct skip as [| k]; [| apply IH].
  destruct (utf8.DecodeRune (c :: r)) as [rn size] eqn:Ed.
  destruct (f rn) eqn:Ef; [apply IH |].
  left. rewrite Ed. exact Ef.
Qed.

Lemma TrimLeftFunc_no_lead_space s :
  no_lead_space (strings.TrimLeftFunc s unicode.IsSpace).
Proof.
  unfold strings.TrimLeftFunc, no_lead_space.
  destruct (TrimLeftFunc_go_no_lead unicode.IsSpace 0 s) as [H | H];
    [exact H | rewrite H; reflexivity].
Qed.

Lemma TrimLeftFunc_fix s :
  no_lead_space s → strings.TrimLeftFunc s unicode.IsSpace = s.
Proof.
  unfold no_lead_space, strings.TrimLeftFunc. intros H.
  destruct s as [| c r]; [reflexivity |]. cbn [strings.TrimLeftFunc_go].
  destruct (utf8.DecodeRune (c :: r)) as [rn size]. cbn [fst] in H.
  rewrite H. reflexivity.
Qed.

Lemma take_length_take (k : nat) (s : gostring) :
  take (length (take k s)) s = take k s.
Proof.
  rewrite length_take. destruct (Nat.le_gt_cases k (length s)).
  - f_equal. lia.
  - rewrite !take_ge by lia. reflexivity.
Qed.

Lemma TrimRightFunc_take s f :
  strings.TrimRightFunc s f = take (length (strings.TrimRightFunc s f)) s.
Proof.
  unfold strings.TrimRightFunc, slice_to. cbv zeta.
  rewrite take_length_take. reflexivity.
Qed.

(** ** [TrimSpace] *)

Lemma asciiSpace_IsSpace c :
  (byte_val c < 0x80)%N → strings.asciiSpace c = unicode.IsSpace (byte_val c).
Proof.
  intros H. unfold strings.asciiSpace, unicode.IsSpace.
  destruct (N.leb_spec (byte_val c) 0xFF); [| lia].
  destruct (N.eqb_spec (byte_val c) 0x85); [lia |].
  destruct (N.eqb_spec (byte_val c) 0xA0); [lia |].
  rewrite !orb_false_r. reflexivity.
Qed.

(** The first loop stops at the end, at a byte outside ASCII, or at an
    ASCII byte that is not a space; what it leaves is the end of the
    string. *)
Lemma TrimSpace_start_spec s :
  let '(s1, na) := strings.TrimSpace_start s in
  (∃ sp, s = sp ++ s1 ∧ Forall (λ c, strings.asciiSpace c = true) sp) ∧
  match s1 with
  | [] => na = false
  | c :: _ =>
    if na then (0x80 ≤ byte_val c)%N
    else (byte_val c < 0x80)%N ∧ strings.asciiSpace c = false
  end.
Proof.
  induction s as [| c r IH]; cbn [strings.TrimSpace_start].
  - split; [exists []; split; [reflexivity | constructor] | reflexivity].
  - unfold utf8.RuneSelf.
    destruct (N.leb_spec 0x80 (byte_val c)) as [Hc | Hc].
    + split; [exists []; split; [reflexivity | constructor] | exact Hc].
    + destruct (strings.asciiSpace c) eqn:Esp.
      * destruct (strings.TrimSpace_start r) as [s1 na].
        destruct IH as ((sp & -> & Hsp) & IH). split; [| exact IH].
        exists (c :: sp). split; [reflexivity | constructor; assumption].
      * split; [exists []; split; [reflexivity | constructor] |].
        split; assumption.
Qed.

Lemma TrimSpace_stop_spec s :
  let '(s1, na) := strings.TrimSpace_stop s in
  (∃ sp, s = sp ++ s1 ∧ Forall (λ c, strings.asciiSpace c = true) sp) ∧
  match s1 with
  | [] => na = false
  | c :: _ =>
    if na then (0x80 ≤ byte_val c)%N
    else (byte_val c < 0x80)%N ∧ strings.asciiSpace c = false
  end.
Proof.
  induction s as [| c r IH]; cbn [strings.TrimSpace_stop].
  - split; [exists []; split; [reflexivity | constructor] | reflexivity].
  - unfold utf8.RuneSelf.
    destruct (N.leb_spec 0x80 (byte_val c)) as [Hc | Hc].
    + split; [exists []; split; [reflexivity | constructor] | exact Hc].
    + destruct (strings.asciiSpace c) eqn:Esp.
      * destruct (strings.TrimSpace_stop r) as [s1 na].
        destruct IH as ((sp & -> & Hsp) & IH). split; [| exact IH].
        exists (c :: sp). split; [reflexivity | constructor; assumption].
      * split; [exists []; split; [reflexivity | constructor] |].
        split; assumption.
Qed.

(** A trimmed string neither starts nor ends with white space. *)
Lemma TrimSpace_trimmed s : no_space_around (strings.TrimSpace s).
Proof.
  unfold strings.TrimSpace.
  pose proof (TrimSpace_start_spec s) as H1.
  destruct (strings.TrimSpace_start s) as [s1 na].
  destruct H1 as (_ & H1). destruct na.
  - unfold strings.TrimFunc. split; [| apply TrimRightFunc_no_trail_space].
    rewrite TrimRightFunc_take. apply no_lead_space_take.
    apply TrimLeftFunc_no_lead_space.
  - assert (Hs1 : no_lead_space s1).
    { destruct s1 as [| c r]; [reflexivity |]. destruct H1 as [Ha Hsp].
      unfold no_lead_space. rewrite DecodeRune_ascii by assumption.
      cbn [fst]. rewrite <- asciiSpace_IsSpace by assumption. exact Hsp. }
    pose proof (TrimSpace_stop_spec (rev s1)) as H2.
    destruct (strings.TrimSpace_stop (rev s1)) as [rs2 na2].
    destruct H2 as ((sp & E & _) & H2).
    assert (Hpre : rev rs2 = take (length (rev rs2)) s1).
    { apply (f_equal (@rev ascii)) in E.
      rewrite rev_involutive, rev_app_distr in E. rewrite E.
      rewrite take_app_length. reflexivity. }
    assert (Hlead : no_lead_space (rev rs2)).
    { rewrite Hpre. apply no_lead_space_take, Hs1. }
    destruct na2.
    + split; [| apply TrimRightFunc_no_trail_space].
      rewrite TrimRightFunc_take. apply no_lead_space_take, Hlead.
    + split; [exact Hlead |].
      destruct rs2 as [| d x]; [reflexivity |]. destruct H2 as [Ha Hsp].
      cbn [rev]. unfold no_trail_space.
      rewrite DecodeLastRune_ascii by assumption. cbn [fst].
      rewrite <- asciiSpace_IsSpace by assumption. exact Hsp.
Qed.

(** And such a string is left as it is by [TrimSpace]. *)
Lemma TrimSpace_fix t : no_space_around t → strings.TrimSpace t = t.
Proof.
  intros [Hlead Htrail]. destruct t as [| c r]; [reflexivity |].
  unfold strings.TrimSpace. cbn [strings.TrimSpace_start].
  unfold utf8.RuneSelf.
  destruct (N.leb_spec 0x80 (byte_val c)) as [Hc | Hc].
  - unfold strings.TrimFunc. rewrite (TrimLeftFunc_fix _ Hlead).
    apply TrimRightFunc_fix, Htrail.
  - assert (Hsp : strings.asciiSpace c = false).
    { rewrite asciiSpace_IsSpace by assumption.
      unfold no_lead_space in Hlead.
      rewrite DecodeRune_ascii in Hlead by assumption. exact Hlead. }
    rewrite Hsp.
    destruct (exists_last (l := c :: r) ltac:(discriminate)) as (x & d & E).
    rewrite E in *. rewrite rev_unit. cbn [strings.TrimSpace_stop].
    unfold utf8.RuneSelf.
    destruct (N.leb_spec 0x80 (byte_val d)) as [Hd | Hd].
    + rewrite <- rev_unit, rev_involutive. apply TrimRightFunc_fix, Htrail.
    + assert (Hsd : strings.asciiSpace d = false).
      { rewrite asciiSpace_IsSpace by assumption.
        unfold no_trail_space in Htrail.
        rewrite DecodeLastRune_ascii in Htrail by assumption. exact Htrail. }
      rewrite Hsd. rewrite <- rev_unit, rev_involutive. reflexivity.
Qed.

Lemma TrimSpace_idempotent s :
  strings.TrimSpace (strings.TrimSpace s) = strings.TrimSpace s.
Proof. apply TrimSpace_fix, TrimSpace_trimmed. Qed.

(** *** A trimmed string is a part of the string *)

Lemma TrimLeftFunc_go_suffix f skip s :
  ∃ a, s = a ++ strings.TrimLeftFunc_go f skip s.
Proof.
  revert skip. induction s as [| c r IH]; intros skip; [exists []; reflexivity |].
  cbn [strings.TrimLeftFunc_go]. destruct skip as [| k].
  - destruct (utf8.DecodeRune (c :: r)) as [rn size].
    destruct (f rn); [| exists []; reflexivity].
    destruct (IH (size - 1)%nat) as [a Ha]. exists (c :: a).
    cbn [app]. rewrite <- Ha. reflexivity.
  - destruct (IH k) as [a Ha]. exists (c :: a). cbn [app]. rewrite <- Ha.
    reflexivity.
Qed.

Lemma TrimRightFunc_prefix s f : ∃ b, s = strings.TrimRightFunc s f ++ b.
Proof.
  exists (drop (length (strings.TrimRightFunc s f)) s).
  rewrite (TrimRightFunc_take s f) at 1. symmetry. apply take_drop.
Qed.

(** [TrimSpace] takes bytes away at the two ends only. *)
Lemma TrimSpace_infix s : ∃ a b, s = a ++ strings.TrimSpace s ++ b.
Proof.
  unfold strings.TrimSpace.
  pose proof (TrimSpace_start_spec s) as H1.
  destruct (strings.TrimSpace_start s) as [s1 na].
  destruct H1 as ((sp & -> & _) & _). destruct na.
  - unfold strings.TrimFunc, strings.TrimLeftFunc.
    destruct (TrimLeftFunc_go_suffix unicode.IsSpace 0 s1) as [a Ha].
    destruct (TrimRightFunc_prefix
                (strings.TrimLeftFunc_go unicode.IsSpace 0 s1) unicode.IsSpace)
      as [b Hb].
    exists (sp ++ a), b. rewrite <- app_assoc. f_equal.
    rewrite <- Hb. exact Ha.
  - pose proof (TrimSpace_stop_spec (rev s1)) as H2.
    destruct (strings.TrimSpace_stop (rev s1)) as [rs2 na2].
    destruct H2 as ((sp' & E & _) & _).
    apply (f_equal (@rev ascii)) in E.
    rewrite rev_involutive, rev_app_distr in E. destruct na2.
    + destruct (TrimRightFunc_prefix (rev rs2) unicode.IsSpace) as [b Hb].
      exists sp, (b ++ rev sp'). rewrite E. f_equal.
      rewrite app_assoc, <- Hb. reflexivity.
    + exists sp, (rev sp'). rewrite E. reflexivity.
Qed.


(** *** An ASCII space at the end is trimmed away *)










(** ** The work list: reading after removing *)


Lemma dropCR_cases data :
  bufio.dropCR data = data ∨ data = bufio.dropCR data ++ [bufio.cr].
Proof.
  unfold bufio.dropCR.
  destruct (Z.ltb_spec 0 (len data)) as [Hl |]; [| left; reflexivity].
  cbn [andb].
  destruct (Ascii.eqb_spec (byte_at data (len data - 1)) bufio.cr) as [E |];
    [| left; reflexivity].
  right. destruct (exists_last (l := data)) as (x & d & ->).
  { intros ->. unfold len in Hl. simpl in Hl. lia. }
  unfold len, byte_at, slice_to in *. rewrite length_app in *.
  cbn [length] in *.
  replace (Z.to_nat (Z.of_nat (length x + 1) - 1)) with (length x) in * by lia.
  rewrite take_app_length.
  rewrite nth_lookup, list_lookup_middle in E by reflexivity.
  cbn in E. rewrite E. reflexivity.
Qed.


Lemma dropCR_subseteq data : bufio.dropCR data ⊆ data.
Proof.
  destruct (dropCR_cases data) as [E | E]; [rewrite E; reflexivity |].
  rewrite E at 2. intros x Hx. apply elem_of_app. left. exact Hx.
Qed.


Lemma TrimSpace_nil : strings.TrimSpace [] = [].
Proof. reflexivity. Qed.

Lemma eqb_newline c : Ascii.eqb c newline = bool_decide (c = newline).
Proof.
  destruct (Ascii.eqb_spec c newline) as [-> | H].
  - rewrite bool_decide_eq_true_2; reflexivity.
  - rewrite bool_decide_eq_false_2; [reflexivity | assumption].
Qed.



Lemma ScanLines_go_one_line s : ∀ cur,
  newline ∉ cur →
  Forall (λ t, newline ∉ t) (bufio.ScanLines_go cur s).1.
Proof.
  induction s as [| c r IH]; intros cur Hcur; cbn [bufio.ScanLines_go].
  - destruct (bytes_eqb cur []); [constructor |].
    destruct (bufio.MaxScanTokenSize <=? len cur); [constructor |].
    cbn [fst]. rewrite Forall_singleton. intros H. apply dropCR_subseteq in H.
    rewrite elem_of_rev in H. contradiction.
  - rewrite eqb_newline. case_bool_decide as Hc.
    + destruct (bufio.MaxScanTokenSize <=? len cur); [constructor |].
      specialize (IH [] (not_elem_of_nil _)).
      destruct (bufio.ScanLines_go [] r) as [tokens tooLong]. cbn [fst] in *.
      constructor; [| exact IH].
      intros H. apply dropCR_subseteq in H.
      rewrite elem_of_rev in H. contradiction.
    + apply IH. apply not_elem_of_cons. split; [congruence | assumption].
Qed.

(** The loop of [readProjects] is a filter of the trimmed lines. *)
Lemma readProjects_loop texts :
  fold_left (λ lines text,
             let line := strings.TrimSpace text in
             if is_project line then lines ++ [line] else lines) texts []
  = filter (λ l, is_project l = true) (strings.TrimSpace <$> texts).
Proof.
  enough (H : ∀ acc,
    fold_left (λ lines text,
               let line := strings.TrimSpace text in
               if is_project line then lines ++ [line] else lines) texts acc
    = acc ++ filter (λ l, is_project l = true) (strings.TrimSpace <$> texts))
    by apply (H []).
  induction texts as [| t texts IH]; intros acc; simpl.
  - rewrite app_nil_r. reflexivity.
  - rewrite IH, filter_cons.
    destruct (is_project (strings.TrimSpace t)) eqn:E.
    + rewrite decide_True by reflexivity. rewrite <- app_assoc. reflexivity.
    + rewrite decide_False by discriminate. reflexivity.
Qed.


Lemma Split_Join_blanks c (ls : list gostring) :
  Forall (λ l, c ∉ l) ls →
  ∃ blanks, strings.Split (strings.Join ls [c] ++ [c]) [c] = ls ++ blanks ∧
            Forall (λ l, l = []) blanks.
Proof.
  intros Hc. destruct ls as [| l ls].
  - exists [[]; []]. split; [| repeat constructor].
    unfold strings.Split. simpl.
    rewrite HasPrefix_cons_single, bool_decide_eq_true_2 by reflexivity.
    reflexivity.
  - exists [[]]. split; [apply Split_Join, Hc | repeat constructor].
Qed.

Lemma fmap_TrimSpace_fix (ls : list gostring) :
  Forall (λ l, strings.TrimSpace l = l) ls → strings.TrimSpace <$> ls = ls.
Proof.
  induction 1 as [| l ls Hl _ IH]; [reflexivity |].
  cbn [fmap list_fmap]. rewrite Hl. f_equal. exact IH.
Qed.

Lemma filter_blanks (P : gostring → Prop) `{∀ x, Decision (P x)}
    (ls : list gostring) :
  (∀ l, P l → l ≠ []) → Forall (λ l, l = []) ls →
  filter P (strings.TrimSpace <$> ls) = [].
Proof.
  intros HP. induction 1 as [| l ls Hl _ IH]; [reflexivity |]. subst l.
  cbn [fmap list_fmap]. rewrite TrimSpace_nil, filter_cons_False; [exact IH |].
  intros HP'. apply (HP [] HP'). reflexivity.
Qed.

Lemma filter_ext_Forall (P Q : gostring → Prop) `{∀ x, Decision (P x)}
    `{∀ x, Decision (Q x)} (ls : list gostring) :
  Forall (λ l, P l ↔ Q l) ls → filter P ls = filter Q ls.
Proof.
  induction 1 as [| l ls Hl _ IH]; [reflexivity |].
  rewrite !filter_cons, IH.
  destruct (decide (P l)), (decide (Q l)); (tauto || reflexivity).
Qed.

Lemma normal_lines_filter (P : gostring → Prop) `{∀ x, Decision (P x)} kept :
  normal_lines kept → normal_lines (filter P kept).
Proof.
  unfold normal_lines. rewrite !Forall_forall. intros Hk l Hl.
  apply list_elem_of_filter in Hl as [_ Hl]. apply Hk, Hl.
Qed.

Lemma keep_lines_normal data unit :
  normal_lines (keep_lines (strings.Split data nl) unit).
Proof.
  unfold normal_lines. apply Forall_forall. intros l Hl.
  pose proof (keep_lines_one_line data unit) as H1.
  rewrite Forall_forall in H1. specialize (H1 l Hl).
  rewrite keep_lines_filter in Hl.
  apply list_elem_of_filter in Hl as [[Hne _] Hl].
  apply list_elem_of_fmap in Hl as (line & -> & _).
  split; [apply TrimSpace_idempotent | split; assumption].
Qed.

(** The pieces of a file that holds normal lines: the lines, and empty
    pieces after them. *)
Lemma Split_normal_file kept :
  normal_lines kept →
  ∃ blanks, strings.Split (strings.Join kept nl ++ nl) nl = kept ++ blanks ∧
            Forall (λ l, l = []) blanks.
Proof.
  intros Hn. apply (Split_Join_blanks newline kept).
  eapply Forall_impl; [exact Hn | simpl; tauto].
Qed.

(** The lines kept of such a file. *)
Lemma keep_lines_normal_file kept unit :
  normal_lines kept →
  keep_lines (strings.Split (strings.Join kept nl ++ nl) nl) unit
  = filter (λ l, l ≠ unit) kept.
Proof.
  intros Hn. rewrite keep_lines_filter.
  destruct (Split_normal_file kept Hn) as (blanks & -> & Hb).
  rewrite fmap_app, filter_app.
  rewrite fmap_TrimSpace_fix
    by (eapply Forall_impl; [exact Hn | simpl; tauto]).
  rewrite (filter_blanks _ blanks) by (tauto || assumption).
  rewrite app_nil_r. apply filter_ext_Forall.
  eapply Forall_impl; [exact Hn | simpl; tauto].
Qed.

(** A removal from a file of normal lines. *)
Lemma removeURLFromFile_normal fs path kept unit :
  normal_lines kept →
  removeURLFromFile (<[path := strings.Join kept nl ++ nl]> fs) path unit
  = (<[path := strings.Join (filter (λ l, l ≠ unit) kept) nl ++ nl]> fs, false).
Proof.
  intros Hn. unfold removeURLFromFile, ReadFile, WriteFile.
  rewrite lookup_insert_eq, insert_insert_eq.
  rewrite keep_lines_normal_file by assumption. reflexivity.
Qed.

Lemma removeURLFromFile_first fs path data unit :
  fs !! path = Some data →
  removeURLFromFile fs path unit
  = (<[path := strings.Join (keep_lines (strings.Split data nl) unit) nl ++ nl]>
       fs, false).
Proof.
  intros H. unfold removeURLFromFile, ReadFile, WriteFile. rewrite H.
  reflexivity.
Qed.

Lemma removeURLFromFile_missing fs path unit :
  fs !! path = None → removeURLFromFile fs path unit = (fs, true).
Proof.
  intros H. unfold removeURLFromFile, ReadFile. rewrite H. reflexivity.
Qed.

(** Two removals, one after the other. *)
Lemma removeURLFromFile_twice fs path data u1 u2 :
  fs !! path = Some data →
  removeURLFromFile (removeURLFromFile fs path u1).1 path u2
  = (<[path := strings.Join
                 (filter (λ l, l ≠ [] ∧ l ≠ u1 ∧ l ≠ u2)
                         (strings.TrimSpace <$> strings.Split data nl)) nl
               ++ nl]> fs, false).
Proof.
  intros H. rewrite (removeURLFromFile_first _ _ _ _ H). cbn [fst].
  rewrite removeURLFromFile_normal by apply keep_lines_normal.
  rewrite keep_lines_filter, list_filter_filter. do 4 f_equal.
  apply list_filter_iff. tauto.
Qed.









(** ** The workers of [main] *)

Lemma succeeded_cons_failed u done :
  succeeded ((u, true) :: done) = succeeded done.
Proof. reflexivity. Qed.

Lemma succeeded_cons_done u done :
  succeeded ((u, false) :: done) = u :: succeeded done.
Proof. reflexivity. Qed.

Lemma workers_done_missing fs path done :
  fs !! path = None → workers_done fs path done = fs.
Proof.
  intros H. induction done as [| [u failed] done IH]; [reflexivity |].
  cbn [workers_done fold_left] in *. unfold finish_worker at 2.
  destruct failed; [exact IH |].
  rewrite removeURLFromFile_missing by assumption. exact IH.
Qed.

Lemma workers_done_normal fs path done : ∀ kept,
  normal_lines kept →
  workers_done (<[path := strings.Join kept nl ++ nl]> fs) path done
  = <[path := strings.Join (filter (λ l, l ∉ succeeded done) kept) nl ++ nl]>
      fs.
Proof.
  induction done as [| [u failed] done IH]; intros kept Hn.
  - cbn [workers_done fold_left]. rewrite filter_all; [reflexivity |].
    apply Forall_forall. intros l _. apply not_elem_of_nil.
  - change (workers_done ?f path ((u, failed) :: done))
      with (workers_done (finish_worker f path u failed) path done).
    unfold finish_worker. destruct failed.
    + rewrite succeeded_cons_failed. apply IH, Hn.
    + rewrite removeURLFromFile_normal by assumption. cbn [fst].
      rewrite IH by (apply normal_lines_filter, Hn).
      rewrite succeeded_cons_done, list_filter_filter. do 3 f_equal.
      apply list_filter_iff. intros l. rewrite not_elem_of_cons. tauto.
Qed.

(** The files when all workers are done: the work list is rewritten as
    soon as one project is done with, and then holds the lines that are
    not blank and not among the projects done with. *)
Lemma workers_done_file fs path data done :
  fs !! path = Some data →
  workers_done fs path done =
  match succeeded done with
  | [] => fs
  | us => <[path := strings.Join
                      (filter (λ l, l ≠ [] ∧ l ∉ us)
                              (strings.TrimSpace <$> strings.Split data nl)) nl
                    ++ nl]> fs
  end.
Proof.
  intros Hf. induction done as [| [u failed] done IH]; [reflexivity |].
  change (workers_done fs path ((u, failed) :: done))
    with (workers_done (finish_worker fs path u failed) path done).
  unfold finish_worker. destruct failed.
  - rewrite succeeded_cons_failed. exact IH.
  - rewrite (removeURLFromFile_first _ _ _ _ Hf). cbn [fst].
    rewrite workers_done_normal by apply keep_lines_normal.
    rewrite succeeded_cons_done, keep_lines_filter, list_filter_filter.
    do 3 f_equal. apply list_filter_iff. intros l.
    rewrite not_elem_of_cons. tauto.
Qed.

(** X1: whatever the file holds, and also when the scanner gives up on
    a line that is too long, every line that [readProjects] returns is
    a project: it is not empty, it does not start with [#], it holds no
    newline, and it is trimmed, [TrimSpace] leaves it as it is. *)
Theorem readProjects_gives_projects (fs : gmap gostring gostring)
    (path : gostring) :
  Forall (λ l, l ≠ [] ∧ strings.HasPrefix l (str "#") = false ∧
               strings.TrimSpace l = l ∧ newline ∉ l)
         (readProjects fs path).1.
Proof.
  unfold readProjects. destruct (fs !! path) as [data |]; [| constructor].
  pose proof (ScanLines_go_one_line data [] (not_elem_of_nil _)) as Hone.
  destruct (bufio.ScanLines_go [] data) as [texts tooLong]. cbn [fst] in *.
  rewrite readProjects_loop. apply Forall_forall. intros l Hl.
  apply list_elem_of_filter in Hl as [Hp Hl].
  apply list_elem_of_fmap in Hl as (text & -> & Htext).
  unfold is_project in Hp. apply andb_true_iff in Hp as [H1 H2].
  apply negb_true_iff in H1, H2. apply bytes_eqb_false in H1.
  repeat split; [assumption | assumption | apply TrimSpace_idempotent |].
  intros Hn. rewrite Forall_forall in Hone. apply (Hone text Htext).
  apply (TrimSpace_subseteq text), Hn.
Qed.



(** X3: removals from the work list commute, and a second removal of
    the same unit changes nothing: the files and the error are the
    same, also when the file is missing. *)
Theorem removeURLFromFile_commutes (fs : gmap gostring gostring)
    (path u1 u2 : gostring) :
  removeURLFromFile (removeURLFromFile fs path u1).1 path u2
  = removeURLFromFile (removeURLFromFile fs path u2).1 path u1 ∧
  removeURLFromFile (removeURLFromFile fs path u1).1 path u1
  = removeURLFromFile fs path u1.
Proof.
  destruct (fs !! path) as [data |] eqn:Hf.
  - split.
    + rewrite !(removeURLFromFile_twice _ _ _ _ _ Hf). do 4 f_equal.
      apply list_filter_iff. tauto.
    + rewrite (removeURLFromFile_twice _ _ _ _ _ Hf).
      rewrite (removeURLFromFile_first _ _ _ _ Hf), keep_lines_filter.
      do 4 f_equal. apply list_filter_iff. tauto.
  - repeat (rewrite !(removeURLFromFile_missing _ _ _ Hf); cbn [fst]).
    split; reflexivity.
Qed.



(** X5: the files at the end do not depend on the order in which the
    workers come to their end. *)
Theorem workers_done_any_order (fs : gmap gostring gostring)
    (path : gostring) (done done' : list (gostring * bool)) :
  done ≡ₚ done' → workers_done fs path done = workers_done fs path done'.
Proof.
  intros Hp.
  assert (Hs : succeeded done ≡ₚ succeeded done').
  { unfold succeeded. apply fmap_Permutation, filter_Permutation, Hp. }
  destruct (fs !! path) as [data |] eqn:Hf.
  - rewrite !(workers_done_file _ _ _ _ Hf).
    destruct (succeeded done) as [| u us] eqn:E1;
      destruct (succeeded done') as [| u' us'] eqn:E2.
    + reflexivity.
    + apply Permutation_nil_cons in Hs. contradiction.
    + symmetry in Hs. apply Permutation_nil_cons in Hs. contradiction.
    + do 3 f_equal. apply list_filter_iff. intros l. rewrite Hs. tauto.
  - rewrite !workers_done_missing by assumption. reflexivity.
Qed.

Lemma workers_done_any_order_witness :
  workers_done {[ projects_path := two_units_file ]} projects_path
               [(unit_a, false); (unit_b, false)]
  = workers_done {[ projects_path := two_units_file ]} projects_path
                 [(unit_b, false); (unit_a, false)].
Proof.
  apply workers_done_any_order. apply perm_swap.
Defined.

(** ** The collector: what a row does to the state *)

Lemma visit_row_cases rs sn k row :
  visit_row (rs, sn, k) row = (rs, sn, k) ∧
  (data_id row = [] ∨ seen_at sn (data_id row) = true) ∨
  data_id row ≠ [] ∧ seen_at sn (data_id row) = false ∧
  visit_row (rs, sn, k) row
  = (if row_is_empty row then rs ++ [item_of row] else rs,
     <[data_id row := true]> sn, k + 1).
Proof.
  unfold visit_row.
  destruct (bytes_eqb (data_id row) []) eqn:Eid; cbn [orb].
  { left. split; [reflexivity |]. left. apply bytes_eqb_true, Eid. }
  destruct (seen_at sn (data_id row)) eqn:Es.
  { left. split; [reflexivity |]. right. reflexivity. }
  right. apply bytes_eqb_false in Eid. split; [exact Eid |].
  split; [reflexivity |]. unfold row_is_empty, item_of.
  destruct ((0 <? empty_count row)
            || bytes_eqb (strings.TrimSpace (cell_text row)) []
            || bytes_eqb (strings.TrimSpace (cell_text row)) (str "Empty"));
    reflexivity.
Qed.

Lemma seen_at_all_true sn id :
  all_true sn → seen_at sn id = false → sn !! id = None.
Proof.
  unfold seen_at. intros Ht H. destruct (sn !! id) as [b |] eqn:E;
    [| reflexivity].
  rewrite (Ht _ _ E) in H. discriminate.
Qed.

Lemma seen_at_true sn id : seen_at sn id = true ↔ sn !! id = Some true.
Proof.
  unfold seen_at. destruct (sn !! id) as [[] |]; simpl; split;
    congruence.
Qed.

(** *** The passes are bounded by the ids that the page can show *)

Section bound.
Variable ids : gset gostring.

Lemma visit_row_within rs sn k row :
  within ids sn → (data_id row ≠ [] → data_id row ∈ ids) →
  within ids (visit_row (rs, sn, k) row).1.2 ∧
  k ≤ (visit_row (rs, sn, k) row).2 ∧
  Z.of_nat (size (dom (visit_row (rs, sn, k) row).1.2))
  = Z.of_nat (size (dom sn)) + ((visit_row (rs, sn, k) row).2 - k).
Proof.
  intros [Ht Hd] Hid.
  destruct (visit_row_cases rs sn k row) as [[-> _] | (Hne & Hs & ->)];
    cbn [fst snd].
  - split; [split; assumption | lia].
  - apply (seen_at_all_true _ _ Ht) in Hs. split; [split | split; [lia |]].
    + apply map_Forall_insert_2; [reflexivity | exact Ht].
    + rewrite dom_insert. apply union_subseteq.
      split; [apply singleton_subseteq_l, Hid, Hne | exact Hd].
    + rewrite dom_insert, size_union, size_singleton.
      * lia.
      * apply disjoint_singleton_l, not_elem_of_dom, Hs.
Qed.

Lemma visit_rows_within rows : ∀ rs sn k,
  within ids sn →
  (∀ row, row ∈ rows → data_id row ≠ [] → data_id row ∈ ids) →
  within ids (fold_left visit_row rows (rs, sn, k)).1.2 ∧
  k ≤ (fold_left visit_row rows (rs, sn, k)).2 ∧
  Z.of_nat (size (dom (fold_left visit_row rows (rs, sn, k)).1.2))
  = Z.of_nat (size (dom sn)) + ((fold_left visit_row rows (rs, sn, k)).2 - k).
Proof.
  induction rows as [| row rows IH]; intros rs sn k Hw Hids; cbn [fold_left].
  - cbn [fst snd]. split; [exact Hw | lia].
  - destruct (visit_row_within rs sn k row Hw) as (Hw1 & Hk1 & Hs1).
    { apply Hids. left. }
    destruct (visit_row (rs, sn, k) row) as [[rs1 sn1] k1]. cbn [fst snd] in *.
    destruct (IH rs1 sn1 k1 Hw1) as (Hw2 & Hk2 & Hs2).
    { intros r Hr. apply Hids. right. exact Hr. }
    split; [exact Hw2 | lia].
Qed.


Lemma pass_left_to_do rows st :
  within ids (seen st) → 0 ≤ noNewElementsCount st < maxNoNewRetries →
  (∀ row, row ∈ rows → data_id row ≠ [] → data_id row ∈ ids) →
  within ids (seen (pass rows st)) ∧
  0 ≤ noNewElementsCount (pass rows st) ∧
  left_to_do ids (pass rows st) ≤ left_to_do ids st - 1.
Proof.
  intros Hw Hc Hids. unfold pass, left_to_do, maxNoNewRetries in *.
  destruct (visit_rows_within rows (results st) (seen st) 0 Hw Hids)
    as (Hw1 & Hk1 & Hs1).
  destruct (fold_left visit_row rows (results st, seen st, 0))
    as [[rs1 sn1] k1]. cbn [fst snd seen noNewElementsCount] in *.
  pose proof (subseteq_size _ _ (proj2 Hw1)) as Hle.
  split; [exact Hw1 |].
  destruct (Z.ltb_spec 0 k1); split; lia.
Qed.

Lemma collect_loop_enough page :
  (∀ n rows row, page n = Some rows → row ∈ rows →
                 data_id row ≠ [] → data_id row ∈ ids) →
  ∀ fuel n st,
  within ids (seen st) → 0 ≤ noNewElementsCount st →
  left_to_do ids st ≤ Z.of_nat fuel →
  ∃ st' n', collect_loop fuel page n st = Some (st', n') ∧
            Z.of_nat n' ≤ Z.of_nat n + Z.max 0 (left_to_do ids st).
Proof.
  intros Hpage. induction fuel as [| fuel IH]; intros n st Hw Hc Hfuel.
  - pose proof (subseteq_size _ _ (proj2 Hw)) as Hle.
    cbn [collect_loop].
    destruct (Z.ltb_spec (noNewElementsCount st) maxNoNewRetries) as [Hlt |].
    + unfold left_to_do in Hfuel. lia.
    + exists st, n. split; [reflexivity | lia].
  - cbn [collect_loop].
    destruct (Z.ltb_spec (noNewElementsCount st) maxNoNewRetries) as [Hlt |];
      [| exists st, n; split; [reflexivity | lia]].
    destruct (page n) as [rows |] eqn:Ep;
      [| exists st, n; split; [reflexivity | lia]].
    destruct (pass_left_to_do rows st Hw) as (Hw1 & Hc1 & Hl1).
    { lia. }
    { intros row. apply (Hpage n rows row Ep). }
    destruct (IH (S n) (pass rows st) Hw1 Hc1) as (st' & n' & E & Hn); [lia |].
    exists st', n'. split; [exact E |].
    pose proof (subseteq_size _ _ (proj2 Hw)) as Hle.
    assert (1 ≤ left_to_do ids st) by (unfold left_to_do; lia). lia.
Qed.

End bound.

(** *** Where the entries of the Batch come from *)

Lemma from_rows_mono (Sh Sh' : Row → Prop) it :
  (∀ row, Sh row → Sh' row) → from_rows Sh it → from_rows Sh' it.
Proof.
  intros H (row & H1 & H2 & H3). exists row. split; [apply H, H1 |].
  split; assumption.
Qed.

Lemma accounted_mono (Sh Sh' : Row → Prop) rs sn :
  (∀ row, Sh row → Sh' row) → accounted Sh rs sn → accounted Sh' rs sn.
Proof.
  intros H Ha id Hid. destruct (Ha id Hid) as [Hin | (row & H1 & H2 & H3)];
    [left; exact Hin | right].
  exists row. split; [apply H, H1 |]. split; assumption.
Qed.

Lemma visit_row_provenance Sh rs sn k row :
  Sh row → all_true sn → Forall (from_rows Sh) rs → accounted Sh rs sn →
  all_true (visit_row (rs, sn, k) row).1.2 ∧
  Forall (from_rows Sh) (visit_row (rs, sn, k) row).1.1 ∧
  accounted Sh (visit_row (rs, sn, k) row).1.1 (visit_row (rs, sn, k) row).1.2 ∧
  (∀ id, sn !! id = Some true →
         (visit_row (rs, sn, k) row).1.2 !! id = Some true) ∧
  (data_id row ≠ [] →
   (visit_row (rs, sn, k) row).1.2 !! data_id row = Some true).
Proof.
  intros Hrow Ht Hf Ha.
  destruct (visit_row_cases rs sn k row)
    as [[-> Hskip] | (Hne & Hs & ->)]; cbn [fst snd].
  - repeat split; try assumption. { intros id H. exact H. }
    intros Hne. destruct Hskip as [E | E]; [contradiction |].
    apply seen_at_true, E.
  - apply (seen_at_all_true _ _ Ht) in Hs. repeat split.
    + apply map_Forall_insert_2; [reflexivity | exact Ht].
    + destruct (row_is_empty row) eqn:Ee; [| exact Hf].
      apply Forall_app. split; [exact Hf |]. apply Forall_singleton.
      exists row. repeat split; assumption.
    + intros id Hid. destruct (decide (id = data_id row)) as [-> | Hn].
      * destruct (row_is_empty row) eqn:Ee.
        -- left. rewrite fmap_app. apply elem_of_app. right.
           apply list_elem_of_singleton. reflexivity.
        -- right. exists row. repeat split; assumption.
      * rewrite lookup_insert_ne in Hid by congruence.
        destruct (Ha id Hid) as [Hin | Hex]; [left | right; exact Hex].
        destruct (row_is_empty row); [| exact Hin].
        rewrite fmap_app. apply elem_of_app. left. exact Hin.
    + intros id Hid. destruct (decide (id = data_id row)) as [-> | Hn].
      * apply lookup_insert_eq.
      * rewrite lookup_insert_ne by congruence. exact Hid.
    + intros _. apply lookup_insert_eq.
Qed.

Lemma visit_rows_provenance Sh rows : ∀ rs sn k,
  (∀ row, row ∈ rows → Sh row) →
  all_true sn → Forall (from_rows Sh) rs → accounted Sh rs sn →
  all_true (fold_left visit_row rows (rs, sn, k)).1.2 ∧
  Forall (from_rows Sh) (fold_left visit_row rows (rs, sn, k)).1.1 ∧
  accounted Sh (fold_left visit_row rows (rs, sn, k)).1.1
            (fold_left visit_row rows (rs, sn, k)).1.2 ∧
  (∀ id, sn !! id = Some true →
         (fold_left visit_row rows (rs, sn, k)).1.2 !! id = Some true) ∧
  (∀ row, row ∈ rows → data_id row ≠ [] →
     (fold_left visit_row rows (rs, sn, k)).1.2 !! data_id row = Some true).
Proof.
  induction rows as [| row rows IH]; intros rs sn k Hrows Ht Hf Ha;
    cbn [fold_left].
  - cbn [fst snd]. repeat split; try assumption. { intros id H. exact H. }
    intros row Hrow. apply elem_of_nil in Hrow. contradiction.
  - destruct (visit_row_provenance Sh rs sn k row) as (H1 & H2 & H3 & H4 & H5);
      try assumption.
    { apply Hrows. left. }
    destruct (visit_row (rs, sn, k) row) as [[rs1 sn1] k1]. cbn [fst snd] in *.
    destruct (IH rs1 sn1 k1) as (I1 & I2 & I3 & I4 & I5); try assumption.
    { intros r Hr. apply Hrows. right. exact Hr. }
    repeat split; try assumption.
    + intros id Hid. apply I4, H4, Hid.
    + intros r Hr Hne. apply elem_of_cons in Hr as [-> | Hr].
      * apply I4, H5, Hne.
      * apply I5; assumption.
Qed.

Lemma shown_S page n row : shown page n row → shown page (S n) row.
Proof.
  intros (m & rows & Hm & Hp & Hr). exists m, rows.
  split; [lia | split; assumption].
Qed.

Lemma pass_collected page n rows st :
  page n = Some rows → collected page n st →
  collected page (S n) (pass rows st).
Proof.
  intros Hp (Ht & Hf & Ha & Hs). unfold collected, pass.
  destruct (visit_rows_provenance (shown page (S n)) rows
              (results st) (seen st) 0) as (H1 & H2 & H3 & H4 & H5).
  - intros row Hrow. exists n, rows. split; [lia | split; assumption].
  - exact Ht.
  - eapply Forall_impl; [exact Hf |]. intros it.
    apply from_rows_mono, shown_S.
  - eapply accounted_mono; [apply shown_S | exact Ha].
  - destruct (fold_left visit_row rows (results st, seen st, 0))
      as [[rs1 sn1] k1]. cbn [fst snd results seen] in *.
    repeat split; try assumption.
    intros row (m & rows' & Hm & Hp' & Hr) Hne.
    destruct (decide (m = n)) as [-> | Hmn].
    + rewrite Hp in Hp'. injection Hp' as <-. apply H5; assumption.
    + apply H4, Hs; [| exact Hne]. exists m, rows'.
      split; [lia | split; assumption].
Qed.

Lemma collect_loop_collected page fuel : ∀ n st st' n',
  collected page n st →
  collect_loop fuel page n st = Some (st', n') →
  collected page n' st'.
Proof.
  induction fuel as [| fuel IH]; intros n st st' n' Hc; cbn [collect_loop].
  - destruct (noNewElementsCount st <? maxNoNewRetries);
      [destruct (page n) |]; intros [= <- <-] || intros [=]; exact Hc.
  - destruct (noNewElementsCount st <? maxNoNewRetries);
      [| intros [= <- <-]; exact Hc].
    destruct (page n) as [rows |] eqn:Hp; [| intros [= <- <-]; exact Hc].
    apply IH, (pass_collected _ _ _ _ Hp Hc).
Qed.

Lemma newCollector_collected page : collected page 0 newCollector.
Proof.
  unfold collected, newCollector. cbn [results seen]. repeat split.
  - apply map_Forall_empty.
  - constructor.
  - intros id H. rewrite lookup_empty in H. discriminate.
  - intros row (m & rows & Hm & _). lia.
Qed.

(** *** The counters at the end of the loop *)

Lemma collect_loop_counters page fuel : ∀ n st st' n',
  0 ≤ noNewElementsCount st ≤ maxNoNewRetries →
  noNewElementsCount st ≤ Z.of_nat n →
  totalScrolled st = scrollStep * Z.of_nat n →
  collect_loop fuel page n st = Some (st', n') →
  (n ≤ n')%nat ∧
  totalScrolled st' = scrollStep * Z.of_nat n' ∧
  0 ≤ noNewElementsCount st' ≤ maxNoNewRetries ∧
  noNewElementsCount st' ≤ Z.of_nat n' ∧
  (noNewElementsCount st' = maxNoNewRetries ∨ page n' = None).
Proof.
  induction fuel as [| fuel IH]; intros n st st' n' Hc Hn Ht;
    cbn [collect_loop].
  - destruct (Z.ltb_spec (noNewElementsCount st) maxNoNewRetries).
    + destruct (page n) eqn:Hp; intros [= <- <-] || intros [=].
      repeat split; try assumption; try lia. right. exact Hp.
    + intros [= <- <-]. repeat split; try assumption; lia.
  - destruct (Z.ltb_spec (noNewElementsCount st) maxNoNewRetries).
    + destruct (page n) as [rows |] eqn:Hp.
      * intros E. apply IH in E as (H1 & H2 & H3 & H4 & H5).
        -- repeat split; try assumption; lia.
        -- unfold pass.
           destruct (fold_left visit_row rows (results st, seen st, 0))
             as [[rs1 sn1] k1]. cbn [noNewElementsCount].
           destruct (0 <? k1); unfold maxNoNewRetries in *; lia.
        -- unfold pass.
           destruct (fold_left visit_row rows (results st, seen st, 0))
             as [[rs1 sn1] k1]. cbn [noNewElementsCount].
           destruct (0 <? k1); lia.
        -- unfold pass.
           destruct (fold_left visit_row rows (results st, seen st, 0))
             as [[rs1 sn1] k1]. cbn [totalScrolled]. lia.
      * intros [= <- <-]. repeat split; try assumption; try lia.
        right. exact Hp.
    + intros [= <- <-]. repeat split; try assumption; lia.
Qed.

(** X6: when the page shows rows with ids of a finite set only, the
    loop of [scrollAndCollect] comes to its end: five passes for every
    id of the set and five more are fuel enough, and it makes no more
    passes than that. *)
Theorem scrollAndCollect_terminates (ids : gset gostring)
    (page : nat → option (list Row)) (fuel : nat) :
  (∀ n rows row, page n = Some rows → row ∈ rows →
                 data_id row ≠ [] → data_id row ∈ ids) →
  (5 * (size ids + 1) ≤ fuel)%nat →
  ∃ st n, collect_loop fuel page 0 newCollector = Some (st, n) ∧
          (n ≤ 5 * (size ids + 1))%nat ∧
          scrollAndCollect fuel page = Some (results st).
Proof.
  intros Hpage Hfuel.
  assert (Hl : left_to_do ids newCollector
               = Z.of_nat (5 * (size ids + 1))).
  { unfold left_to_do, newCollector, maxNoNewRetries.
    cbn [seen noNewElementsCount]. rewrite dom_empty_L, size_empty. lia. }
  destruct (collect_loop_enough ids page Hpage fuel 0 newCollector)
    as (st & n & E & Hn).
  - split; [apply map_Forall_empty |]. cbn [seen newCollector].
    rewrite dom_empty_L. apply empty_subseteq.
  - reflexivity.
  - lia.
  - exists st, n. split; [exact E |]. split; [lia |].
    unfold scrollAndCollect. rewrite E. reflexivity.
Qed.

Lemma growing_page_ids n rows row :
  growing_page n = Some rows → row ∈ rows →
  data_id row ≠ [] → data_id row ∈ growing_ids.
Proof.
  intros [= <-] Hrow _. unfold growing_ids.
  apply elem_of_cons in Hrow as [-> | Hrow];
    [| apply subseteq_take in Hrow;
       repeat (apply elem_of_cons in Hrow as [-> | Hrow]);
       [| | apply elem_of_nil in Hrow; contradiction]]; cbn [data_id].
  - apply elem_of_union_l, elem_of_union_l, elem_of_singleton. reflexivity.
  - apply elem_of_union_l, elem_of_union_r, elem_of_singleton. reflexivity.
  - apply elem_of_union_r, elem_of_singleton. reflexivity.
Qed.

Lemma size_growing_ids : size growing_ids = 3%nat.
Proof.
  unfold growing_ids. rewrite !size_union, !size_singleton; [reflexivity | |].
  - apply disjoint_singleton_l. intros H. apply elem_of_singleton in H.
    discriminate.
  - apply disjoint_union_l. split; apply disjoint_singleton_l; intros H;
      apply elem_of_singleton in H; discriminate.
Qed.

Lemma scrollAndCollect_terminates_witness :
  ∃ st n, collect_loop 20 growing_page 0 newCollector = Some (st, n) ∧
          (n ≤ 20)%nat ∧
          scrollAndCollect 20 growing_page = Some (results st).
Proof.
  destruct (scrollAndCollect_terminates growing_ids growing_page 20
              growing_page_ids) as (st & n & H1 & H2 & H3).
  - rewrite size_growing_ids. simpl. lia.
  - exists st, n. rewrite size_growing_ids in H2.
    split; [exact H1 | split; [exact H2 | exact H3]].
Defined.

(** X7: every entry of the Batch was made from a row that one of the
    passes has been shown and that passed the test for an empty
    translation: its id and its source text are those of the row, the
    text trimmed, so that [TrimSpace] leaves it as it is, and its
    translation is empty. *)
Theorem batch_comes_from_empty_rows (fuel : nat)
    (page : nat → option (list Row)) (st : Collector) (n : nat) :
  collect_loop fuel page 0 newCollector = Some (st, n) →
  Forall (λ it, (∃ row, shown page n row ∧ row_is_empty row = true ∧
                        it = item_of row) ∧
                Translation it = [] ∧
                strings.TrimSpace (Original it) = Original it)
         (results st).
Proof.
  intros E.
  destruct (collect_loop_collected _ _ _ _ _ _ (newCollector_collected page) E)
    as (_ & Hf & _).
  eapply Forall_impl; [exact Hf |]. intros it (row & H1 & H2 & ->).
  split; [exists row; repeat split; assumption |].
  split; [reflexivity |]. apply TrimSpace_idempotent.
Qed.

Lemma batch_comes_from_empty_rows_witness :
  scrollAndCollect 20 growing_page
  = Some [mkItem (str "1") (str "one") []; mkItem (str "3") (str "three") []] ∧
  ∃ st n, collect_loop 20 growing_page 0 newCollector = Some (st, n) ∧
    Forall (λ it, Translation it = [] ∧
                  strings.TrimSpace (Original it) = Original it) (results st).
Proof.
  split; [vm_compute; reflexivity |].
  destruct (collect_loop 20 growing_page 0 newCollector) as [[st n] |] eqn:E.
  - exists st, n. split; [reflexivity |].
    eapply Forall_impl; [apply (batch_comes_from_empty_rows _ _ _ _ E) |].
    simpl. tauto.
  - exfalso. vm_compute in E. discriminate.
Defined.

(** X8: no row that a pass has been shown is lost: at the end its id is
    marked in [seen], and the id has an entry in the Batch unless a row
    with this id that was shown did not pass the test for an empty
    translation. *)
Theorem shown_rows_are_accounted (fuel : nat)
    (page : nat → option (list Row)) (st : Collector) (n : nat) (row : Row) :
  collect_loop fuel page 0 newCollector = Some (st, n) →
  shown page n row → data_id row ≠ [] →
  seen_at (seen st) (data_id row) = true ∧
  (data_id row ∈ (ID <$> results st) ∨
   ∃ row', shown page n row' ∧ data_id row' = data_id row ∧
           row_is_empty row' = false).
Proof.
  intros E Hrow Hne.
  destruct (collect_loop_collected _ _ _ _ _ _ (newCollector_collected page) E)
    as (_ & _ & Ha & Hs).
  specialize (Hs row Hrow Hne). split; [apply seen_at_true, Hs |].
  apply Ha, Hs.
Qed.

Lemma shown_rows_are_accounted_witness :
  ∃ st n, collect_loop 20 growing_page 0 newCollector = Some (st, n) ∧
    seen_at (seen st) (str "3") = true ∧
    (str "3" ∈ (ID <$> results st) ∨
     ∃ row', shown growing_page n row' ∧ data_id row' = str "3" ∧
             row_is_empty row' = false).
Proof.
  destruct (collect_loop 20 growing_page 0 newCollector) as [[st n] |] eqn:E.
  - exists st, n. split; [reflexivity |].
    apply (shown_rows_are_accounted 20 growing_page st n
             (mkRow (str "3") 0 (str "Empty") (Some (str " three ")) []) E).
    + destruct (collect_loop_counters growing_page 20 0 newCollector st n)
        as (_ & _ & _ & H4 & [H5 | H5]);
        [unfold newCollector, maxNoNewRetries; simpl; lia
        | simpl; lia | reflexivity | exact E | | discriminate H5].
      exists 2%nat. eexists. split; [unfold maxNoNewRetries in *; lia |].
      split; [reflexivity |]. right. right. left.
    + discriminate.
  - exfalso. vm_compute in E. discriminate.
Defined.

(** X9: at the end of the loop the distance scrolled, which the wheel
    is turned back by, is 800 for every pass made; the counter of the
    stalls is five, after five passes at least, unless the query of the
    rows failed, which ends the loop at once. *)
Theorem collect_loop_ends (fuel : nat) (page : nat → option (list Row))
    (st : Collector) (n : nat) :
  collect_loop fuel page 0 newCollector = Some (st, n) →
  totalScrolled st = scrollStep * Z.of_nat n ∧
  (noNewElementsCount st = maxNoNewRetries ∧ (5 ≤ n)%nat ∨ page n = None).
Proof.
  intros E.
  destruct (collect_loop_counters page fuel 0 newCollector st n)
    as (_ & H2 & H3 & H4 & H5); try exact E.
  - unfold newCollector, maxNoNewRetries. simpl. lia.
  - simpl. lia.
  - reflexivity.
  - split; [exact H2 |]. destruct H5 as [H5 | H5]; [left | right; exact H5].
    split; [exact H5 |]. unfold maxNoNewRetries in *. lia.
Qed.

Lemma collect_loop_ends_witness :
  ∃ st n, collect_loop 20 growing_page 0 newCollector = Some (st, n) ∧
          totalScrolled st = scrollStep * Z.of_nat n ∧ (5 ≤ n)%nat.
Proof.
  destruct (collect_loop 20 growing_page 0 newCollector) as [[st n] |] eqn:E.
  - exists st, n. split; [reflexivity |].
    destruct (collect_loop_ends 20 growing_page st n E)
      as (H1 & [[_ H2] | H2]); [| discriminate H2].
    split; assumption.
  - exfalso. vm_compute in E. discriminate.
Defined.

(** ** Texts with one member and one element *)

Lemma parses_string fuel depth s :
  utf8_valid s → parses (S fuel) depth (encode.appendString s) (json.String s).
Proof. intros Hs tail. apply parse_value_string, Hs. Qed.

Lemma parses_object1 fuel depth name inner v :
  plain_name name → (depth < json.maxNestingDepth)%N →
  parses fuel (depth + 1) inner v →
  parses (S (S fuel)) depth (object1 name inner)
         (json.Object [(str name, v)]).
Proof.
  intros Hname Hd Hv tail. unfold object1.
  cbn [app]. rewrite <- !app_assoc. cbn [app].
  rewrite parse_value_lbrace by assumption.
  rewrite (parse_members_step _ _ _ name v);
    [reflexivity | exact Hname | apply Hv | reflexivity].
Qed.

Lemma parses_array1 fuel depth c inner v :
  json.isSpace c = false → json.isc c "]" = false →
  (depth < json.maxNestingDepth)%N →
  parses fuel (depth + 1) (c :: inner) v →
  parses (S (S fuel)) depth (array1 (c :: inner)) (json.Array [v]).
Proof.
  intros Hsp Hc Hd Hv tail. unfold array1.
  cbn [app]. rewrite <- !app_assoc. cbn [app json.parse_value json.skip_space].
  change (json.isSpace lbracket) with false. cbv iota.
  change (json.isc lbracket "{") with false.
  change (json.isc lbracket "[") with true. cbv iota.
  destruct (N.leb_spec json.maxNestingDepth depth); [lia |].
  cbn [json.skip_space]. rewrite Hsp, Hc.
  change (c :: inner ++ rbracket :: tail)
    with ((c :: inner) ++ rbracket :: tail).
  rewrite (parse_elements_step _ _ _ v);
    [reflexivity | apply Hv | reflexivity].
Qed.

Lemma parses_parse text v :
  parses (2 * length text + 1) 0 text v → json.parse text = json.Ok v.
Proof.
  intros H. unfold json.parse. specialize (H []). rewrite app_nil_r in H.
  rewrite H. reflexivity.
Qed.

Lemma plain_candidates : plain_name "candidates".
Proof. intros rest. reflexivity. Qed.

Lemma plain_content : plain_name "content".
Proof. intros rest. reflexivity. Qed.

Lemma plain_parts : plain_name "parts".
Proof. intros rest. reflexivity. Qed.

Lemma plain_contents : plain_name "contents".
Proof. intros rest. reflexivity. Qed.

(** ** The answers that are rejected *)

Lemma Index_from_absent c s : ∀ i, 0 ≤ i →
  (strings.Index_from i s [c] = -1 ↔ c ∉ s).
Proof.
  induction s as [| x s IH]; intros i Hi; cbn [strings.Index_from].
  - rewrite HasPrefix_nil_single. split; [intros _; apply not_elem_of_nil | reflexivity].
  - rewrite HasPrefix_cons_single. case_bool_decide as Hx.
    + subst x. split; [lia |]. intros H. exfalso. apply H. left.
    + rewrite IH by lia. rewrite not_elem_of_cons. split; [| tauto].
      intros H. split; [congruence | exact H].
Qed.

Lemma LastIndex_from_absent c s : ∀ i, 0 ≤ i →
  (strings.LastIndex_from i s [c] = -1 ↔ c ∉ s).
Proof.
  induction s as [| x s IH]; intros i Hi; cbn [strings.LastIndex_from].
  - rewrite HasPrefix_nil_single. split; [intros _; apply not_elem_of_nil | reflexivity].
  - rewrite HasPrefix_cons_single. specialize (IH (i + 1) ltac:(lia)).
    destruct (LastIndex_from_range s [c] ltac:(discriminate) (i + 1))
      as [E | E].
    + rewrite E in *. cbn. case_bool_decide as Hx.
      * subst x. split; [lia |]. intros H. exfalso. apply H. left.
      * rewrite not_elem_of_cons. split; [| reflexivity].
        intros _. split; [congruence | apply IH; reflexivity].
    + destruct (Z.leb_spec 0 (strings.LastIndex_from (i + 1) s [c])); [| lia].
      split; [lia |]. rewrite not_elem_of_cons. intros [_ Habs].
      apply IH in Habs. lia.
Qed.

Lemma Index_absent c s : strings.Index s [c] = -1 ↔ c ∉ s.
Proof. apply Index_from_absent. lia. Qed.

Lemma LastIndex_absent c s : strings.LastIndex s [c] = -1 ↔ c ∉ s.
Proof. apply LastIndex_from_absent. lia. Qed.

Lemma extractResults_not_invalid_format raw detail :
  extractResults raw ≠ Failed msg_invalid_format detail.
Proof.
  unfold extractResults.
  destruct (decode.Unmarshal (sanitizeJSON raw) zeroResponse) as [resp [e |]];
    [| discriminate].
  intros H. inversion H.
Qed.

Lemma unwrapEnvelope_not_invalid_format body m detail :
  unwrapEnvelope body m ≠ Failed msg_invalid_format detail.
Proof.
  unfold unwrapEnvelope.
  repeat match goal with
  | |- context [match ?x with _ => _ end] => destruct x
  end; discriminate.
Qed.

(** [valueInterface] of an object. *)
Lemma toAny_Object members :
  toAny (json.Object members) = AMap (store_members members ∅).
Proof.
  cbn [toAny]. f_equal. unfold store_members. generalize (∅ : gmap gostring any).
  induction members as [| [k v] members IH]; intros m; [reflexivity |].
  cbn [fold_left]. apply IH.
Qed.

Lemma store_members_absent key members : ∀ m,
  key ∉ members.*1 → m !! key = None →
  store_members members m !! key = None.
Proof.
  induction members as [| [k v] members IH]; intros m Hk Hm; [exact Hm |].
  cbn [fmap list_fmap fst] in Hk. apply not_elem_of_cons in Hk as [Hne Hk].
  unfold store_members. cbn [fold_left]. apply IH; [exact Hk |].
  rewrite lookup_insert_ne by congruence. exact Hm.
Qed.

Lemma Unmarshal_rawMap_absent body key :
  (∀ members, json.parse body = json.Ok (json.Object members) →
              key ∉ members.*1) →
  Unmarshal_rawMap body !! key = None.
Proof.
  intros H. unfold Unmarshal_rawMap.
  destruct (json.parse body) as [[| | | | | members] | |];
    try apply lookup_empty.
  rewrite toAny_Object. apply store_members_absent; [| apply lookup_empty].
  apply H. reflexivity.
Qed.

(** ** Valid texts *)

Lemma utf8_valid_app a b : utf8_valid a → utf8_valid b → utf8_valid (a ++ b).
Proof.
  intros Ha Hb. induction Ha as [| c s Hc Hs IH | r s Hr Hsc Hs IH].
  - exact Hb.
  - cbn [app]. apply valid_ascii; assumption.
  - rewrite <- app_assoc. apply valid_rune; assumption.
Qed.

Lemma utf8_valid_ascii l :
  Forall (λ c, (byte_val c < 0x80)%N) l → utf8_valid l.
Proof.
  induction 1 as [| c l Hc Hl IH]; [constructor |].
  apply valid_ascii; assumption.
Qed.

Lemma utf8_valid_ascii_b l :
  forallb (λ c, (byte_val c <? 0x80)%N) l = true → utf8_valid l.
Proof.
  intros H. apply utf8_valid_ascii. apply Forall_forall. intros c Hc.
  rewrite forallb_forall in H. apply N.ltb_lt, H, list_elem_of_In, Hc.
Qed.

Ltac ascii_text := apply utf8_valid_ascii_b; vm_compute; reflexivity.

Lemma nth_ascii k (l : gostring) :
  Forall (λ b, (byte_val b < 0x80)%N) l → (byte_val (nth k l zero) < 0x80)%N.
Proof.
  intros H. revert k. induction H as [| b l Hb Hl IH]; intros [| k]; cbn [nth];
    try (vm_compute; reflexivity); [exact Hb | apply IH].
Qed.

Lemma hex_ascii n : (byte_val (encode.hex n) < 0x80)%N.
Proof. apply nth_ascii. vm_compute. repeat constructor. Qed.

Lemma ascii_chunk_ascii c :
  (byte_val c < 0x80)%N → Forall (λ b, (byte_val b < 0x80)%N) (ascii_chunk c).
Proof.
  intros Hc. unfold ascii_chunk, encode.escape.
  repeat match goal with
  | |- context [if ?b then _ else _] => destruct b
  end;
  repeat first [ apply Forall_nil_2
               | apply Forall_cons; split;
                 [first [exact Hc | apply hex_ascii | vm_compute; reflexivity] |] ].
Qed.

Lemma rune_chunk_valid r s :
  (0x80 ≤ r)%N → scalar r → utf8_valid s → utf8_valid (rune_chunk r ++ s).
Proof.
  intros Hr Hsc Hs. unfold rune_chunk.
  destruct (N.eqb_spec r 0x2028) as [-> | H1].
  { apply utf8_valid_app; [| exact Hs]. ascii_text. }
  destruct (N.eqb_spec r 0x2029) as [-> | H2].
  { apply utf8_valid_app; [| exact Hs]. ascii_text. }
  cbn [orb]. apply valid_rune; assumption.
Qed.

(** What [appendString] writes of a valid string is valid. *)
Lemma appendString_go_valid s :
  utf8_valid s → utf8_valid (encode.appendString_go 0 s).
Proof.
  induction 1 as [| c s Hc Hs IH | r s Hr Hsc Hs IH].
  - constructor.
  - rewrite appendString_go_ascii by assumption.
    apply utf8_valid_app; [| exact IH].
    apply utf8_valid_ascii, ascii_chunk_ascii, Hc.
  - rewrite appendString_go_rune by assumption.
    apply rune_chunk_valid; assumption.
Qed.

Ltac valid_app :=
  repeat match goal with
  | |- utf8_valid (_ ++ _) => apply utf8_valid_app
  end.

Lemma appendString_valid s :
  utf8_valid s → utf8_valid (encode.appendString s).
Proof.
  intros Hs. unfold encode.appendString.
  apply valid_ascii; [vm_compute; reflexivity |].
  apply utf8_valid_app; [apply appendString_go_valid, Hs | ascii_text].
Qed.

Lemma item_valid_text it : item_valid it → utf8_valid (encode.item it).
Proof.
  intros (H1 & H2 & H3). unfold encode.item.
  destruct (bool_decide (Translation it = [])); valid_app;
    try (apply appendString_valid; assumption); ascii_text.
Qed.

Lemma Join_valid texts sep :
  Forall utf8_valid texts → utf8_valid sep →
  utf8_valid (strings.Join texts sep).
Proof.
  intros Ht Hsep. induction Ht as [| t texts Ht Hts IH]; [constructor |].
  destruct texts as [| t' texts]; [exact Ht |].
  change (strings.Join (t :: t' :: texts) sep)
    with (t ++ sep ++ strings.Join (t' :: texts) sep).
  apply utf8_valid_app; [exact Ht |].
  apply utf8_valid_app; [exact Hsep | exact IH].
Qed.

Lemma items_valid_text l :
  Forall item_valid (default [] l) → utf8_valid (encode.items l).
Proof.
  intros Hv. destruct l as [its |]; [| ascii_text].
  unfold encode.items. cbn [default] in Hv.
  apply utf8_valid_app; [ascii_text |].
  apply utf8_valid_app; [| ascii_text].
  apply Join_valid; [| ascii_text].
  change (map encode.item its) with (encode.item <$> its).
  apply Forall_fmap. eapply Forall_impl; [exact Hv |].
  intros it. apply item_valid_text.
Qed.

Lemma prompt_frame_valid : utf8_valid prompt_frame.
Proof. ascii_text. Qed.

Lemma payloadItems_default tmap : default [] (payloadItems tmap) = tmap.
Proof. destruct tmap; reflexivity. Qed.

Lemma make_prompt_valid Prompt tmap :
  utf8_valid Prompt → Forall item_valid tmap →
  utf8_valid (make_prompt Prompt tmap).
Proof.
  intros Hp Hv. unfold make_prompt.
  apply utf8_valid_app; [exact Hp |].
  apply utf8_valid_app; [apply prompt_frame_valid |].
  apply items_valid_text. rewrite payloadItems_default. exact Hv.
Qed.

Lemma object1_length name inner :
  length (object1 name inner) = (length (str name) + length inner + 5)%nat.
Proof.
  unfold object1, encode.key, dq. cbn [length app].
  rewrite !length_app. cbn [length].
  change (length (str ":")) with 1%nat. lia.
Qed.

Lemma array1_length inner : length (array1 inner) = (length inner + 2)%nat.
Proof. unfold array1. cbn [length]. rewrite length_app. cbn [length]. lia. Qed.

Lemma parse_envelope_text t :
  utf8_valid t → json.parse (envelope_text t) = json.Ok (envelope_value t).
Proof.
  intros Ht. apply parses_parse.
  assert (Hfuel : ∃ fuel, (2 * length (envelope_text t) + 1 = 13 + fuel)%nat).
  { exists (2 * length (envelope_text t) + 1 - 13)%nat.
    assert (6 ≤ length (envelope_text t))%nat
      by (unfold envelope_text;
          repeat (rewrite object1_length || rewrite array1_length); lia).
    lia. }
  destruct Hfuel as [fuel ->]. unfold envelope_text, envelope_value.
  pose proof json.maxNestingDepth as M.
  assert (Hd : ∀ d, (d < 6)%N → (d < json.maxNestingDepth)%N)
    by (unfold json.maxNestingDepth; lia).
  apply parses_object1; [apply plain_candidates | apply Hd; lia |].
  apply parses_array1; [reflexivity | reflexivity | apply Hd; lia |].
  apply parses_object1; [apply plain_content | apply Hd; lia |].
  apply parses_object1; [apply plain_parts | apply Hd; lia |].
  apply parses_array1; [reflexivity | reflexivity | apply Hd; lia |].
  apply parses_object1; [apply plain_text | apply Hd; lia |].
  apply parses_string, Ht.
Qed.

Lemma parse_jsonPayload p :
  utf8_valid p → json.parse (jsonPayload p) = json.Ok (request_value p).
Proof.
  intros Hp. apply parses_parse.
  assert (Hfuel : ∃ fuel, (2 * length (jsonPayload p) + 1 = 11 + fuel)%nat).
  { exists (2 * length (jsonPayload p) + 1 - 11)%nat.
    assert (5 ≤ length (jsonPayload p))%nat
      by (unfold jsonPayload;
          repeat (rewrite object1_length || rewrite array1_length); lia).
    lia. }
  destruct Hfuel as [fuel ->]. unfold jsonPayload, request_value.
  assert (Hd : ∀ d, (d < 6)%N → (d < json.maxNestingDepth)%N)
    by (unfold json.maxNestingDepth; lia).
  apply parses_object1; [apply plain_contents | apply Hd; lia |].
  apply parses_array1; [reflexivity | reflexivity | apply Hd; lia |].
  apply parses_object1; [apply plain_parts | apply Hd; lia |].
  apply parses_array1; [reflexivity | reflexivity | apply Hd; lia |].
  apply parses_object1; [apply plain_text | apply Hd; lia |].
  apply parses_string, Hp.
Qed.

Lemma Join_head_length e es sep :
  (length e ≤ length (strings.Join (e :: es) sep))%nat.
Proof.
  destruct es as [| e' es]; [simpl; lia |].
  change (strings.Join (e :: e' :: es) sep)
    with (e ++ sep ++ strings.Join (e' :: es) sep).
  rewrite length_app. lia.
Qed.

Lemma item_length it : (6 ≤ length (encode.item it))%nat.
Proof.
  unfold encode.item. rewrite !length_app.
  change (length (str "{")) with 1%nat.
  change (length (encode.key "id")) with 5%nat. lia.
Qed.

Lemma parse_items tmap :
  Forall item_valid tmap →
  json.parse (encode.items (payloadItems tmap))
  = json.Ok (items_value (payloadItems tmap)).
Proof.
  intros Hv. unfold json.parse.
  pose proof (items_length (payloadItems tmap)) as Hlen.
  rewrite payloadItems_default in Hlen.
  assert (H6 : (6 ≤ length (encode.items (payloadItems tmap)))%nat ∨
               payloadItems tmap = None).
  { destruct tmap as [| it its]; [right; reflexivity | left].
    cbn [payloadItems encode.items map]. rewrite !length_app.
    pose proof (Join_head_length (encode.item it) (map encode.item its)
                  (str ",")).
    pose proof (item_length it). lia. }
  assert (Hfuel : ∃ fuel, (2 * length (encode.items (payloadItems tmap)) + 1
                           = length tmap + 7 + fuel)%nat).
  { exists (2 * length (encode.items (payloadItems tmap)) + 1
            - (length tmap + 7))%nat.
    destruct H6 as [H6 | H6]; [lia |]. destruct tmap; [| discriminate].
    simpl. lia. }
  destruct Hfuel as [fuel ->].
  pose proof (parse_value_items fuel 0 (payloadItems tmap) []) as H.
  rewrite payloadItems_default, app_nil_r in H. rewrite H; [reflexivity | |].
  - exact Hv.
  - unfold json.maxNestingDepth. lia.
Qed.

(** X10: the remote call fails with "invalid response format" for the
    bodies without an opening or without a closing brace, and for no
    other body. *)
Theorem translateWithGemini_body_invalid_format (body : gostring) :
  translateWithGemini_body body = Failed msg_invalid_format [] ↔
  lbrace ∉ body ∨ rbrace ∉ body.
Proof.
  unfold translateWithGemini_body.
  change (str "{") with [lbrace]. change (str "}") with [rbrace].
  destruct (Z.eqb_spec (strings.Index body [lbrace]) (-1)) as [E1 | E1].
  { cbn [orb]. split; [| reflexivity]. intros _. left.
    apply Index_absent, E1. }
  destruct (Z.eqb_spec (strings.LastIndex body [rbrace]) (-1)) as [E2 | E2].
  { cbn [orb]. split; [| reflexivity]. intros _. right.
    apply LastIndex_absent, E2. }
  cbn [orb]. rewrite <- Index_absent, <- LastIndex_absent.
  split; [| tauto]. intros H. exfalso.
  destruct (unwrapEnvelope body (Unmarshal_rawMap body)) as [t | msg d |] eqn:E.
  - apply extractResults_not_invalid_format in H. exact H.
  - injection H as -> ->. apply unwrapEnvelope_not_invalid_format in E. exact E.
  - discriminate.
Qed.

(** X11: a body with the two braces that is not the text of a JSON
    object, or is one without a member [candidates], as an answer that
    reports an error, ends the remote call with the error "no
    candidates in response" that carries the body, and with no
    panic. *)
Theorem translateWithGemini_body_no_candidates (body : gostring) :
  lbrace ∈ body → rbrace ∈ body →
  (∀ members, json.parse body = json.Ok (json.Object members) →
              str "candidates" ∉ members.*1) →
  translateWithGemini_body body = Failed msg_no_candidates body.
Proof.
  intros H1 H2 Hc. unfold translateWithGemini_body.
  change (str "{") with [lbrace]. change (str "}") with [rbrace].
  destruct (Z.eqb_spec (strings.Index body [lbrace]) (-1)) as [E1 | _].
  { apply Index_absent in E1. contradiction. }
  destruct (Z.eqb_spec (strings.LastIndex body [rbrace]) (-1)) as [E2 | _].
  { apply LastIndex_absent in E2. contradiction. }
  cbn [orb]. unfold unwrapEnvelope.
  rewrite (Unmarshal_rawMap_absent body (str "candidates") Hc). reflexivity.
Qed.

Lemma translateWithGemini_body_no_candidates_witness :
  translateWithGemini_body error_body = Failed msg_no_candidates error_body.
Proof.
  apply translateWithGemini_body_no_candidates.
  - left.
  - unfold error_body, object1. right. rewrite app_assoc.
    apply elem_of_app. right. left.
  - intros members H.
    assert (E : json.parse error_body
                = json.Ok (json.Object
                             [(str "error", json.String (str "quota exceeded"))]))
      by (vm_compute; reflexivity).
    rewrite E in H. injection H as <-. cbn.
    intros Hin. apply list_elem_of_singleton in Hin. discriminate Hin.
Defined.

(** X12: for every text of valid UTF-8, the body that holds it as the
    text of the first part of the first candidate is read to the end:
    the remote call gives what the extractor gives of that text. *)
Theorem translateWithGemini_body_envelope (actualJSON : gostring) :
  utf8_valid actualJSON →
  translateWithGemini_body (envelope_text actualJSON)
  = extractResults actualJSON.
Proof.
  intros Ht. unfold translateWithGemini_body.
  assert (E1 : strings.Index (envelope_text actualJSON) (str "{") = 0).
  { unfold strings.Index, envelope_text, object1.
    cbn [strings.Index_from]. change (str "{") with [lbrace].
    rewrite HasPrefix_cons_single, bool_decide_eq_true_2 by reflexivity.
    reflexivity. }
  assert (E2 : strings.LastIndex (envelope_text actualJSON) (str "}") ≠ -1).
  { unfold strings.LastIndex, envelope_text.
    unfold object1 at 1. rewrite app_comm_cons, app_assoc.
    change (str "}") with [rbrace].
    rewrite LastIndex_from_last by lia. unfold len. lia. }
  rewrite E1. destruct (Z.eqb_spec (strings.LastIndex (envelope_text actualJSON)
                                      (str "}")) (-1)); [contradiction |].
  cbn [orb Z.eqb].
  unfold Unmarshal_rawMap. rewrite (parse_envelope_text _ Ht).
  unfold envelope_value. rewrite toAny_Object.
  unfold store_members. cbn [fold_left toAny map].
  unfold unwrapEnvelope. rewrite lookup_insert_eq.
  rewrite lookup_insert_eq. rewrite lookup_insert_eq.
  rewrite lookup_insert_eq. reflexivity.
Qed.

Lemma translateWithGemini_body_envelope_witness :
  translateWithGemini_body (envelope_text results_5x)
  = Returned (Some [item_5x]).
Proof.
  rewrite translateWithGemini_body_envelope.
  - vm_compute. reflexivity.
  - ascii_text.
Defined.

(** X13: when the prompt of the configuration and the strings of the
    Batch are valid UTF-8, the request body is a JSON text: it is the
    object with the prompt as the text of its one part, and the data at
    the end of the prompt is a JSON text as well, the array of the
    items of the Batch, in their order, each with its id and its text
    ([null] for an empty Batch). *)
Theorem request_is_json (Prompt : gostring) (tmap : list TranslationItem) :
  utf8_valid Prompt → Forall item_valid tmap →
  json.parse (jsonPayload (make_prompt Prompt tmap))
  = json.Ok (request_value (make_prompt Prompt tmap)) ∧
  json.parse (encode.items (payloadItems tmap))
  = json.Ok (items_value (payloadItems tmap)).
Proof.
  intros Hp Hv. split.
  - apply parse_jsonPayload, make_prompt_valid; assumption.
  - apply parse_items, Hv.
Qed.

Lemma request_is_json_witness :
  json.parse (jsonPayload (make_prompt (str "Translate") [item_7_hello]))
  = json.Ok (request_value (make_prompt (str "Translate") [item_7_hello])) ∧
  json.parse (encode.items (payloadItems [item_7_hello]))
  = json.Ok (json.Array [item_value item_7_hello]).
Proof.
  apply (request_is_json (str "Translate") [item_7_hello]).
  - ascii_text.
  - constructor; [| constructor].
    repeat split; ascii_text.
Defined.

(** ** [sanitizeJSON] takes one piece of its input *)

Lemma part_of_refl s : part_of s s.
Proof. exists [], []. rewrite app_nil_r. reflexivity. Qed.

Lemma part_of_trans t u s : part_of t u → part_of u s → part_of t s.
Proof.
  intros (a & b & ->) (a' & b' & ->). exists (a' ++ a), (b ++ b').
  rewrite <- !app_assoc. reflexivity.
Qed.

Lemma part_of_drop k (s : gostring) : part_of (drop k s) s.
Proof.
  exists (take k s), []. rewrite app_nil_r. symmetry. apply take_drop.
Qed.

Lemma part_of_take k (s : gostring) : part_of (take k s) s.
Proof. exists [], (drop k s). symmetry. apply take_drop. Qed.

Lemma part_of_TrimSpace s : part_of (strings.TrimSpace s) s.
Proof. apply TrimSpace_infix. Qed.

Lemma part_of_TrimPrefix s p : part_of (strings.TrimPrefix s p) s.
Proof.
  unfold strings.TrimPrefix, slice_from.
  destruct (strings.HasPrefix s p); [apply part_of_drop | apply part_of_refl].
Qed.

Lemma part_of_TrimSuffix s p : part_of (strings.TrimSuffix s p) s.
Proof.
  unfold strings.TrimSuffix, slice_to.
  destruct (strings.HasSuffix s p); [apply part_of_take | apply part_of_refl].
Qed.

Lemma part_of_slice s lo hi : part_of (slice s lo hi) s.
Proof.
  unfold slice. eapply part_of_trans; [apply part_of_take | apply part_of_drop].
Qed.

(** ** Where the braces are found *)

Lemma Index_from_split c s : ∀ i,
  strings.Index_from i s [c] ≠ -1 →
  ∃ a b, s = a ++ c :: b ∧ strings.Index_from i s [c] = i + len a ∧ c ∉ a.
Proof.
  induction s as [| x s IH]; intros i; cbn [strings.Index_from].
  - rewrite HasPrefix_nil_single. congruence.
  - rewrite HasPrefix_cons_single. case_bool_decide as Hx.
    + subst x. intros _. exists [], s. repeat split.
      * unfold len. simpl. lia.
      * apply not_elem_of_nil.
    + intros H. destruct (IH (i + 1) H) as (a & b & -> & E & Ha).
      exists (x :: a), b. repeat split.
      * rewrite E. unfold len. simpl length. lia.
      * apply not_elem_of_cons. split; [congruence | exact Ha].
Qed.

Lemma LastIndex_from_split c s : ∀ i, 0 ≤ i →
  strings.LastIndex_from i s [c] ≠ -1 →
  ∃ a b, s = a ++ c :: b ∧ strings.LastIndex_from i s [c] = i + len a ∧ c ∉ b.
Proof.
  induction s as [| x s IH]; intros i Hi; cbn [strings.LastIndex_from].
  - rewrite HasPrefix_nil_single. congruence.
  - rewrite HasPrefix_cons_single.
    destruct (LastIndex_from_range s [c] ltac:(discriminate) (i + 1))
      as [E | E].
    + rewrite E. cbn. case_bool_decide as Hx; [| congruence].
      subst x. intros _. exists [], s. repeat split.
      * unfold len. simpl. lia.
      * apply LastIndex_from_absent in E; [exact E | lia].
    + destruct (Z.leb_spec 0 (strings.LastIndex_from (i + 1) s [c])); [| lia].
      intros _. destruct (IH (i + 1)) as (a & b & -> & E' & Hb); [lia | lia |].
      exists (x :: a), b. repeat split; [| exact Hb].
      rewrite E'. unfold len. simpl length. lia.
Qed.

(** The slice from the first opening brace to the last closing brace,
    when the one stands before the other. *)
Lemma slice_braces input :
  let start := strings.Index input (str "{") in
  let end_ := strings.LastIndex input (str "}") in
  start ≠ -1 → end_ ≠ -1 → start < end_ →
  ∃ m, slice input start (end_ + 1) = lbrace :: m ++ [rbrace].
Proof.
  intros start end_ H1 H2 Hlt. unfold start, end_ in *.
  change (str "{") with [lbrace] in *. change (str "}") with [rbrace] in *.
  unfold strings.Index, strings.LastIndex in *.
  destruct (Index_from_split lbrace input 0 H1) as (a & b & Ea & E1 & _).
  destruct (LastIndex_from_split rbrace input 0 ltac:(lia) H2)
    as (a' & b' & Ea' & E2 & _).
  rewrite E1, E2 in *. unfold len in *. unfold slice.
  replace (Z.to_nat (0 + Z.of_nat (length a))) with (length a) by lia.
  replace (Z.to_nat (0 + Z.of_nat (length a') + 1 - (0 + Z.of_nat (length a))))
    with (S (S (length a' - length a - 1))) by lia.
  assert (Hb : b !! (length a' - length a - 1)%nat = Some rbrace).
  { assert (H : input !! length a' = Some rbrace).
    { rewrite Ea'. apply list_lookup_middle. reflexivity. }
    rewrite Ea in H. rewrite lookup_app_r in H by lia.
    replace (length a' - length a)%nat
      with (S (length a' - length a - 1)) in H by lia.
    exact H. }
  exists (take (length a' - length a - 1) b).
  rewrite Ea at 1. rewrite drop_app_length. cbn [take].
  rewrite (take_S_r _ _ _ Hb). reflexivity.
Qed.

(** The first opening brace is not after any opening brace, the last
    closing brace not before any closing brace. *)
Lemma Index_first a b :
  0 ≤ strings.Index (a ++ lbrace :: b) (str "{") ≤ len a.
Proof.
  change (str "{") with [lbrace]. unfold strings.Index.
  destruct (Z.eq_dec (strings.Index_from 0 (a ++ lbrace :: b) [lbrace]) (-1))
    as [E | E].
  { apply Index_from_absent in E; [| lia]. exfalso. apply E.
    apply elem_of_app. right. left. }
  destruct (Index_from_split _ _ _ E) as (a0 & b0 & E0 & -> & Ha0).
  unfold len. split; [lia |].
  destruct (Nat.le_gt_cases (length a0) (length a)) as [Hle | Hgt]; [lia |].
  exfalso. apply Ha0.
  assert (H : (a ++ lbrace :: b) !! length a = Some lbrace)
    by (apply list_lookup_middle; reflexivity).
  rewrite E0, lookup_app_l in H by lia.
  apply list_elem_of_lookup_2 in H. exact H.
Qed.

Lemma LastIndex_last a b :
  len a ≤ strings.LastIndex (a ++ rbrace :: b) (str "}").
Proof.
  change (str "}") with [rbrace]. unfold strings.LastIndex.
  destruct (Z.eq_dec (strings.LastIndex_from 0 (a ++ rbrace :: b) [rbrace])
                     (-1)) as [E | E].
  { apply LastIndex_from_absent in E; [| lia]. exfalso. apply E.
    apply elem_of_app. right. left. }
  destruct (LastIndex_from_split _ _ 0 ltac:(lia) E)
    as (a0 & b0 & E0 & -> & Hb0).
  unfold len.
  destruct (Nat.le_gt_cases (length a) (length a0)) as [Hle | Hgt]; [lia |].
  exfalso. apply Hb0.
  assert (H : (a ++ rbrace :: b) !! length a = Some rbrace)
    by (apply list_lookup_middle; reflexivity).
  rewrite E0, lookup_app_r in H by lia.
  replace (length a - length a0)%nat with (S (length a - length a0 - 1)) in H
    by lia.
  cbn in H. apply list_elem_of_lookup_2 in H. exact H.
Qed.

(** X14: what [sanitizeJSON] returns stands in its input, in one piece:
    the function cuts at the two ends and changes no byte. *)
Theorem sanitizeJSON_part_of (input : gostring) :
  part_of (sanitizeJSON input) input.
Proof.
  unfold sanitizeJSON.
  set (t := strings.TrimSpace input).
  set (u := if strings.HasPrefix t (str "```") then _ else t).
  assert (Hu : part_of u input).
  { unfold u. destruct (strings.HasPrefix t (str "```")).
    - eapply part_of_trans; [apply part_of_TrimSpace |].
      eapply part_of_trans; [apply part_of_TrimSuffix |].
      eapply part_of_trans; [apply part_of_TrimPrefix |].
      eapply part_of_trans; [apply part_of_TrimPrefix |].
      apply part_of_TrimSpace.
    - apply part_of_TrimSpace. }
  destruct (negb (strings.Index u (str "{") =? -1) &&
            negb (strings.LastIndex u (str "}") =? -1) &&
            (strings.Index u (str "{") <? strings.LastIndex u (str "}")));
    [| exact Hu].
  eapply part_of_trans; [apply part_of_slice | exact Hu].
Qed.

(** X15: when the text that [sanitizeJSON] returns has an opening brace
    somewhere before a closing brace, it starts with the one and ends
    with the other, and [sanitizeJSON] leaves it as it is. *)
Theorem sanitizeJSON_object_or_no_braces (input : gostring) :
  (∃ m, sanitizeJSON input = lbrace :: m ++ [rbrace]) ∧
  sanitizeJSON (sanitizeJSON input) = sanitizeJSON input ∨
  ¬ brace_before_brace (sanitizeJSON input).
Proof.
  unfold sanitizeJSON at 1 3 4 5.
  set (t := strings.TrimSpace input).
  set (u := if strings.HasPrefix t (str "```") then _ else t).
  cbv zeta.
  destruct (Z.eqb_spec (strings.Index u (str "{")) (-1)) as [E1 | E1];
    destruct (Z.eqb_spec (strings.LastIndex u (str "}")) (-1)) as [E2 | E2];
    destruct (Z.ltb_spec (strings.Index u (str "{"))
                         (strings.LastIndex u (str "}"))) as [E3 | E3];
    cbn [negb andb].
  7: { left. destruct (slice_braces u E1 E2 E3) as [m ->].
       split; [exists m; reflexivity | apply sanitizeJSON_object]. }
  all: right; intros (a & b & c & E);
    pose proof (Index_first a (b ++ rbrace :: c)) as H1;
    pose proof (LastIndex_last (a ++ lbrace :: b) c) as H2;
    rewrite <- app_assoc in H2; cbn [app] in H2; rewrite <- E in H1, H2;
    unfold len in *; rewrite length_app in H2; cbn [length] in H2; lia.
Qed.

(** ** The filler *)

Lemma typed_app a b : typed (a ++ b) = typed a ++ typed b.
Proof. apply omap_app. Qed.

Lemma scrolled_app a b : scrolled (a ++ b) = scrolled a ++ scrolled b.
Proof. apply omap_app. Qed.

Lemma polls_app a b : polls (a ++ b) = (polls a + polls b)%nat.
Proof. unfold polls. rewrite omap_app, length_app. reflexivity. Qed.

(** The wait for the editor adds looks and sleeps only, ten looks at
    most, and ten of them when the editor stays visible. *)
Lemma wait_editor_trace page turns : ∀ trace,
  ∃ ext, wait_editor page turns trace = trace ++ ext ∧
         typed ext = [] ∧ scrolled ext = [] ∧ (polls ext ≤ turns)%nat ∧
         ((∀ h, visible page h = true) → polls ext = turns).
Proof.
  induction turns as [| turns IH]; intros trace; cbn [wait_editor].
  - exists []. rewrite app_nil_r. repeat split; reflexivity || lia.
  - destruct (visible page (trace ++ [IsVisible])) eqn:Ev.
    + destruct (IH ((trace ++ [IsVisible]) ++ [Sleep (200 * Millisecond)]))
        as (ext & -> & H1 & H2 & H3 & H4).
      exists ([IsVisible; Sleep (200 * Millisecond)] ++ ext).
      rewrite <- !app_assoc. split; [reflexivity |].
      rewrite typed_app, scrolled_app, polls_app, H1, H2.
      repeat split; try reflexivity.
      * cbn. lia.
      * intros Hv. rewrite (H4 Hv). reflexivity.
    + exists [IsVisible]. repeat split; try reflexivity.
      * cbn. lia.
      * intros Hv. rewrite Hv in Ev. discriminate.
Qed.

(** What one item adds to the calls. *)
Lemma fill_item_trace page config trace item :
  ∃ ext, (fill_item page config trace item).1 = trace ++ ext ∧
    scrolled ext = [row_selector (ID item)] ∧ (polls ext ≤ 10)%nat ∧
    match (fill_item page config trace item).2 with
    | None => typed ext = [Translation item] ∧
              ((∀ h, visible page h = true) → polls ext = 10%nat)
    | Some _ => typed ext = [] ∨ typed ext = [Translation item]
    end ∧
    ((∀ h, error_of page h = None) → (fill_item page config trace item).2 = None).
Proof.
  unfold fill_item.
  destruct (error_of page (trace ++ [ScrollIntoViewIfNeeded _])) eqn:E1.
  { eexists. split; [reflexivity |]. cbn.
    repeat split; try lia; [left; reflexivity |].
    intros H. rewrite H in E1. discriminate. }
  destruct (error_of page ((trace ++ [ScrollIntoViewIfNeeded _])
                           ++ [ClickEmpty _])) eqn:E2.
  { exists [ScrollIntoViewIfNeeded (row_selector (ID item));
            ClickEmpty (row_selector (ID item))].
    rewrite <- !app_assoc. split; [reflexivity |]. cbn.
    repeat split; try lia; [left; reflexivity |].
    intros H. rewrite H in E2. discriminate. }
  destruct (error_of page ((((trace ++ [ScrollIntoViewIfNeeded _])
                             ++ [ClickEmpty _]) ++ [Sleep _])
                           ++ [KeyboardType _])) eqn:E3.
  { exists [ScrollIntoViewIfNeeded (row_selector (ID item));
            ClickEmpty (row_selector (ID item));
            Sleep (EditorLoadDelay config); KeyboardType (Translation item)].
    rewrite <- !app_assoc. split; [reflexivity |]. cbn.
    repeat split; try lia; [right; reflexivity |].
    intros H. rewrite H in E3. discriminate. }
  destruct (error_of page ((((((trace ++ [ScrollIntoViewIfNeeded _])
                               ++ [ClickEmpty _]) ++ [Sleep _])
                             ++ [KeyboardType _]) ++ [Sleep _])
                           ++ [ClickSave])) eqn:E4.
  { exists [ScrollIntoViewIfNeeded (row_selector (ID item));
            ClickEmpty (row_selector (ID item));
            Sleep (EditorLoadDelay config); KeyboardType (Translation item);
            Sleep (BeforeSaveDelay config); ClickSave].
    rewrite <- !app_assoc. split; [reflexivity |]. cbn.
    repeat split; try lia; [right; reflexivity |].
    intros H. rewrite H in E4. discriminate. }
  match goal with
  | |- context [wait_editor page 10 ?t] =>
    destruct (wait_editor_trace page 10 t) as (w & -> & H1 & H2 & H3 & H4)
  end.
  exists ([ScrollIntoViewIfNeeded (row_selector (ID item));
           ClickEmpty (row_selector (ID item));
           Sleep (EditorLoadDelay config); KeyboardType (Translation item);
           Sleep (BeforeSaveDelay config); ClickSave] ++ w ++
          [Sleep (RowNextDelay config)]).
  cbn [fst snd]. rewrite <- !app_assoc. split; [reflexivity |].
  rewrite scrolled_app, typed_app, polls_app.
  rewrite (scrolled_app w), (typed_app w), (polls_app w), H1, H2.
  cbn. rewrite Nat.add_0_r.
  repeat split; try reflexivity; try lia.
Qed.

(** What [fillTranslations] adds to the calls. *)
Lemma fillTranslations_trace page config items : ∀ trace,
  ∃ ext, (fillTranslations page config items trace).1 = trace ++ ext ∧
    (polls ext ≤ 10 * length items)%nat ∧
    match (fillTranslations page config items trace).2 with
    | None =>
      typed ext = Translation <$> items ∧
      scrolled ext = (λ it, row_selector (ID it)) <$> items ∧
      ((∀ h, visible page h = true) → polls ext = (10 * length items)%nat)
    | Some _ =>
      ∃ done item rest, items = done ++ item :: rest ∧
        scrolled ext = (λ it, row_selector (ID it)) <$> (done ++ [item]) ∧
        (typed ext = Translation <$> done ∨
         typed ext = Translation <$> (done ++ [item]))
    end ∧
    ((∀ h, error_of page h = None) →
     (fillTranslations page config items trace).2 = None).
Proof.
  induction items as [| item items IH]; intros trace;
    cbn [fillTranslations].
  - exists []. rewrite app_nil_r. cbn. repeat split; reflexivity || lia.
  - destruct (fill_item_trace page config trace item)
      as (ext1 & E1 & Hs1 & Hp1 & Hr1 & Hok1).
    destruct (fill_item page config trace item) as [trace1 [err |]];
      cbn [fst snd] in *; subst trace1.
    + exists ext1. split; [reflexivity |]. split; [cbn [length]; lia |].
      split.
      * exists [], item, items. split; [reflexivity |].
        split; [exact Hs1 | exact Hr1].
      * intros H. specialize (Hok1 H). discriminate.
    + destruct Hr1 as [Ht1 Hv1].
      destruct (IH (trace ++ ext1)) as (ext & E & Hp & Hr & Hok).
      exists (ext1 ++ ext). rewrite E, <- app_assoc. split; [reflexivity |].
      rewrite polls_app, typed_app, scrolled_app, Ht1, Hs1.
      split; [cbn [length]; lia |]. split; [| exact Hok].
      destruct (fillTranslations page config items (trace ++ ext1)).2.
      * destruct Hr as (done & it & rest & -> & Hs & Ht).
        exists (item :: done), it, rest. split; [reflexivity |].
        split; [cbn; rewrite Hs; reflexivity |].
        destruct Ht as [Ht | Ht]; [left | right]; cbn; rewrite Ht; reflexivity.
      * destruct Hr as (Ht & Hs & Hv). rewrite Ht, Hs.
        repeat split; try reflexivity.
        intros H. rewrite (Hv1 H), (Hv H). cbn [length]. lia.
Qed.

(** X16: [fillTranslations] goes through the items in their order.
    When it returns no error, it has scrolled to the row of every item
    and typed the translation of every item, each once and in the order
    of the items.  When it returns an error, it has stopped at one
    item: the rows before it are filled, its own row is the last one
    scrolled to, and no row after it is touched. *)
Theorem fillTranslations_in_order (page : Page) (config : Config)
    (items : list TranslationItem) :
  match (fillTranslations page config items []).2 with
  | None =>
    typed (fillTranslations page config items []).1 = Translation <$> items ∧
    scrolled (fillTranslations page config items []).1
    = (λ it, row_selector (ID it)) <$> items
  | Some _ =>
    ∃ done item rest, items = done ++ item :: rest ∧
      scrolled (fillTranslations page config items []).1
      = (λ it, row_selector (ID it)) <$> (done ++ [item]) ∧
      (typed (fillTranslations page config items []).1 = Translation <$> done ∨
       typed (fillTranslations page config items []).1
       = Translation <$> (done ++ [item]))
  end.
Proof.
  destruct (fillTranslations_trace page config items [])
    as (ext & E & _ & Hr & _).
  rewrite E. cbn [app].
  destruct (fillTranslations page config items []).2.
  - exact Hr.
  - destruct Hr as (H1 & H2 & _). split; assumption.
Qed.

(** X17: the editor is looked for ten times an item at most.  On a page
    where no call fails, [fillTranslations] returns no error, also when
    the editor never closes: then it has looked ten times for every
    item and gone on. *)
Theorem fillTranslations_polls (page : Page) (config : Config)
    (items : list TranslationItem) :
  (polls (fillTranslations page config items []).1 ≤ 10 * length items)%nat ∧
  ((∀ h, error_of page h = None) →
   (fillTranslations page config items []).2 = None ∧
   ((∀ h, visible page h = true) →
    polls (fillTranslations page config items []).1
    = (10 * length items)%nat)).
Proof.
  destruct (fillTranslations_trace page config items [])
    as (ext & E & Hp & Hr & Hok).
  rewrite E. cbn [app]. split; [exact Hp |].
  intros H. specialize (Hok H). split; [exact Hok |].
  rewrite Hok in Hr. destruct Hr as (_ & _ & Hv). exact Hv.
Qed.

Lemma fillTranslations_polls_witness :
  (fillTranslations stuck_page no_delays three_items []).2 = None ∧
  polls (fillTranslations stuck_page no_delays three_items []).1 = 30%nat.
Proof.
  destruct (fillTranslations_polls stuck_page no_delays three_items)
    as [_ H].
  destruct H as [H1 H2]; [reflexivity |].
  split; [exact H1 |]. apply H2. reflexivity.
Defined.
